(** * Andrews-Kwon SPUR1 inference core: [ineq_functions/andrews_kwon.py]

    A shallow embedding of [rhat], [an_vec], [an_star], [cvalue_SPUR1],
    [std_b_vec] and [tn_star], the properties of them that the
    specification states, and further properties that the code shows: its
    errors and edge cases, the invariants it keeps and how the functions
    compose.

    Numbers.  A NumPy [float64] is modelled by its value: an exact rational,
    one of the two infinities, or NaN.  The special values follow IEEE 754
    (NaN is absorbing and compares false with everything, [inf - inf], [0 * inf]
    and [0 / 0] are NaN, [x / 0] is an infinity); the sign of zero is not
    modelled.  Arithmetic is exact, except where the code takes the floor and
    the ceiling of a product or tests a difference against the ends of
    [0, 1]: the level [1 - alpha] and the rank [(N - 1) * q] of the quantile
    are rounded to binary64 (function [round64]).  Rationals are kept in
    lowest terms, so that equal numbers are equal terms.

    Arrays.  A vector is a list, a matrix the list of its rows.  In
    [std_b_vec], [tn_star], [an_star] and [cvalue_SPUR1] elementwise
    operations pair entries by position, which is what NumPy computes when
    the arrays have the documented shapes ([std_b1], [std_b2] and [std_b3]
    of one entry per moment, the penalty vector of one entry per
    replication); for other lengths NumPy raises or broadcasts, and every
    statement below that depends on it carries the lengths as hypotheses.
    Indices and replication counts are natural numbers: an index is one
    that [np.random.randint(0, n)] can draw.

    What is not in the file under study is a parameter of the development:
    [np.sqrt], [np.log], the global generator behind [np.random.seed] and
    [np.random.randint], and the two functions of [ineq_functions/moment.py],
    [m_function] and [m_hat] (record [Env] below). *)

From Stdlib Require Import QArith Qround Qabs Qpower Lqa Lia ZArith Bool
  Sorting.Sorted.
From stdpp Require Import base list.

Open Scope Q_scope.

(** ** Numbers *)

Inductive num : Type :=
| NaN
| NInf
| Fin (q : Q)
| PInf.

Definition fin (q : Q) : num := Fin (Qred q).

Definition zero : num := Fin 0.
Definition one : num := Fin 1.
Definition of_nat (n : nat) : num := Fin (inject_Z (Z.of_nat n)).
Definition of_bool (b : bool) : num := if b then one else zero.

Definition is_nan (x : num) : bool :=
  match x with NaN => true | _ => false end.

Definition is_fin (x : num) : bool :=
  match x with Fin _ => true | _ => false end.

(** Sign of a rational as a comparison with 0. *)
Definition qsign (q : Q) : comparison := 0 ?= q.

Definition neg (x : num) : num :=
  match x with
  | NaN => NaN
  | NInf => PInf
  | Fin q => fin (- q)
  | PInf => NInf
  end.

Definition add (x y : num) : num :=
  match x, y with
  | NaN, _ | _, NaN => NaN
  | PInf, NInf | NInf, PInf => NaN
  | PInf, _ | _, PInf => PInf
  | NInf, _ | _, NInf => NInf
  | Fin a, Fin b => fin (a + b)
  end.

Definition sub (x y : num) : num := add x (neg y).

(** An infinity times a finite number: the sign decides, and [0 * inf] is NaN. *)
Definition inf_times (pos : bool) (q : Q) : num :=
  match qsign q with
  | Eq => NaN
  | Lt => if pos then PInf else NInf
  | Gt => if pos then NInf else PInf
  end.

Definition mul (x y : num) : num :=
  match x, y with
  | NaN, _ | _, NaN => NaN
  | PInf, PInf | NInf, NInf => PInf
  | PInf, NInf | NInf, PInf => NInf
  | PInf, Fin q | Fin q, PInf => inf_times true q
  | NInf, Fin q | Fin q, NInf => inf_times false q
  | Fin a, Fin b => fin (a * b)
  end.

(** Division; a zero divisor is taken as [+0]. *)
Definition div (x y : num) : num :=
  match x, y with
  | NaN, _ | _, NaN => NaN
  | (PInf | NInf), (PInf | NInf) => NaN
  | Fin _, (PInf | NInf) => zero
  | PInf, Fin b => match qsign b with Gt => NInf | _ => PInf end
  | NInf, Fin b => match qsign b with Gt => PInf | _ => NInf end
  | Fin a, Fin b =>
      match qsign b with
      | Eq => match qsign a with Eq => NaN | Lt => PInf | Gt => NInf end
      | _ => fin (a / b)
      end
  end.

(** Comparisons: every comparison with NaN is false. *)
Definition leb (x y : num) : bool :=
  match x, y with
  | NaN, _ | _, NaN => false
  | NInf, _ | _, PInf => true
  | Fin a, Fin b => Qle_bool a b
  | _, _ => false
  end.

Definition eqb (x y : num) : bool :=
  match x, y with
  | NInf, NInf | PInf, PInf => true
  | Fin a, Fin b => Qeq_bool a b
  | _, _ => false
  end.

Definition ltb (x y : num) : bool := leb x y && negb (eqb x y).
Definition geb (x y : num) : bool := leb y x.
Definition gtb (x y : num) : bool := ltb y x.

(** [np.minimum] and [np.maximum]: NaN propagates. *)
Definition minimum (x y : num) : num :=
  match x, y with
  | NaN, _ | _, NaN => NaN
  | _, _ => if leb x y then x else y
  end.

Definition maximum (x y : num) : num :=
  match x, y with
  | NaN, _ | _, NaN => NaN
  | _, _ => if leb x y then y else x
  end.

(** [x.clip(max=c)] and [x.clip(min=c)] on one entry. *)
Definition clip_max (c x : num) : num := minimum x c.
Definition clip_min (c x : num) : num := maximum x c.

(** ** Errors and results *)

Inductive exn : Type :=
| ConfigError     (* ValueError: bootstrap_replications must be specified ... *)
| TypeError       (* a None where an integer is required *)
| ReductionError  (* ValueError: zero-size array to reduction operation *)
| IndexError      (* an index or a boolean mask that does not fit the array *)
| ShapeError      (* ValueError: operands could not be broadcast together *)
| QuantileError.  (* ValueError: Quantiles must be in the range [0, 1] *)

Inductive result (A : Type) : Type :=
| Ok (a : A)
| Err (e : exn).
Arguments Ok {A} a.
Arguments Err {A} e.

Definition rbind {A B : Type} (r : result A) (k : A -> result B) : result B :=
  match r with Ok a => k a | Err e => Err e end.

Fixpoint rmapM {A B : Type} (f : A -> result B) (l : list A) : result (list B) :=
  match l with
  | [] => Ok []
  | a :: l' => rbind (f a) (fun b => rbind (rmapM f l') (fun bs => Ok (b :: bs)))
  end.

(** ** Vectors and matrices *)

Abbreviation vec := (list num).
Abbreviation matrix := (list (list num)).

Definition nrows {A : Type} (X : list (list A)) : nat := length X.
Definition ncols {A : Type} (X : list (list A)) : nat :=
  match X with [] => O | r :: _ => length r end.

Definition vsum (v : vec) : num := fold_left add v zero.

(** [np.max] and [np.min] of a vector: an error on the empty vector. *)
Definition np_max (v : vec) : result num :=
  match v with
  | [] => Err ReductionError
  | x :: v' => Ok (fold_left maximum v' x)
  end.

Definition np_min (v : vec) : result num :=
  match v with
  | [] => Err ReductionError
  | x :: v' => Ok (fold_left minimum v' x)
  end.

(** Reduction of a matrix along [axis=1]: one value per row. *)
Definition max_axis1 (M : matrix) : result vec := rmapM np_max M.
Definition min_axis1 (M : matrix) : result vec := rmapM np_min M.

(** Column [j] of a matrix. *)
Definition column (j : nat) (M : matrix) : vec :=
  map (fun r => nth j r NaN) M.

Definition columns (k : nat) (M : matrix) : matrix :=
  map (fun j => column j M) (seq 0 k).

(** [a[mask]] for a boolean mask: the entries where the mask is true; NumPy
    refuses a mask whose length is not the array's. *)
Fixpoint mask_select {A : Type} (a : list A) (mask : list bool) : result (list A) :=
  match a, mask with
  | [], [] => Ok []
  | x :: a', b :: mask' =>
      rbind (mask_select a' mask') (fun r => Ok (if b then x :: r else r))
  | _, _ => Err IndexError
  end.

(** [mask.nonzero()[0]]: the positions where the mask is true, in order. *)
Fixpoint nonzero_from (i : nat) (mask : list bool) : list nat :=
  match mask with
  | [] => []
  | b :: mask' => if b then i :: nonzero_from (S i) mask' else nonzero_from (S i) mask'
  end.

Definition nonzero (mask : list bool) : list nat := nonzero_from 0 mask.

(** [X[i, :]] for a row of indices, and [X[indices, :]] for a matrix of
    them: one resampled matrix per row of [indices]. *)
Definition take_rows (X : matrix) (ix : list nat) : result matrix :=
  rmapM (fun i => match X !! i with Some r => Ok r | None => Err IndexError end) ix.

Definition resample (X : matrix) (indices : list (list nat)) : result (list matrix) :=
  rmapM (take_rows X) indices.

(** ** Constants *)

Definition minus_one : num := Fin (-1).
Definition two : num := Fin 2.
Definition half : num := Fin (1 # 2).
Definition iota : num := Fin (1 # 1000000).

(** One entry of [phi_n] (lines 138-139 and 344-345): zero, and [inf] where
    [xi > 1]. *)
Definition gms (xi : num) : num := if gtb xi one then PInf else zero.

(** Insertion sort by [leb]; used on vectors without NaN. *)
Fixpoint insert_sorted (x : num) (l : vec) : vec :=
  match l with
  | [] => [x]
  | y :: l' => if leb x y then x :: y :: l' else y :: insert_sorted x l'
  end.

Fixpoint sort (l : vec) : vec :=
  match l with
  | [] => []
  | x :: l' => insert_sorted x (sort l')
  end.

(** NumPy's [_lerp]: [a + (b - a) * t], and [b - (b - a) * (1 - t)] where
    [t >= 0.5]. *)
Definition lerp (a b t : num) : num :=
  let diff_b_a := sub b a in
  if geb t half then sub b (mul diff_b_a (sub one t))
  else add a (mul diff_b_a t).

(** ** Rounding to binary64

    Round to nearest, ties to even, with 53 significant bits; below
    [2^-1022] the spacing stays [2^-1074].  Overflow is not modelled: the
    two uses below stay under [2^1024] on every float. *)

(** Round to the nearest integer, ties to the even one. *)
Definition rne (x : Q) : Z :=
  let f := Qfloor x in
  match Qcompare (x - inject_Z f) (1 # 2) with
  | Lt => f
  | Gt => (f + 1)%Z
  | Eq => if Z.even f then f else (f + 1)%Z
  end.

(** The exponent [e] with [2^e <= q < 2^(e+1)], for [0 < q]. *)
Definition binade (q : Q) : Z :=
  let e := (Z.log2 (Qnum q) - Z.log2 (Z.pos (Qden q)))%Z in
  if Qle_bool (2 ^ e) q then e else (e - 1)%Z.

Definition round64_pos (q : Q) : Q :=
  let u := 2 ^ (Z.max (binade q) (-1022) - 52) in
  inject_Z (rne (q / u)) * u.

Definition round64 (q : Q) : Q :=
  match 0 ?= q with
  | Eq => 0
  | Lt => round64_pos q
  | Gt => - round64_pos (- q)
  end.

(** ** [np.quantile] with midpoint interpolation *)

(** The rank [(N - 1) * q] as NumPy computes it: the integer [N - 1] is
    converted to a float and the product is rounded. *)
Definition float_rank (N : nat) (q : Q) : Q :=
  round64 (round64 (inject_Z (Z.of_nat N - 1)) * q).

(** [np.quantile(a, q, interpolation="midpoint")] on a vector.  The virtual
    index is the mean of the floor and the ceiling of the rank; the
    result interpolates the order statistics at its floor and the one after
    it, with weight 0 when the virtual index is an integer and 1/2
    otherwise.  A vector that holds a NaN has quantile NaN. *)
Definition virtual_index (N : nat) (q : Q) : Q :=
  let r := float_rank N q in
  (1 # 2) * (inject_Z (Qfloor r) + inject_Z (Qceiling r)).

Definition quantile_indexes (N : nat) (vi : Q) : nat * nat :=
  if Qle_bool (inject_Z (Z.of_nat N - 1)) vi then (N - 1, N - 1)%nat
  else if negb (Qle_bool 0 vi) then (O, O)
  else (Z.to_nat (Qfloor vi), Z.to_nat (Qfloor vi + 1)).

Definition quantile_gamma (vi : Q) : num :=
  if Qeq_bool vi (inject_Z (Qfloor vi)) then zero else half.

Definition quantile_midpoint (a : vec) (q : num) : result num :=
  match q with
  | Fin q0 =>
      if Qle_bool 0 q0 && Qle_bool q0 1 then
        match a with
        | [] => Err IndexError
        | _ =>
            if existsb is_nan a then Ok NaN
            else
              let arr := sort a in
              let vi := virtual_index (length a) q0 in
              let (previous, next) := quantile_indexes (length a) vi in
              Ok (lerp (nth previous arr NaN) (nth next arr NaN) (quantile_gamma vi))
        end
      else Err QuantileError
  | _ => Err QuantileError
  end.

(** ** The environment: what the file imports *)

Class Env : Type := {
  (** state of NumPy's global generator *)
  rng : Type;
  (** [np.random.seed(s)]: the state the seed [s] sets *)
  np_seed : Z -> rng;
  (** [np.random.randint(0, high, size=(B, n))]: the matrix and the new state *)
  np_randint : nat -> nat -> nat -> rng -> list (list nat) * rng;
  np_sqrt : num -> num;
  np_log : num -> num;
  (** [m_hat(X)] of [moment.py]: one aggregate per column *)
  m_hat : matrix -> vec;
  (** [m_function(W_data, A_matrix, theta, J0_vec, Vbar, IV_matrix, grid0)] *)
  m_function : matrix -> matrix -> vec -> matrix -> num -> option matrix -> Z -> matrix
}.

Section Core.

Context {E : Env}.

(** Computations that may raise and that read and write the global
    generator. *)
Definition M (A : Type) : Type := rng -> result A * rng.

Definition ret {A : Type} (a : A) : M A := fun s => (Ok a, s).
Definition raise {A : Type} (e : exn) : M A := fun s => (Err e, s).
Definition lift {A : Type} (r : result A) : M A := fun s => (r, s).
Definition bind {A B : Type} (m : M A) (k : A -> M B) : M B :=
  fun s => match m s with
           | (Ok a, s') => k a s'
           | (Err e, s') => (Err e, s')
           end.

Definition seed (z : Z) : M unit := fun _ => (Ok tt, np_seed z).
Definition randint (high B n : nat) : M (list (list nat)) :=
  fun s => let (ix, s') := np_randint high B n s in (Ok ix, s').

End Core.

Notation "x <- m ;; k" := (bind m (fun x => k))
  (at level 100, m at next level, right associativity).

Section Functions.

Context {E : Env}.

(** ** Bootstrap indices

    Lines 114-124, 253-263 and 327-337: [an_star], [std_b_vec] and [tn_star]
    open with the same block.  An index matrix that is given is used as it
    is; without one the replication count is required, the generator is
    seeded when a seed is given, and [B x n] indices below [n] are drawn. *)
Definition bootstrap_draw (n : nat) (bootstrap_replications : option nat)
    (rng_seed : option Z) (bootstrap_indices : option (list (list nat)))
  : M (list (list nat)) :=
  match bootstrap_indices with
  | Some indices => ret indices
  | None =>
      match bootstrap_replications with
      | None => raise ConfigError
      | Some B =>
          _ <- match rng_seed with Some z => seed z | None => ret tt end ;;
          randint n B n
      end
  end.

(** [m_hat(X_data[bootstrap_indices, :], axis=1)]: the aggregate of every
    resampled matrix. *)
Definition m_hat_axis1 (Xs : list matrix) : matrix := map m_hat Xs.

(** ** [np.std(..., axis=0)] *)

Definition np_std (v : vec) : num :=
  let N := of_nat (length v) in
  let arrmean := div (vsum v) N in
  let x := map (fun a => sub a arrmean) v in
  np_sqrt (div (vsum (map (fun d => mul d d) x)) N).

(** Number of columns of a [B x k] array; [k0] is the count when [B = 0]. *)
Definition width (k0 : nat) (A : matrix) : nat :=
  match A with [] => k0 | r :: _ => length r end.

Definition std_axis0 (k : nat) (A : matrix) : vec := map np_std (columns k A).

(** ** [std_b_vec] (lines 218-285) *)

(** Lines 266-275: the bootstrap aggregates [mhat_star_vec] and the three
    arrays [vec_1], [vec_2], [vec_3] whose columns are measured. *)
Definition std_b_terms (X_data : matrix) (bootstrap_indices : list (list nat))
  : result (matrix * (matrix * matrix * matrix)) :=
  let n := nrows X_data in
  rbind (resample X_data bootstrap_indices) (fun Xs =>
  let mhat_star_vec := m_hat_axis1 Xs in
  let mhat_star_clip := map (map (clip_max zero)) mhat_star_vec in
  rbind (min_axis1 mhat_star_clip) (fun mn_star_vec =>
  let sq := np_sqrt (of_nat n) in
  let vec_1 :=
    zip_with (fun row mn => map (fun x => mul sq (sub x mn)) row)
             mhat_star_vec mn_star_vec in
  let vec_2 := map (map (mul sq)) mhat_star_vec in
  let vec_3 :=
    zip_with (fun row mn => map (fun c => mul sq (sub mn c)) row)
             mhat_star_clip mn_star_vec in
  Ok (mhat_star_vec, (vec_1, vec_2, vec_3)))).

(** Lines 277-285: the standard deviation of every column, floored at
    [iota]. *)
Definition std_b_of (X_data : matrix) (bootstrap_indices : list (list nat))
  : result matrix :=
  rbind (std_b_terms X_data bootstrap_indices)
    (fun '(mhat_star_vec, (vec_1, vec_2, vec_3)) =>
  let k := width (ncols X_data) mhat_star_vec in
  Ok [ map (clip_min iota) (std_axis0 k vec_1);
       map (clip_min iota) (std_axis0 k vec_2);
       map (clip_min iota) (std_axis0 k vec_3) ]).

Definition std_b_vec (X_data : matrix) (bootstrap_replications : option nat)
    (rng_seed : option Z) (bootstrap_indices : option (list (list nat)))
  : M matrix :=
  indices <- bootstrap_draw (nrows X_data) bootstrap_replications rng_seed
                            bootstrap_indices ;;
  lift (std_b_of X_data indices).

(** ** [tn_star] (lines 288-352)

    [std_b1] is a row of the matrix of [std_b_vec], one entry per moment,
    and lines 343 and 349 pair it with the aggregates entry by entry.  For
    a vector of another length NumPy raises a broadcast error at line 343
    or repeats a single entry; the definition below is the function on
    the documented shape, and the statements about it assume that shape. *)

Definition r_hat_vec_of (m_hat0 : vec) : vec :=
  map (fun m => mul minus_one (clip_max zero m)) m_hat0.

Definition centred (sq : num) (m_hat0 : vec) (Xs : list matrix) : matrix :=
  map (fun ms => zip_with (fun a b => mul sq (sub a b)) ms m_hat0)
      (m_hat_axis1 Xs).

Definition tn_star_of (X_data : matrix) (std_b1 : vec) (kappa_n : num)
    (bootstrap_indices : list (list nat)) : result matrix :=
  let n := nrows X_data in
  let sq := np_sqrt (of_nat n) in
  let m_hat0 := m_hat X_data in
  let r_hat_vec := r_hat_vec_of m_hat0 in
  rbind (np_max r_hat_vec) (fun r_hat =>
  let xi_n :=
    zip_with (fun m s => div (mul sq (add m r_hat)) (mul s kappa_n))
             m_hat0 std_b1 in
  let phi_n := map gms xi_n in
  rbind (resample X_data bootstrap_indices) (fun Xs =>
  Ok (map (fun row => zip_with add row phi_n) (centred sq m_hat0 Xs)))).

Definition tn_star (X_data : matrix) (std_b1 : vec) (kappa_n : num)
    (bootstrap_replications : option nat) (rng_seed : option Z)
    (bootstrap_indices : option (list (list nat))) : M matrix :=
  indices <- bootstrap_draw (nrows X_data) bootstrap_replications rng_seed
                            bootstrap_indices ;;
  lift (tn_star_of X_data std_b1 kappa_n indices).

(** ** [an_star] (lines 100-158)

    [std_b2] and [std_b3] are rows of the matrix of [std_b_vec], one entry
    per moment; lines 132, 135, 136 and 148 pair them with the aggregates
    entry by entry.  For vectors of another length NumPy raises a broadcast
    error at line 132 or at line 148, or repeats a single entry; the
    definitions below are the function on the documented shapes, and the
    statements about them assume those shapes. *)

Definition hat_j_r_of (sq kappa_n r_hat0 : num) (r_hat_vec std_b3 : vec)
  : list nat :=
  nonzero (zip_with (fun r s => geb r (sub r_hat0 (div (mul s kappa_n) sq)))
                    r_hat_vec std_b3).

Definition hat_b_of (sq kappa_n hat_r_inf : num) (r_hat_vec std_b3 : vec) : vec :=
  zip_with (fun r s => sub (mul sq (sub r hat_r_inf)) (mul s kappa_n))
           r_hat_vec std_b3.

Definition xi_a_of (sq kappa_n hat_r_inf : num) (r_hat_vec std_b3 : vec) : vec :=
  zip_with (fun r s => div (mul sq (sub r hat_r_inf)) (mul s kappa_n))
           r_hat_vec std_b3.

(** [pm = 1 - 2 * (vstar >= 0)] on one entry. *)
Definition pm_of (v : num) : num := sub one (mul two (of_bool (geb v zero))).

Definition hat_hi_entry (sq kappa_n m0 s2 v : num) : num :=
  let base := add (mul sq m0) (mul (mul (pm_of v) s2) kappa_n) in
  sub (mul minus_one (clip_max zero (add base v)))
      (mul minus_one (clip_max zero base)).

Definition hat_hi_star_of (sq kappa_n : num) (m_hat0 std_b2 : vec)
    (vstar : matrix) : matrix :=
  map (fun vrow =>
         zip_with (fun ms v => hat_hi_entry sq kappa_n ms.1 ms.2 v)
                  (zip m_hat0 std_b2) vrow)
      vstar.

(** The loop of lines 153-156.  [hat_bnew = hat_b] binds a second name to
    the same array, so the assignment [hat_bnew[j] = phi_n[j]] writes into
    [hat_b], and the next iteration starts from the array as written.  The
    result is the list of the columns of [aux_vec2]. *)
Fixpoint an_loop (hat_hi_star : matrix) (phi_n : vec) (hat_j_r : list nat)
    (hat_b : vec) : result (list vec) :=
  match hat_j_r with
  | [] => Ok []
  | j :: rest =>
      let hat_bnew := <[j := nth j phi_n NaN]> hat_b in
      rbind (max_axis1 (map (fun h => zip_with add hat_bnew h) hat_hi_star))
        (fun col =>
      rbind (an_loop hat_hi_star phi_n rest hat_bnew)
        (fun cols => Ok (col :: cols)))
  end.

(** [np.min(a, axis=1)] of the [B x m] array whose columns are [cols]. *)
Definition min_over_columns (B : nat) (cols : list vec) : result vec :=
  match cols with
  | [] => Err ReductionError
  | _ => min_axis1 (map (fun b => map (fun c => nth b c NaN) cols) (seq 0 B))
  end.

Definition an_star_of (X_data : matrix) (std_b2 std_b3 : vec)
    (kappa_n hat_r_inf : num) (bootstrap_indices : list (list nat))
  : result vec :=
  let n := nrows X_data in
  let sq := np_sqrt (of_nat n) in
  let m_hat0 := m_hat X_data in
  let r_hat_vec := r_hat_vec_of m_hat0 in
  rbind (np_max r_hat_vec) (fun r_hat0 =>
  let hat_j_r := hat_j_r_of sq kappa_n r_hat0 r_hat_vec std_b3 in
  let hat_b := hat_b_of sq kappa_n hat_r_inf r_hat_vec std_b3 in
  let xi_a := xi_a_of sq kappa_n hat_r_inf r_hat_vec std_b3 in
  let phi_n := map gms xi_a in
  rbind (resample X_data bootstrap_indices) (fun Xs =>
  let vstar := centred sq m_hat0 Xs in
  let hat_hi_star := hat_hi_star_of sq kappa_n m_hat0 std_b2 vstar in
  rbind (an_loop hat_hi_star phi_n hat_j_r hat_b) (fun aux_vec2 =>
  min_over_columns (length vstar) aux_vec2))).

Definition an_star (X_data : matrix) (std_b2 std_b3 : vec)
    (kappa_n hat_r_inf : num) (bootstrap_replications : option nat)
    (rng_seed : option Z) (bootstrap_indices : option (list (list nat)))
  : M vec :=
  indices <- bootstrap_draw (nrows X_data) bootstrap_replications rng_seed
                            bootstrap_indices ;;
  lift (an_star_of X_data std_b2 std_b3 kappa_n hat_r_inf indices).

(** ** [an_vec] (lines 48-97) *)

(** [tau_n / np.sqrt(n)] of line 66. *)
Definition tau_over_sqrt_n (A_matrix : matrix) : num :=
  let n := of_nat (nrows A_matrix) in
  let tau_n := np_sqrt (np_log n) in
  div tau_n (np_sqrt n).

Definition boole_of_interest (A_matrix : matrix) (aux1_var : vec) : list bool :=
  map (fun a => leb a (tau_over_sqrt_n A_matrix) || eqb a one) aux1_var.

(** [the_theta = np.zeros(2); the_theta[grid0 - 1] = t], with Python's
    negative indices. *)
Definition the_theta_of (grid0 : Z) (t : num) : result vec :=
  let i := (grid0 - 1)%Z in
  if ((i =? 0) || (i =? -2))%Z then Ok [t; zero]
  else if ((i =? 1) || (i =? -1))%Z then Ok [zero; t]
  else Err IndexError.

(** [np.zeros((BB, m))] needs an integer [BB]. *)
Definition np_zeros_rows (BB : option nat) : result nat :=
  match BB with Some B => Ok B | None => Err TypeError end.

(** [an_mat[:, i] = v]: [v] has as many entries as the column, or one. *)
Definition assign_column (B : nat) (v : vec) : result vec :=
  if (length v =? B)%nat then Ok v
  else match v with
       | [x] => Ok (replicate B x)
       | _ => Err ShapeError
       end.

Section AnVec.

Variables (hat_r_inf : num) (W_data A_matrix : matrix) (J0_vec : matrix)
          (Vbar : num) (IV_matrix : option matrix) (grid0 : Z)
          (bootstrap_replications : option nat) (rng_seed : option Z)
          (bootstrap_indices : option (list (list nat))).

(** The body of the loop of lines 76-95 for the grid value [t]. *)
Definition an_point (kappa_n : num) (t : num) : M vec :=
  the_theta <- lift (the_theta_of grid0 t) ;;
  let X_data :=
    map (map (mul minus_one))
        (m_function W_data A_matrix the_theta J0_vec Vbar IV_matrix grid0) in
  b0_vec <- std_b_vec X_data bootstrap_replications rng_seed bootstrap_indices ;;
  let std_b2 := nth 1 b0_vec [] in
  let std_b3 := nth 2 b0_vec [] in
  an_star X_data std_b2 std_b3 kappa_n hat_r_inf
          bootstrap_replications rng_seed bootstrap_indices.

Fixpoint an_columns (kappa_n : num) (BB : nat) (theta_of_interest : vec)
  : M (list vec) :=
  match theta_of_interest with
  | [] => ret []
  | t :: rest =>
      v <- an_point kappa_n t ;;
      col <- lift (assign_column BB v) ;;
      cols <- an_columns kappa_n BB rest ;;
      ret (col :: cols)
  end.

(** Lines 69-97: the search over the retained grid values. *)
Definition an_search (theta_of_interest : vec) : M vec :=
  let n := nrows A_matrix in
  let kappa_n := np_sqrt (np_log (of_nat n)) in
  let BB :=
    match bootstrap_indices with
    | None => bootstrap_replications
    | Some indices => Some (length indices)
    end in
  B <- lift (np_zeros_rows BB) ;;
  an_mat <- an_columns kappa_n B theta_of_interest ;;
  lift (min_over_columns B an_mat).

Definition an_vec (aux1_var theta_grid : vec) : M vec :=
  let boole := boole_of_interest A_matrix aux1_var in
  theta_of_interest <- lift (mask_select theta_grid boole) ;;
  an_search theta_of_interest.

End AnVec.

(** ** [cvalue_SPUR1] (lines 161-215) *)

(** Line 209: [np.max(-1 * (tn_vec + an_vec[:, np.newaxis]).clip(max=0), axis=1)].
    The penalty vector has one entry per replication, added to every entry
    of the row of that replication.  For another length NumPy raises a
    broadcast error or repeats a single entry; the statements about
    [cvalue_SPUR1] assume one entry per replication. *)
Definition sn_star_of (tn_vec : matrix) (an : vec) : result vec :=
  max_axis1
    (zip_with (fun row a =>
                 map (fun t => mul minus_one (clip_max zero (add t a))) row)
              tn_vec an).

(** Line 213: [1 - alpha], a float subtraction. *)
Definition level_complement (alpha : num) : num :=
  match sub one alpha with
  | Fin q => fin (round64 q)
  | x => x
  end.

Definition cvalue_of (alpha : num) (an : vec) (tn_vec : matrix)
  : result num :=
  rbind (sn_star_of tn_vec an) (fun sn_star_vec =>
  quantile_midpoint sn_star_vec (level_complement alpha)).

Definition cvalue_SPUR1 (X_data : matrix) (alpha : num) (an : vec)
    (bootstrap_replications : option nat) (rng_seed : option Z)
    (bootstrap_indices : option (list (list nat))) : M num :=
  let n := nrows X_data in
  let kappa_n := np_sqrt (np_log (of_nat n)) in
  std_b0 <- std_b_vec X_data bootstrap_replications rng_seed bootstrap_indices ;;
  let std_b1 := nth 0 std_b0 [] in
  tn_vec <- tn_star X_data std_b1 kappa_n
                    bootstrap_replications rng_seed bootstrap_indices ;;
  lift (cvalue_of alpha an tn_vec).

End Functions.

(** ** [rhat] (lines 6-45) *)

(** [grid0]: a direction, or ['all']. *)
Inductive grid_choice : Type :=
| Direction (g : Z)
| AllDirections.

(** [a + b] for two vectors under NumPy's broadcasting: the lengths agree,
    or one of them is one. *)
Definition broadcast_add (a b : vec) : result vec :=
  if (length a =? length b)%nat then Ok (zip_with add a b)
  else match a, b with
       | [x], _ => Ok (map (add x) b)
       | _, [y] => Ok (map (fun x => add x y) a)
       | _, _ => Err ShapeError
       end.

(** The default of [adjust], [np.array([0])]. *)
Definition adjust_default : vec := [zero].

Section Rhat.

Context {E : Env}.

(** [m_function] at [grid0 = 'all']; [Env] carries it at the directions. *)
Variable m_function_all :
  matrix -> matrix -> vec -> matrix -> num -> option matrix -> matrix.

(** Line 43: [X_data = -1 * m_function(...)]. *)
Definition moments_at (W_data A_matrix : matrix) (theta : vec) (J0_vec : matrix)
    (Vbar : num) (IV_matrix : option matrix) (grid0 : grid_choice) : matrix :=
  map (map (mul minus_one))
      match grid0 with
      | Direction g => m_function W_data A_matrix theta J0_vec Vbar IV_matrix g
      | AllDirections => m_function_all W_data A_matrix theta J0_vec Vbar IV_matrix
      end.

(** Lines 44-45: [np.max(-1 * (m_hat0 + adjust).clip(max=0))]. *)
Definition rhat_of (X_data : matrix) (adjust : vec) : result num :=
  let m_hat0 := m_hat X_data in
  rbind (broadcast_add m_hat0 adjust) (fun adjusted =>
  np_max (map (fun x => mul minus_one (clip_max zero x)) adjusted)).

Definition rhat (W_data A_matrix : matrix) (theta : vec) (J0_vec : matrix)
    (Vbar : num) (IV_matrix : option matrix) (grid0 : grid_choice)
    (adjust : vec) : result num :=
  let X_data :=
    moments_at W_data A_matrix theta J0_vec Vbar IV_matrix grid0 in
  rhat_of X_data adjust.

End Rhat.

(** ** A concrete environment

    Used to run the definitions on explicit inputs: an exact square root on
    squares of rationals (a lower approximation to six decimals elsewhere), a
    truncated series for the logarithm (exact at 1), a linear congruential
    generator, the column mean as aggregate and a shift of the revenue
    matrix as moment function. *)
Module Demo.

Definition is_square (z : Z) : bool := (Z.sqrt z * Z.sqrt z =? z)%Z.

Definition sqrt_q (q : Q) : Q :=
  let a := Qnum (Qred q) in
  let b := Z.pos (Qden (Qred q)) in
  if is_square a && is_square b then Z.sqrt a # Z.to_pos (Z.sqrt b)
  else Z.sqrt (a * 1000000000000 / b) # 1000000.

Definition sqrt (x : num) : num :=
  match x with
  | NaN | NInf => NaN
  | PInf => PInf
  | Fin q => if Qle_bool 0 q then fin (sqrt_q q) else NaN
  end.

(** [2 * (y + y^3/3 + y^5/5 + y^7/7)] with [y = (q - 1) / (q + 1)]. *)
Definition log_q (q : Q) : Q :=
  let y := (q - 1) / (q + 1) in
  let y2 := y * y in
  2 * y * (1 + y2 * ((1 # 3) + y2 * ((1 # 5) + y2 * (1 # 7)))).

Definition log (x : num) : num :=
  match x with
  | NaN | NInf => NaN
  | PInf => PInf
  | Fin q =>
      match qsign q with
      | Lt => fin (log_q q)
      | Eq => NInf
      | Gt => NaN
      end
  end.

Definition lcg (s : Z) : Z := ((1103515245 * s + 12345) mod 2147483648)%Z.

Fixpoint draw_row (high : nat) (n : nat) (s : Z) : list nat * Z :=
  match n with
  | O => ([], s)
  | S n' =>
      let s1 := lcg s in
      let (r, s2) := draw_row high n' s1 in
      (Z.to_nat ((s1 / 65536) mod Z.of_nat high) :: r, s2)
  end.

Fixpoint draw_rows (high B n : nat) (s : Z) : list (list nat) * Z :=
  match B with
  | O => ([], s)
  | S B' =>
      let (r, s1) := draw_row high n s in
      let (rs, s2) := draw_rows high B' n s1 in
      (r :: rs, s2)
  end.

Definition col_mean (X : matrix) : vec :=
  map (fun c => div (vsum c) (of_nat (length c))) (columns (ncols X) X).

Definition shift (W A : matrix) (theta : vec) (J0 : matrix) (Vbar : num)
    (IV : option matrix) (grid0 : Z) : matrix :=
  map (map (fun a => sub a (vsum theta))) A.

Definition env : Env :=
  {| rng := Z;
     np_seed := fun z => z;
     np_randint := draw_rows;
     np_sqrt := sqrt;
     np_log := log;
     m_hat := col_mean;
     m_function := shift |}.

End Demo.

(** ** The pipelines on one index matrix

    What [cvalue_SPUR1] and one pass of the loop of [an_vec] compute when
    every component resamples with the same index matrix.  [ixf n] is the
    matrix for a data matrix of [n] rows. *)
Section OneMatrix.

Context {E : Env}.

(** The matrix that [np.random.seed(z)] followed by
    [np.random.randint(0, n, size=(B, n))] gives. *)
Definition generated (n B : nat) (z : Z) : list (list nat) :=
  (np_randint n B n (np_seed z)).1.

Definition cvalue_on (X_data : matrix) (alpha : num) (an : vec)
    (indices : list (list nat)) : result num :=
  let kappa_n := np_sqrt (np_log (of_nat (nrows X_data))) in
  rbind (std_b_of X_data indices) (fun std_b0 =>
  rbind (tn_star_of X_data (nth 0 std_b0 []) kappa_n indices)
        (cvalue_of alpha an)).

Definition an_point_on (hat_r_inf : num) (W_data A_matrix J0_vec : matrix)
    (Vbar : num) (IV_matrix : option matrix) (grid0 : Z)
    (ixf : nat -> list (list nat)) (kappa_n t : num) : result vec :=
  rbind (the_theta_of grid0 t) (fun the_theta =>
  let X_data :=
    map (map (mul minus_one))
        (m_function W_data A_matrix the_theta J0_vec Vbar IV_matrix grid0) in
  let indices := ixf (nrows X_data) in
  rbind (std_b_of X_data indices) (fun b0_vec =>
  an_star_of X_data (nth 1 b0_vec []) (nth 2 b0_vec []) kappa_n hat_r_inf
             indices)).

End OneMatrix.

(** ** Input conditions *)

Section Conditions.

Context {E : Env}.

(** A vector of [k] finite aggregates. *)
Definition aggregates_fin (k : nat) (v : vec) : bool :=
  (length v =? k)%nat && forallb is_fin v.

(** The data matrix has at least one moment, the indices address its rows,
    [np.sqrt(n)] is finite, and [m_hat] gives one finite number per moment
    on the data and on every resample of it. *)
Definition well_formed (X_data : matrix) (indices : list (list nat)) : bool :=
  let k := length (m_hat X_data) in
  (1 <=? k)%nat && forallb is_fin (m_hat X_data)
  && is_fin (np_sqrt (of_nat (nrows X_data)))
  && match resample X_data indices with
     | Ok Xs => forallb (fun X' => aggregates_fin k (m_hat X')) Xs
     | Err _ => false
     end.

(** A number or [+inf]. *)
Definition fin_or_pinf (x : num) : bool :=
  match x with Fin _ | PInf => true | _ => false end.

(** A matrix of finite numbers with [k] columns. *)
Definition fin_matrix (k : nat) (A : matrix) : Prop :=
  Forall (fun r => length r = k /\ forallb is_fin r = true) A.

(** Which levels the range test of [np.quantile] turns away: those that
    are not numbers, those below [-2^-53], and those from [1 + 2^-52] on,
    the first float above 1. *)
Definition level_refused (alpha : num) : Prop :=
  match alpha with
  | Fin a => a < - (1 # 9007199254740992) \/ 1 + (1 # 4503599627370496) <= a
  | _ => True
  end.

(** [np.sqrt] of a non-negative number is a non-negative number. *)
Definition sqrt_total : Prop :=
  forall a : Q, 0 <= a -> exists r : Q, np_sqrt (Fin a) = Fin r /\ 0 <= r.

End Conditions.

(** ** Conditions on one pass of the grid loop *)

Section PassConditions.

Context {E : Env}.

(** One pass of the loop of [an_vec] at the grid value [t] is on
    well-formed data: the direction is admissible, the moment matrix is
    well formed for the index matrix, and [np.sqrt(n)] is positive. *)
Definition pass_well_formed (W_data A_matrix J0_vec : matrix) (Vbar : num)
    (IV_matrix : option matrix) (grid0 : Z) (indices : list (list nat))
    (t : num) : bool :=
  match the_theta_of grid0 t with
  | Ok the_theta =>
      let X_data :=
        map (map (mul minus_one))
            (m_function W_data A_matrix the_theta J0_vec Vbar IV_matrix grid0) in
      let sq := np_sqrt (of_nat (nrows X_data)) in
      well_formed X_data indices && (is_fin sq && ltb zero sq)
  | Err _ => false
  end.

End PassConditions.

(** ** The specification's wording

    Definitions that follow the text of the specification, to be compared
    with the ones above. *)
Section Wording.

Context {E : Env}.

Definition nabs (x : num) : num :=
  match x with
  | NaN => NaN
  | NInf | PInf => PInf
  | Fin a => Fin (Qabs a)
  end.

(** "within [tau_n/sqrt(n)] of 0 or exactly equal to 1". *)
Definition within_of_interest (A_matrix : matrix) (aux1_var : vec) : list bool :=
  map (fun a => leb (nabs (sub a zero)) (tau_over_sqrt_n A_matrix) || eqb a one)
      aux1_var.

(** "substitute the GMS-penalized value into [hat_b] at that index only ...
    and collect one such max per near-binding index". *)
Definition alternatives_spec (hat_hi_star : matrix) (phi_n : vec)
    (hat_j_r : list nat) (hat_b : vec) : result (list vec) :=
  rmapM (fun j =>
           max_axis1 (map (fun h => zip_with add (<[j := nth j phi_n NaN]> hat_b) h)
                          hat_hi_star))
        hat_j_r.

Definition an_star_spec (X_data : matrix) (std_b2 std_b3 : vec)
    (kappa_n hat_r_inf : num) (bootstrap_indices : list (list nat))
  : result vec :=
  let n := nrows X_data in
  let sq := np_sqrt (of_nat n) in
  let m_hat0 := m_hat X_data in
  let r_hat_vec := r_hat_vec_of m_hat0 in
  rbind (np_max r_hat_vec) (fun r_hat0 =>
  let hat_j_r := hat_j_r_of sq kappa_n r_hat0 r_hat_vec std_b3 in
  let hat_b := hat_b_of sq kappa_n hat_r_inf r_hat_vec std_b3 in
  let phi_n := map gms (xi_a_of sq kappa_n hat_r_inf r_hat_vec std_b3) in
  rbind (resample X_data bootstrap_indices) (fun Xs =>
  let vstar := centred sq m_hat0 Xs in
  let hat_hi_star := hat_hi_star_of sq kappa_n m_hat0 std_b2 vstar in
  rbind (alternatives_spec hat_hi_star phi_n hat_j_r hat_b) (fun aux_vec2 =>
  min_over_columns (length vstar) aux_vec2))).

(** "the max over moments of [-(tn_star[b] + An[b])] clipped below at 0". *)
Definition sn_star_spec (tn_vec : matrix) (an : vec) : result vec :=
  max_axis1
    (zip_with (fun row a => map (fun t => clip_min zero (neg (add t a))) row)
              tn_vec an).

(** "the average of the two order statistics straddling the target rank":
    the rank is [(N - 1) * p], the order statistics are those at its floor
    and at its ceiling. *)
Definition order_statistic (a : vec) (i : Z) : num := nth (Z.to_nat i) (sort a) NaN.

Definition midpoint_quantile (a : vec) (p : Q) : num :=
  let rank := inject_Z (Z.of_nat (length a) - 1) * p in
  div (add (order_statistic a (Qfloor rank)) (order_statistic a (Qceiling rank)))
      two.

(** The same average for a rank as the code computes it, the two positions
    kept from going beyond the last. *)
Definition midpoint_at_rank (a : vec) (rank : Q) : num :=
  let last := (Z.of_nat (length a) - 1)%Z in
  div (add (order_statistic a (Z.min (Qfloor rank) last))
           (order_statistic a (Z.min (Qceiling rank) last)))
      two.

End Wording.

(** ** Example inputs *)
Module Ex.

Definition z (i : Z) : num := Fin (inject_Z i).

(** Four observations of two moments; both columns have mean [-1] and
    standard deviation [1]. *)
Definition X4 : matrix := [[z (-2); z (-2)]; [z 0; z 0]; [z (-2); z (-2)]; [z 0; z 0]].

(** The index matrix of one replication that takes every row once. *)
Definition ident4 : list (list nat) := [[0; 1; 2; 3]%nat].

(** Four observations of two moments; the first column is constant. *)
Definition Xc : matrix :=
  [[z 1; z (-1)]; [z 1; z (-2)]; [z 1; z (-3)]; [z 1; z (-4)]].

(** A revenue matrix of one row. *)
Definition A1 : matrix := [[z 0]].

End Ex.

(** ** Example inputs for [rhat] and [an_vec] *)
Module ExGrid.

(** The moment function of [Demo] at [grid0 = 'all']. *)
Definition m_function_all (W A : matrix) (theta : vec) (J0 : matrix) (Vbar : num)
    (IV : option matrix) : matrix :=
  Demo.shift W A theta J0 Vbar IV 0%Z.

(** Two replications of four draws. *)
Definition ix2 : list (list nat) := [[0; 1; 2; 3]; [0; 0; 1; 1]]%nat.

(** Three replications of four draws. *)
Definition ix3 : list (list nat) := [[0; 1; 2; 3]; [0; 0; 1; 1]; [2; 3; 3; 1]]%nat.

End ExGrid.

(** ** Example inputs for the rank of the quantile *)
Module ExRank.

(** The float nearest to 0.3. *)
Definition alpha : Q := 5404319552844595 # 18014398509481984.

(** Eleven replications that each take every row of four once. *)
Definition ix11 : list (list nat) := replicate 11 [0; 1; 2; 3]%nat.

(** The penalties [0, -1, ..., -10]. *)
Definition an11 : vec := map (fun i => Ex.z (- Z.of_nat i)) (seq 0 11).

(** The statistics [0, 1, ..., 10]. *)
Definition sn11 : vec := map (fun i => Ex.z (Z.of_nat i)) (seq 0 11).

End ExRank.

(** * Properties *)

(** ** The generator and the bootstrap configuration *)

Section Bootstrap.

Context {E : Env}.

Lemma bind_lift {A B : Type} (r : result A) (k : A -> M B) (s : rng) :
  (x <- lift r ;; k x) s =
  match r with Ok a => k a s | Err e => (Err e, s) end.
Proof. unfold bind, lift. destruct r; reflexivity. Qed.

Lemma draw_explicit n r sd ix s :
  bootstrap_draw n r sd (Some ix) s = (Ok ix, s).
Proof. reflexivity. Qed.

Lemma draw_seeded n B z s :
  bootstrap_draw n (Some B) (Some z) None s =
  (Ok (generated n B z), (np_randint n B n (np_seed z)).2).
Proof.
  unfold bootstrap_draw, bind, seed, randint, generated.
  destruct (np_randint n B n (np_seed z)); reflexivity.
Qed.

Lemma draw_unseeded n B s :
  bootstrap_draw n (Some B) None None s =
  (Ok (np_randint n B n s).1, (np_randint n B n s).2).
Proof.
  unfold bootstrap_draw, bind, ret, randint.
  destruct (np_randint n B n s); reflexivity.
Qed.

(** A function that draws its indices and then computes without the
    generator is determined by the drawn matrix. *)
Lemma drawn_then_pure {A : Type} (f : list (list nat) -> result A) n r sd bi s :
  (indices <- bootstrap_draw n r sd bi ;; lift (f indices)) s =
  match bootstrap_draw n r sd bi s with
  | (Ok ix, s') => (f ix, s')
  | (Err e, s') => (Err e, s')
  end.
Proof. unfold bind, lift. destruct (bootstrap_draw n r sd bi s) as [[ix|e] s']; reflexivity. Qed.

Lemma std_b_vec_explicit X r sd ix s :
  std_b_vec X r sd (Some ix) s = (std_b_of X ix, s).
Proof. reflexivity. Qed.

Lemma tn_star_explicit X b k r sd ix s :
  tn_star X b k r sd (Some ix) s = (tn_star_of X b k ix, s).
Proof. reflexivity. Qed.

Lemma an_star_explicit X b2 b3 k h r sd ix s :
  an_star X b2 b3 k h r sd (Some ix) s = (an_star_of X b2 b3 k h ix, s).
Proof. reflexivity. Qed.

Lemma std_b_vec_seeded X B z s :
  std_b_vec X (Some B) (Some z) None s =
  (std_b_of X (generated (nrows X) B z),
   (np_randint (nrows X) B (nrows X) (np_seed z)).2).
Proof. unfold std_b_vec. rewrite drawn_then_pure, draw_seeded. reflexivity. Qed.

Lemma tn_star_seeded X b k B z s :
  tn_star X b k (Some B) (Some z) None s =
  (tn_star_of X b k (generated (nrows X) B z),
   (np_randint (nrows X) B (nrows X) (np_seed z)).2).
Proof. unfold tn_star. rewrite drawn_then_pure, draw_seeded. reflexivity. Qed.

Lemma an_star_seeded X b2 b3 k h B z s :
  an_star X b2 b3 k h (Some B) (Some z) None s =
  (an_star_of X b2 b3 k h (generated (nrows X) B z),
   (np_randint (nrows X) B (nrows X) (np_seed z)).2).
Proof. unfold an_star. rewrite drawn_then_pure, draw_seeded. reflexivity. Qed.

Lemma cvalue_explicit X alpha an r sd ix s :
  cvalue_SPUR1 X alpha an r sd (Some ix) s = (cvalue_on X alpha an ix, s).
Proof.
  unfold cvalue_SPUR1, cvalue_on, bind.
  rewrite std_b_vec_explicit.
  destruct (std_b_of X ix) as [b|e]; [|reflexivity].
  rewrite tn_star_explicit. cbn [rbind].
  destruct (tn_star_of X _ _ ix); reflexivity.
Qed.

Lemma cvalue_seeded X alpha an B z s :
  (cvalue_SPUR1 X alpha an (Some B) (Some z) None s).1 =
  cvalue_on X alpha an (generated (nrows X) B z).
Proof.
  unfold cvalue_SPUR1, cvalue_on, bind.
  rewrite std_b_vec_seeded.
  destruct (std_b_of X _) as [b|e]; [|reflexivity].
  rewrite tn_star_seeded. cbn [rbind].
  destruct (tn_star_of X _ _ _); reflexivity.
Qed.

Lemma an_point_explicit h W A J0 V IV g r sd ix k t s :
  an_point h W A J0 V IV g r sd (Some ix) k t s =
  (an_point_on h W A J0 V IV g (fun _ => ix) k t, s).
Proof.
  unfold an_point, an_point_on. rewrite bind_lift.
  destruct (the_theta_of g t) as [th|e]; [|reflexivity].
  unfold bind. rewrite std_b_vec_explicit. cbn [rbind].
  destruct (std_b_of _ ix) as [b|e]; reflexivity.
Qed.

Lemma an_point_seeded h W A J0 V IV g B z k t s :
  (an_point h W A J0 V IV g (Some B) (Some z) None k t s).1 =
  an_point_on h W A J0 V IV g (fun n => generated n B z) k t.
Proof.
  unfold an_point, an_point_on. rewrite bind_lift.
  destruct (the_theta_of g t) as [th|e]; [|reflexivity].
  unfold bind. rewrite std_b_vec_seeded. cbn [rbind].
  destruct (std_b_of _ _) as [b|e]; [|reflexivity].
  rewrite an_star_seeded. reflexivity.
Qed.

End Bootstrap.

Section Configuration.

Context {E : Env}.

(** C6.  Each bootstrap-based function ([std_b_vec], [tn_star], [an_star],
    [cvalue_SPUR1]) called with an explicit index matrix returns the same
    output whatever the state of the generator, so two calls with the same
    inputs agree; and called with a replication count [B] and a seed [z] it
    returns what it returns on the matrix that seeding with [z] and drawing
    [B x n] indices below [n] gives, passed explicitly. *)
Theorem bootstrap_reproducible :
  (forall X r sd ix s s',
      (std_b_vec X r sd (Some ix) s).1 = (std_b_vec X r sd (Some ix) s').1)
  /\ (forall X b k r sd ix s s',
      (tn_star X b k r sd (Some ix) s).1 = (tn_star X b k r sd (Some ix) s').1)
  /\ (forall X b2 b3 k h r sd ix s s',
      (an_star X b2 b3 k h r sd (Some ix) s).1
      = (an_star X b2 b3 k h r sd (Some ix) s').1)
  /\ (forall X alpha an r sd ix s s',
      (cvalue_SPUR1 X alpha an r sd (Some ix) s).1
      = (cvalue_SPUR1 X alpha an r sd (Some ix) s').1)
  /\ (forall X B z r sd s s',
      (std_b_vec X (Some B) (Some z) None s).1
      = (std_b_vec X r sd (Some (generated (nrows X) B z)) s').1)
  /\ (forall X b k B z r sd s s',
      (tn_star X b k (Some B) (Some z) None s).1
      = (tn_star X b k r sd (Some (generated (nrows X) B z)) s').1)
  /\ (forall X b2 b3 k h B z r sd s s',
      (an_star X b2 b3 k h (Some B) (Some z) None s).1
      = (an_star X b2 b3 k h r sd (Some (generated (nrows X) B z)) s').1)
  /\ (forall X alpha an B z r sd s s',
      (cvalue_SPUR1 X alpha an (Some B) (Some z) None s).1
      = (cvalue_SPUR1 X alpha an r sd (Some (generated (nrows X) B z)) s').1).
Proof.
  repeat apply conj; intros.
  - now rewrite !std_b_vec_explicit.
  - now rewrite !tn_star_explicit.
  - now rewrite !an_star_explicit.
  - now rewrite !cvalue_explicit.
  - now rewrite std_b_vec_seeded, std_b_vec_explicit.
  - now rewrite tn_star_seeded, tn_star_explicit.
  - now rewrite an_star_seeded, an_star_explicit.
  - now rewrite cvalue_seeded, cvalue_explicit.
Qed.

(** C2, as amended.  With an explicit index matrix, and with a replication
    count and a seed, one invocation of [cvalue_SPUR1] returns what the
    scaling step and the statistic bootstrap return on one and the same
    index matrix, and one pass of the loop of [an_vec] returns what the
    scaling step and the selection bootstrap return on one and the same
    index matrix. *)
Theorem fixed_configuration_one_matrix :
  (forall X alpha an r sd ix s,
      (cvalue_SPUR1 X alpha an r sd (Some ix) s).1 = cvalue_on X alpha an ix)
  /\ (forall X alpha an B z s,
      (cvalue_SPUR1 X alpha an (Some B) (Some z) None s).1
      = cvalue_on X alpha an (generated (nrows X) B z))
  /\ (forall h W A J0 V IV g r sd ix k t s,
      (an_point h W A J0 V IV g r sd (Some ix) k t s).1
      = an_point_on h W A J0 V IV g (fun _ => ix) k t)
  /\ (forall h W A J0 V IV g B z k t s,
      (an_point h W A J0 V IV g (Some B) (Some z) None k t s).1
      = an_point_on h W A J0 V IV g (fun n => generated n B z) k t).
Proof.
  repeat apply conj; intros.
  - now rewrite cvalue_explicit.
  - apply cvalue_seeded.
  - now rewrite an_point_explicit.
  - apply an_point_seeded.
Qed.

Lemma mask_select_none {A : Type} (a : list A) (mask : list bool) :
  length a = length mask -> forallb negb mask = true -> mask_select a mask = Ok [].
Proof.
  revert mask. induction a as [|x a IH]; intros [|b mask] Hl Hm; simpl in *;
    try discriminate; auto.
  apply andb_prop in Hm as [Hb Hm]. destruct b; [discriminate|].
  rewrite IH by (auto; lia). reflexivity.
Qed.

(** [a[mask]] keeps the entries at the true positions, in order. *)
Lemma mask_select_filter {A : Type} (a : list A) (mask : list bool) :
  length a = length mask ->
  mask_select a mask = Ok (map fst (List.filter snd (combine a mask))).
Proof.
  revert mask. induction a as [|x a IH]; intros [|b mask] Hl; simpl in *;
    try discriminate; auto.
  rewrite IH by lia. simpl. destruct b; reflexivity.
Qed.

Lemma an_vec_missing h W A J0 V IV g sd aux grid s :
  an_vec h W A J0 V IV g None sd None aux grid s =
  (match mask_select grid (boole_of_interest A aux) with
   | Ok _ => Err TypeError
   | Err e => Err e
   end, s).
Proof.
  unfold an_vec. rewrite bind_lift.
  destruct (mask_select grid _); reflexivity.
Qed.

(** C5.  Without a replication count and without an index matrix
    [std_b_vec], [tn_star] and [an_star] raise the configuration error at
    once and leave the generator as it was.  [an_vec] does not: it has no
    such check, and after the grid has been restricted the allocation of
    [an_mat] fails on the missing count, with a type error. *)
Theorem missing_count_errors :
  (forall X sd s, std_b_vec X None sd None s = (Err ConfigError, s))
  /\ (forall X b k sd s, tn_star X b k None sd None s = (Err ConfigError, s))
  /\ (forall X b2 b3 k h sd s,
      an_star X b2 b3 k h None sd None s = (Err ConfigError, s))
  /\ (forall h W A J0 V IV g sd aux grid s,
      an_vec h W A J0 V IV g None sd None aux grid s
      = (match mask_select grid (boole_of_interest A aux) with
         | Ok _ => Err TypeError
         | Err e => Err e
         end, s)).
Proof.
  repeat apply conj; intros; try reflexivity.
  apply an_vec_missing.
Qed.

(** C9, as amended.  When the restriction retains no grid point and a
    replication count or an index matrix is supplied, [an_vec] returns no
    vector and does not raise the configuration error: it fails in the
    minimum over the candidate axis, which is empty, and the generator is
    left as it was. *)
Theorem nothing_retained_reduction_error
    h W A J0 V IV g r sd bi (aux grid : vec) (B : nat) s :
  length grid = length aux ->
  forallb negb (boole_of_interest A aux) = true ->
  match bi with None => r | Some ix => Some (length ix) end = Some B ->
  an_vec h W A J0 V IV g r sd bi aux grid s = (Err ReductionError, s).
Proof.
  intros Hl Hn HB. unfold an_vec. rewrite bind_lift.
  rewrite mask_select_none; auto.
  - unfold an_search. rewrite HB. reflexivity.
  - unfold boole_of_interest. rewrite length_map. exact Hl.
Qed.

(** C3, as amended.  [an_vec] retains the grid points whose auxiliary
    statistic is at most [tau_n / sqrt(n)] or equal to 1, in the order of
    the grid, and searches over these alone; [n] is the number of rows of
    [A_matrix] and [tau_n = sqrt(log n)]. *)
Theorem retained_grid_points
    h W A J0 V IV g r sd bi (aux grid : vec) s :
  length grid = length aux ->
  let retained :=
    map fst (List.filter
               (fun p : num * num =>
                  leb p.2 (div (np_sqrt (np_log (of_nat (nrows A))))
                               (np_sqrt (of_nat (nrows A))))
                  || eqb p.2 one)
               (combine grid aux)) in
  mask_select grid (boole_of_interest A aux) = Ok retained
  /\ an_vec h W A J0 V IV g r sd bi aux grid s
     = an_search h W A J0 V IV g r sd bi retained s.
Proof.
  intros Hl retained.
  assert (Hm : mask_select grid (boole_of_interest A aux) = Ok retained).
  { rewrite mask_select_filter
      by (unfold boole_of_interest; rewrite length_map; exact Hl).
    f_equal. subst retained. unfold boole_of_interest, tau_over_sqrt_n.
    clear. revert aux. induction grid as [|t grid IH]; intros [|a aux];
      simpl; auto.
    destruct (leb a _ || eqb a one); simpl; rewrite IH; reflexivity. }
  split; [exact Hm|].
  unfold an_vec. rewrite bind_lift, Hm. reflexivity.
Qed.

End Configuration.

(** ** Arithmetic on finite numbers *)

Lemma fin_eq (a b : Q) : a == b -> fin a = fin b.
Proof. intros H. unfold fin. f_equal. apply Qred_complete, H. Qed.

Lemma leb_fin (a b : Q) : leb (Fin a) (Fin b) = true <-> a <= b.
Proof. simpl. apply Qle_bool_iff. Qed.

Lemma leb_fin_false (a b : Q) : leb (Fin a) (Fin b) = false <-> b < a.
Proof.
  simpl. split; intros H.
  - apply Qnot_le_lt. intros Hle. apply Qle_bool_iff in Hle. congruence.
  - destruct (Qle_bool a b) eqn:Hb; [|reflexivity].
    apply Qle_bool_iff in Hb. exfalso. apply (Qlt_not_le _ _ H Hb).
Qed.

Lemma qsign_pos (a : Q) : 0 < a -> qsign a = Lt.
Proof. intros H. unfold qsign. apply Qlt_alt in H. exact H. Qed.

Lemma is_fin_inv (x : num) : is_fin x = true -> exists a, x = Fin a.
Proof. destruct x; try discriminate. eauto. Qed.

Lemma add_fin (a b : Q) : add (Fin a) (Fin b) = fin (a + b).
Proof. reflexivity. Qed.

Lemma sub_fin (a b : Q) : sub (Fin a) (Fin b) = fin (a - b).
Proof.
  unfold sub, neg, fin. simpl. apply fin_eq. rewrite Qred_correct. reflexivity.
Qed.

Lemma mul_fin (a b : Q) : mul (Fin a) (Fin b) = fin (a * b).
Proof. reflexivity. Qed.

Lemma div_fin (a b : Q) : 0 < b -> div (Fin a) (Fin b) = fin (a / b).
Proof. intros H. simpl. rewrite (qsign_pos _ H). reflexivity. Qed.

Lemma fin_red (a : Q) : exists b, fin a = Fin b /\ b == a.
Proof. exists (Qred a). split; [reflexivity|apply Qred_correct]. Qed.

(** The order on numbers that are not NaN. *)

Lemma minimum_fin (a b : Q) : exists c, minimum (Fin a) (Fin b) = Fin c /\ (c = a \/ c = b) /\ c <= a /\ c <= b.
Proof.
  simpl. destruct (Qle_bool a b) eqn:H.
  - apply Qle_bool_iff in H. exists a. repeat split; auto. apply Qle_refl.
  - exists b. assert (b < a) by (apply (proj1 (leb_fin_false a b)); exact H).
    repeat split; auto. apply Qlt_le_weak; auto. apply Qle_refl.
Qed.

Lemma maximum_fin (a b : Q) : exists c, maximum (Fin a) (Fin b) = Fin c /\ (c = a \/ c = b) /\ a <= c /\ b <= c.
Proof.
  simpl. destruct (Qle_bool a b) eqn:H.
  - apply Qle_bool_iff in H. exists b. repeat split; auto. apply Qle_refl.
  - exists a. assert (b < a) by (apply (proj1 (leb_fin_false a b)); exact H).
    repeat split; auto. apply Qle_refl. apply Qlt_le_weak; auto.
Qed.

(** The floor at [iota]: what is not NaN is at least [iota] afterwards. *)
Lemma clip_min_iota (x : num) :
  is_nan x = false -> leb iota (clip_min iota x) = true.
Proof.
  destruct x; try discriminate; intros _; try reflexivity.
  unfold clip_min, iota. simpl. destruct (Qle_bool q (1 # 1000000)) eqn:H.
  - reflexivity.
  - apply Qle_bool_iff, Qlt_le_weak. apply (proj1 (leb_fin_false q _)). exact H.
Qed.

Lemma clip_min_iota_nan (x : num) :
  clip_min iota x = NaN <-> x = NaN.
Proof.
  destruct x; simpl; split; try discriminate; auto.
  unfold clip_min, iota. simpl. destruct (Qle_bool q _); discriminate.
Qed.

Lemma clip_min_iota_small (x : num) :
  leb x iota = true -> clip_min iota x = iota.
Proof.
  destruct x; simpl; try discriminate; try reflexivity.
  unfold clip_min, iota. simpl. intros ->. reflexivity.
Qed.

(** ** Lists of results *)

Lemma rmapM_Forall2 {A B : Type} (f : A -> result B) (l : list A) (ys : list B) :
  rmapM f l = Ok ys <-> Forall2 (fun x y => f x = Ok y) l ys.
Proof.
  revert ys. induction l as [|x l IH]; intros ys; simpl.
  - split; intros H; [injection H as <-; constructor|inversion H; reflexivity].
  - destruct (f x) as [y|e] eqn:Hx; simpl.
    + destruct (rmapM f l) as [ys'|e] eqn:Hl; simpl.
      * split; intros H.
        -- injection H as <-. constructor; [exact Hx|]. apply IH. reflexivity.
        -- inversion H as [|? y' ? ys'' Hy Hys]; subst.
           rewrite Hx in Hy. injection Hy as <-.
           apply IH in Hys. injection Hys as <-. reflexivity.
      * split; intros H; [discriminate|].
        inversion H as [|? y' ? ys'' Hy Hys]; subst.
        apply IH in Hys. discriminate.
    + split; intros H; [discriminate|].
      inversion H as [|? y' ? ys'' Hy Hys]; subst. rewrite Hx in Hy. discriminate.
Qed.

Lemma rmapM_total {A B : Type} (f : A -> result B) (l : list A) :
  Forall (fun x => exists y, f x = Ok y) l ->
  exists ys, rmapM f l = Ok ys /\ length ys = length l.
Proof.
  induction 1 as [|x l [y Hy] _ [ys [Hys Hlen]]]; simpl.
  - exists []. auto.
  - rewrite Hy, Hys. simpl. exists (y :: ys). simpl. auto.
Qed.

Lemma rmapM_length {A B : Type} (f : A -> result B) (l : list A) (ys : list B) :
  rmapM f l = Ok ys -> length ys = length l.
Proof.
  intros H. apply rmapM_Forall2 in H. symmetry. eapply Forall2_length, H.
Qed.

(** ** Finite vectors *)

Lemma forallb_is_fin (v : vec) :
  forallb is_fin v = true <-> exists qs, v = map Fin qs.
Proof.
  induction v as [|x v IH]; simpl.
  - split; [exists []; reflexivity|reflexivity].
  - rewrite andb_true_iff, IH. split.
    + intros [Hx [qs ->]]. apply is_fin_inv in Hx as [a ->].
      exists (a :: qs). reflexivity.
    + intros [[|a qs] H]; [discriminate|]. injection H as -> ->.
      split; [reflexivity|eauto].
Qed.

Lemma fold_maximum_fin (l : list Q) (a : Q) :
  exists c, fold_left maximum (map Fin l) (Fin a) = Fin c
            /\ c ∈ a :: l /\ Forall (fun x => x <= c) (a :: l).
Proof.
  revert a. induction l as [|b l IH]; intros a; simpl.
  - exists a. repeat split; [constructor|]. repeat constructor. apply Qle_refl.
  - destruct (maximum_fin a b) as [m [Hm [Hor [Ha Hb]]]].
    simpl in Hm. rewrite Hm.
    destruct (IH m) as [c [Hc [Hin Hall]]]. exists c. split; [exact Hc|].
    apply Forall_cons in Hall as [Hmc Hall]. split.
    + apply elem_of_cons in Hin as [->|Hin].
      * destruct Hor as [->| ->]; [left|right; left].
      * right; right; exact Hin.
    + repeat constructor; try exact Hall; eapply Qle_trans; eauto.
Qed.

Lemma fold_minimum_fin (l : list Q) (a : Q) :
  exists c, fold_left minimum (map Fin l) (Fin a) = Fin c
            /\ c ∈ a :: l /\ Forall (fun x => c <= x) (a :: l).
Proof.
  revert a. induction l as [|b l IH]; intros a; simpl.
  - exists a. repeat split; [constructor|]. repeat constructor. apply Qle_refl.
  - destruct (minimum_fin a b) as [m [Hm [Hor [Ha Hb]]]].
    simpl in Hm. rewrite Hm.
    destruct (IH m) as [c [Hc [Hin Hall]]]. exists c. split; [exact Hc|].
    apply Forall_cons in Hall as [Hmc Hall]. split.
    + apply elem_of_cons in Hin as [->|Hin].
      * destruct Hor as [->| ->]; [left|right; left].
      * right; right; exact Hin.
    + repeat constructor; try exact Hall; eapply Qle_trans; eauto.
Qed.

Lemma np_max_fin (l : list Q) :
  l <> [] ->
  exists c, np_max (map Fin l) = Ok (Fin c) /\ c ∈ l /\ Forall (fun x => x <= c) l.
Proof.
  destruct l as [|a l]; [congruence|]. intros _. simpl.
  destruct (fold_maximum_fin l a) as [c [Hc H]]. rewrite Hc. eauto.
Qed.

Lemma np_min_fin (l : list Q) :
  l <> [] ->
  exists c, np_min (map Fin l) = Ok (Fin c) /\ c ∈ l /\ Forall (fun x => c <= x) l.
Proof.
  destruct l as [|a l]; [congruence|]. intros _. simpl.
  destruct (fold_minimum_fin l a) as [c [Hc H]]. rewrite Hc. eauto.
Qed.

Lemma np_max_total (v : vec) : v <> [] -> exists m, np_max v = Ok m.
Proof. destruct v; [congruence|]. simpl. eauto. Qed.

Lemma np_min_total (v : vec) : v <> [] -> exists m, np_min v = Ok m.
Proof. destruct v; [congruence|]. simpl. eauto. Qed.

(** ** Positions of a mask *)

Lemma elem_of_nonzero_from (i : nat) (mask : list bool) (j : nat) :
  j ∈ nonzero_from i mask <-> exists d, j = (i + d)%nat /\ mask !! d = Some true.
Proof.
  revert i. induction mask as [|b mask IH]; intros i; simpl.
  - split; [intros H; inversion H|intros [d [_ H]]; discriminate].
  - assert (Hrest : j ∈ nonzero_from (S i) mask <->
                    exists d, j = (i + S d)%nat /\ mask !! d = Some true).
    { rewrite IH. split; intros [d [-> H]]; exists d; split; auto; lia. }
    destruct b.
    + rewrite elem_of_cons, Hrest. split.
      * intros [->|[d [-> H]]]; [exists O|exists (S d)]; split; auto; lia.
      * intros [[|d] [-> H]]; [left; lia|right; exists d; auto].
    + rewrite Hrest. split.
      * intros [d [-> H]]. exists (S d). auto.
      * intros [[|d] [-> H]]; [discriminate|exists d; auto].
Qed.

Lemma elem_of_nonzero (mask : list bool) (j : nat) :
  j ∈ nonzero mask <-> mask !! j = Some true.
Proof.
  unfold nonzero. rewrite elem_of_nonzero_from. split.
  - intros [d [-> H]]. exact H.
  - intros H. exists j. auto.
Qed.

(** ** The near-binding set of [an_star] *)

Lemma r_hat_entry_fin (a : Q) :
  exists c, mul minus_one (clip_max zero (Fin a)) = Fin c /\ 0 <= c.
Proof.
  unfold clip_max, zero. destruct (minimum_fin a 0) as [m [Hm [_ [_ Hm0]]]].
  rewrite Hm. unfold minus_one. rewrite mul_fin.
  destruct (fin_red (-1 * m)) as [c [Hc Hcm]]. exists c. split; [exact Hc|].
  rewrite Hcm. lra.
Qed.

Lemma r_hat_vec_fin (ms : list Q) :
  exists rs, r_hat_vec_of (map Fin ms) = map Fin rs
             /\ length rs = length ms /\ Forall (fun c => 0 <= c) rs.
Proof.
  induction ms as [|a ms [rs [Hrs [Hlen Hpos]]]].
  - exists []. repeat split. constructor.
  - destruct (r_hat_entry_fin a) as [c [Hc Hc0]].
    exists (c :: rs). unfold r_hat_vec_of in *. cbn [map]. rewrite Hc, Hrs.
    repeat split; [simpl; lia|constructor; auto].
Qed.

Lemma near_binding_flag (rho s kappa sigma : Q) :
  0 <= s -> 0 <= kappa -> 0 < sigma ->
  geb (Fin rho) (sub (Fin rho) (div (mul (Fin s) (Fin kappa)) (Fin sigma))) = true.
Proof.
  intros Hs Hk Hsig. rewrite mul_fin.
  destruct (fin_red (s * kappa)) as [p [-> Hp]].
  rewrite div_fin by exact Hsig.
  destruct (fin_red (p / sigma)) as [d [-> Hd]].
  rewrite sub_fin. destruct (fin_red (rho - d)) as [e [-> He]].
  unfold geb. apply leb_fin. rewrite He.
  assert (0 <= d).
  { rewrite Hd, Hp. apply Qle_shift_div_l; [exact Hsig|].
    rewrite Qmult_0_l. apply Qmult_le_0_compat; assumption. }
  lra.
Qed.

Lemma fin_nonneg_inv (x : num) :
  is_fin x && leb zero x = true -> exists a, x = Fin a /\ 0 <= a.
Proof.
  intros H. apply andb_prop in H as [Hf Hle].
  apply is_fin_inv in Hf as [a ->]. exists a. split; [reflexivity|].
  apply leb_fin. exact Hle.
Qed.

Lemma fin_pos_inv (x : num) :
  is_fin x && ltb zero x = true -> exists a, x = Fin a /\ 0 < a.
Proof.
  intros H. apply andb_prop in H as [Hf Hlt].
  apply is_fin_inv in Hf as [a ->]. exists a. split; [reflexivity|].
  unfold ltb in Hlt. apply andb_prop in Hlt as [Hle Hne].
  apply leb_fin in Hle. simpl in Hne. apply negb_true_iff in Hne.
  apply Qle_lteq in Hle as [Hlt|Heq]; [exact Hlt|].
  apply Qeq_bool_iff in Heq. congruence.
Qed.

Section NearBinding.

Context {E : Env}.

Lemma near_binding_contains_max (m_hat0 std_b3 : vec) (kappa_n sq : num) :
  m_hat0 <> [] ->
  forallb is_fin m_hat0 = true ->
  length std_b3 = length m_hat0 ->
  forallb (fun s => is_fin s && leb zero s) std_b3 = true ->
  is_fin kappa_n && leb zero kappa_n = true ->
  is_fin sq && ltb zero sq = true ->
  exists (r_hat0 : num) (j : nat),
    np_max (r_hat_vec_of m_hat0) = Ok r_hat0
    /\ r_hat_vec_of m_hat0 !! j = Some r_hat0
    /\ j ∈ hat_j_r_of sq kappa_n r_hat0 (r_hat_vec_of m_hat0) std_b3.
Proof.
  intros Hne Hfin Hlen Hs3 Hk Hsq.
  apply forallb_is_fin in Hfin as [ms ->].
  destruct (r_hat_vec_fin ms) as [rs [Hrs [Hlrs Hpos]]].
  rewrite Hrs.
  assert (Hrne : rs <> []).
  { destruct rs; [|congruence].
    destruct ms; [exfalso; apply Hne; reflexivity|discriminate]. }
  destruct (np_max_fin rs Hrne) as [rho [Hmax [Hin _]]].
  apply list_elem_of_lookup in Hin as [j Hj].
  exists (Fin rho), j. split; [exact Hmax|].
  assert (Hjr : map Fin rs !! j = Some (Fin rho)).
  { change (map Fin rs) with (Fin <$> rs). rewrite list_lookup_fmap, Hj. reflexivity. }
  split; [exact Hjr|].
  unfold hat_j_r_of. apply elem_of_nonzero.
  assert (Hjlt : (j < length std_b3)%nat).
  { rewrite Hlen, length_map, <- Hlrs. eapply lookup_lt_Some, Hj. }
  apply lookup_lt_is_Some in Hjlt as [s Hs].
  rewrite lookup_zip_with, Hjr. simpl. rewrite Hs. simpl. f_equal.
  assert (Hsn : is_fin s && leb zero s = true).
  { rewrite forallb_forall in Hs3. apply Hs3.
    apply list_elem_of_In. eapply list_elem_of_lookup_2, Hs. }
  apply fin_nonneg_inv in Hsn as [s' [-> Hs']].
  apply fin_nonneg_inv in Hk as [k' [-> Hk']].
  apply fin_pos_inv in Hsq as [sg [-> Hsg]].
  apply near_binding_flag; assumption.
Qed.

End NearBinding.

Section Totality.

Context {E : Env}.

Lemma well_formed_inv (X : matrix) (ix : list (list nat)) :
  well_formed X ix = true ->
  (1 <= length (m_hat X))%nat
  /\ forallb is_fin (m_hat X) = true
  /\ is_fin (np_sqrt (of_nat (nrows X))) = true
  /\ exists Xs, resample X ix = Ok Xs /\ length Xs = length ix
                /\ Forall (fun X' => length (m_hat X') = length (m_hat X)
                                     /\ forallb is_fin (m_hat X') = true) Xs.
Proof.
  unfold well_formed. intros H.
  apply andb_prop in H as [H HXs]. apply andb_prop in H as [H Hsq].
  apply andb_prop in H as [Hk Hfin].
  split; [apply Nat.leb_le, Hk|]. split; [exact Hfin|]. split; [exact Hsq|].
  destruct (resample X ix) as [Xs|] eqn:Hr; [|discriminate].
  exists Xs. split; [reflexivity|]. split; [eapply rmapM_length, Hr|].
  apply Forall_forall. intros X' HX'.
  rewrite forallb_forall in HXs. specialize (HXs X' (proj1 (list_elem_of_In _ _) HX')).
  unfold aggregates_fin in HXs. apply andb_prop in HXs as [Hl Hf].
  split; [apply Nat.eqb_eq, Hl|exact Hf].
Qed.

Lemma max_axis1_total (A : matrix) :
  Forall (fun r => r <> []) A ->
  exists v, max_axis1 A = Ok v /\ length v = length A.
Proof.
  intros H. apply rmapM_total. eapply Forall_impl; [exact H|].
  intros r Hr. apply np_max_total, Hr.
Qed.

Lemma min_axis1_total (A : matrix) :
  Forall (fun r => r <> []) A ->
  exists v, min_axis1 A = Ok v /\ length v = length A.
Proof.
  intros H. apply rmapM_total. eapply Forall_impl; [exact H|].
  intros r Hr. apply np_min_total, Hr.
Qed.

Lemma zip_with_nonempty {A B C : Type} (f : A -> B -> C) (a : list A) (b : list B) :
  a <> [] -> b <> [] -> zip_with f a b <> [].
Proof. destruct a, b; simpl; congruence. Qed.

Lemma map_nonempty {A B : Type} (f : A -> B) (a : list A) :
  a <> [] -> map f a <> [].
Proof. destruct a; simpl; congruence. Qed.

Lemma insert_nonempty {A : Type} (j : nat) (x : A) (a : list A) :
  a <> [] -> <[j := x]> a <> [].
Proof.
  intros H Hn. apply H. apply (f_equal length) in Hn.
  rewrite length_insert in Hn. destruct a; [reflexivity|discriminate].
Qed.

Lemma an_loop_total (hat_hi_star : matrix) (phi_n : vec) (hat_j_r : list nat)
    (hat_b : vec) :
  hat_b <> [] -> Forall (fun h => h <> []) hat_hi_star ->
  exists cols, an_loop hat_hi_star phi_n hat_j_r hat_b = Ok cols
               /\ length cols = length hat_j_r.
Proof.
  intros Hb Hh. revert hat_b Hb.
  induction hat_j_r as [|j js IH]; intros hat_b Hb; cbn [an_loop].
  - exists []. auto.
  - set (hb := <[j := nth j phi_n NaN]> hat_b).
    assert (Hhb : hb <> []) by (apply insert_nonempty, Hb).
    destruct (max_axis1_total (map (fun h => zip_with add hb h) hat_hi_star))
      as [col [Hcol _]].
    { apply Forall_forall. intros r Hr.
      apply list_elem_of_In, in_map_iff in Hr as [h [<- Hin]].
      apply zip_with_nonempty; [exact Hhb|].
      rewrite Forall_forall in Hh. apply Hh, list_elem_of_In, Hin. }
    rewrite Hcol. cbn [rbind].
    destruct (IH hb Hhb) as [cols [Hcols Hlen]]. rewrite Hcols. cbn [rbind].
    exists (col :: cols). simpl. auto.
Qed.

Lemma min_over_columns_total (B : nat) (cols : list vec) :
  cols <> [] -> exists v, min_over_columns B cols = Ok v /\ length v = B.
Proof.
  intros Hc. unfold min_over_columns.
  destruct cols as [|c cols]; [congruence|].
  destruct (min_axis1_total
              (map (fun b => map (fun c0 => nth b c0 NaN) (c :: cols)) (seq 0 B)))
    as [v [Hv Hlen]].
  { apply Forall_forall. intros r Hr.
    apply list_elem_of_In, in_map_iff in Hr as [b [<- _]]. discriminate. }
  exists v. split; [exact Hv|]. rewrite Hlen, length_map, length_seq. reflexivity.
Qed.

Lemma an_star_of_total (X : matrix) (std_b2 std_b3 : vec) (kappa_n h : num)
    (ix : list (list nat)) (r_hat0 : num) (j : nat) :
  well_formed X ix = true ->
  std_b2 <> [] -> std_b3 <> [] ->
  np_max (r_hat_vec_of (m_hat X)) = Ok r_hat0 ->
  j ∈ hat_j_r_of (np_sqrt (of_nat (nrows X))) kappa_n r_hat0
        (r_hat_vec_of (m_hat X)) std_b3 ->
  exists v, an_star_of X std_b2 std_b3 kappa_n h ix = Ok v
            /\ length v = length ix.
Proof.
  intros Hwf H2 H3 Hmax Hj.
  apply well_formed_inv in Hwf as [Hk [_ [_ [Xs [HXs [HlenXs Hagg]]]]]].
  assert (Hm0 : m_hat X <> []) by (destruct (m_hat X); simpl in *; [lia|congruence]).
  unfold an_star_of. rewrite Hmax. cbn [rbind]. rewrite HXs. cbn [rbind].
  set (sq := np_sqrt (of_nat (nrows X))) in *.
  set (hb := hat_b_of sq kappa_n h (r_hat_vec_of (m_hat X)) std_b3).
  set (hhs := hat_hi_star_of sq kappa_n (m_hat X) std_b2 (centred sq (m_hat X) Xs)).
  destruct (an_loop_total hhs
              (map gms (xi_a_of sq kappa_n h (r_hat_vec_of (m_hat X)) std_b3))
              (hat_j_r_of sq kappa_n r_hat0 (r_hat_vec_of (m_hat X)) std_b3) hb)
    as [cols [Hcols Hlen]].
  - apply zip_with_nonempty; [|exact H3]. apply map_nonempty, Hm0.
  - apply Forall_forall. intros r Hr.
    apply list_elem_of_In, in_map_iff in Hr as [vrow [<- Hin]].
    apply zip_with_nonempty.
    + destruct (m_hat X), std_b2; simpl; congruence.
    + unfold centred, m_hat_axis1 in Hin. rewrite map_map in Hin.
      apply in_map_iff in Hin as [X' [<- HX']].
      apply zip_with_nonempty; [|exact Hm0].
      rewrite Forall_forall in Hagg.
      destruct (Hagg X' (proj2 (list_elem_of_In _ _) HX')) as [Hl _].
      destruct (m_hat X'); [simpl in Hl; lia|congruence].
  - rewrite Hcols. cbn [rbind].
    destruct (min_over_columns_total (length (centred sq (m_hat X) Xs)) cols)
      as [v [Hv Hlv]].
    { destruct cols; [|congruence]. simpl in Hlen.
      destruct (hat_j_r_of _ _ _ _ _); [inversion Hj|discriminate]. }
    exists v. split; [exact Hv|].
    rewrite Hlv. unfold centred, m_hat_axis1. rewrite !length_map. exact HlenXs.
Qed.

(** C10, as amended.  When the aggregates of [X_data] are finite and at
    least one in number, [std_b3] has one finite non-negative entry per
    moment, [kappa_n] is a number that is not negative and [sqrt(n) > 0],
    the index of the largest violation [r_hat0] is in the near-binding set
    [hat_j_r], which is therefore not empty; and with indices into the data
    and a [std_b2] of one entry per moment, [an_star] returns one value per
    replication: its final minimum is over at least one alternative. *)
Theorem near_binding_set_inhabited (X : matrix) (std_b3 : vec) (kappa_n : num) :
  m_hat X <> [] ->
  forallb is_fin (m_hat X) = true ->
  length std_b3 = length (m_hat X) ->
  forallb (fun s => is_fin s && leb zero s) std_b3 = true ->
  is_fin kappa_n && leb zero kappa_n = true ->
  is_fin (np_sqrt (of_nat (nrows X))) && ltb zero (np_sqrt (of_nat (nrows X))) = true ->
  exists (r_hat0 : num) (j : nat),
    np_max (r_hat_vec_of (m_hat X)) = Ok r_hat0
    /\ r_hat_vec_of (m_hat X) !! j = Some r_hat0
    /\ j ∈ hat_j_r_of (np_sqrt (of_nat (nrows X))) kappa_n r_hat0
             (r_hat_vec_of (m_hat X)) std_b3
    /\ forall (std_b2 : vec) (hat_r_inf : num) (ix : list (list nat)) r sd s,
        well_formed X ix = true -> length std_b2 = length (m_hat X) ->
        exists v, an_star X std_b2 std_b3 kappa_n hat_r_inf r sd (Some ix) s
                  = (Ok v, s)
                  /\ length v = length ix.
Proof.
  intros Hne Hfin Hlen Hs3 Hk Hsq.
  destruct (near_binding_contains_max (m_hat X) std_b3 kappa_n _
              Hne Hfin Hlen Hs3 Hk Hsq) as [r_hat0 [j [Hmax [Hj Hin]]]].
  exists r_hat0, j. repeat (split; [assumption|]).
  intros std_b2 h ix r sd s Hwf H2.
  destruct (an_star_of_total X std_b2 std_b3 kappa_n h ix r_hat0 j)
    as [v [Hv Hlv]]; auto.
  { destruct std_b2; [|congruence]. destruct (m_hat X); [congruence|discriminate]. }
  { destruct std_b3; [|congruence]. destruct (m_hat X); [congruence|discriminate]. }
  exists v. rewrite an_star_explicit, Hv. auto.
Qed.

End Totality.

(** ** The loop of [an_star] *)

Section Alias.

Context {E : Env}.

(** With a single near-binding index the loop computes what the
    specification words: the array is written once and read once. *)
Lemma an_loop_single (hat_hi_star : matrix) (phi_n : vec) (j : nat) (hat_b : vec) :
  an_loop hat_hi_star phi_n [j] hat_b
  = alternatives_spec hat_hi_star phi_n [j] hat_b.
Proof. reflexivity. Qed.

(** With two, the second alternative is built from the array as the first
    pass left it. *)
Lemma an_loop_pair (hat_hi_star : matrix) (phi_n : vec) (i j : nat) (hat_b : vec) :
  an_loop hat_hi_star phi_n [i; j] hat_b
  = rbind (max_axis1 (map (fun h => zip_with add (<[i := nth i phi_n NaN]> hat_b) h)
                          hat_hi_star))
      (fun col_i =>
       rbind (max_axis1
                (map (fun h => zip_with add
                                 (<[j := nth j phi_n NaN]>
                                    (<[i := nth i phi_n NaN]> hat_b)) h)
                     hat_hi_star))
         (fun col_j => Ok [col_i; col_j])).
Proof.
  cbn [an_loop].
  destruct (max_axis1 (map _ hat_hi_star)) as [ci|e]; [|reflexivity].
  cbn [rbind].
  destruct (max_axis1 (map _ hat_hi_star)) as [cj|e']; reflexivity.
Qed.

(** C1.  On four observations of two moments whose aggregates are both
    [-1], with [sqrt(4) = 2], [kappa_n = 1], [hat_r_inf = 0], [std_b3 = (1, 4)]
    and one replication that takes every row once, both moments are
    near-binding, [hat_b = (1, -2)] and [phi_n = (inf, 0)].  The first pass
    of the loop writes [inf] into [hat_b] itself, so the second alternative
    is the row maximum of [(inf, 0)] and [an_star] returns [inf]; with every
    alternative built from the original [hat_b], as the specification
    words it, the second alternative is the row maximum of [(1, 0)] and the
    result is [1]. *)
Theorem an_star_writes_into_hat_b :
  np_sqrt (of_nat 4) = Ex.z 2 ->
  m_hat Ex.X4 = [Ex.z (-1); Ex.z (-1)] ->
  an_star_of Ex.X4 [Ex.z 1; Ex.z 1] [Ex.z 1; Ex.z 4] (Ex.z 1) (Ex.z 0) Ex.ident4
  = Ok [PInf]
  /\ an_star_spec Ex.X4 [Ex.z 1; Ex.z 1] [Ex.z 1; Ex.z 4] (Ex.z 1) (Ex.z 0)
                  Ex.ident4
     = Ok [Ex.z 1].
Proof.
  intros Hsq Hm.
  unfold an_star_of, an_star_spec, centred, m_hat_axis1.
  change (nrows Ex.X4) with 4%nat. rewrite Hsq.
  change (resample Ex.X4 Ex.ident4) with (Ok (A := list matrix) [Ex.X4]).
  cbn [rbind map]. rewrite Hm.
  split; vm_compute; reflexivity.
Qed.

End Alias.

(** ** Sums and standard deviations of finite vectors *)

Lemma fold_add_fin (qs : list Q) (a : Q) :
  exists c, fold_left add (map Fin qs) (Fin a) = Fin c.
Proof.
  revert a. induction qs as [|b qs IH]; intros a; cbn [map fold_left].
  - eauto.
  - rewrite add_fin. apply IH.
Qed.

Lemma fold_add_nonneg (qs : list Q) (a : Q) :
  0 <= a -> Forall (fun b => 0 <= b) qs ->
  exists c, fold_left add (map Fin qs) (Fin a) = Fin c /\ 0 <= c.
Proof.
  revert a. induction qs as [|b qs IH]; intros a Ha Hq; cbn [map fold_left].
  - eauto.
  - apply Forall_cons in Hq as [Hb Hq]. rewrite add_fin.
    apply IH; [|exact Hq]. rewrite Qred_correct. lra.
Qed.

Lemma fold_add_zeros (n : nat) :
  fold_left add (map Fin (replicate n 0)) zero = zero.
Proof. induction n as [|n IH]; [reflexivity|]. cbn [replicate map fold_left]. exact IH. Qed.

Lemma fold_add_const (n : nat) (d a : Q) :
  exists c, fold_left add (map Fin (replicate n d)) (Fin a) = Fin c
            /\ c == a + inject_Z (Z.of_nat n) * d.
Proof.
  revert a. induction n as [|n IH]; intros a; cbn [replicate map fold_left].
  - exists a. split; [reflexivity|]. change (inject_Z (Z.of_nat 0)) with 0. ring.
  - rewrite add_fin. destruct (IH (Qred (a + d))) as [c [Hc Heq]].
    exists c. split; [exact Hc|]. rewrite Heq, Qred_correct.
    rewrite Nat2Z.inj_succ. unfold Z.succ. rewrite inject_Z_plus. ring.
Qed.

Lemma of_nat_pos (n : nat) : (0 < n)%nat -> 0 < inject_Z (Z.of_nat n).
Proof.
  intros H. change 0 with (inject_Z 0). rewrite <- Zlt_Qlt. lia.
Qed.

Section Std.

Context {E : Env}.

Lemma np_std_fin (qs : list Q) :
  sqrt_total -> qs <> [] -> exists r, np_std (map Fin qs) = Fin r.
Proof.
  intros Hsqrt Hne. unfold np_std, vsum, zero. rewrite length_map.
  assert (HN : 0 < inject_Z (Z.of_nat (length qs))).
  { apply of_nat_pos. destruct qs; [congruence|simpl; lia]. }
  destruct (fold_add_fin qs 0) as [s ->].
  unfold of_nat. rewrite (div_fin _ _ HN).
  destruct (fin_red (s / inject_Z (Z.of_nat (length qs)))) as [m [-> _]].
  rewrite !map_map.
  rewrite (map_ext _ (fun a => Fin (Qred (Qred (a - m) * Qred (a - m)))))
    by (intros a; rewrite sub_fin; apply mul_fin).
  rewrite <- (map_map (fun a => Qred (Qred (a - m) * Qred (a - m))) Fin).
  destruct (fold_add_nonneg
              (map (fun a => Qred (Qred (a - m) * Qred (a - m))) qs) 0)
    as [t [-> Ht]].
  { apply Qle_refl. }
  { apply Forall_forall. intros b Hb.
    apply list_elem_of_In, in_map_iff in Hb as [a [<- _]].
    rewrite Qred_correct. nra. }
  rewrite (div_fin _ _ HN).
  destruct (fin_red (t / inject_Z (Z.of_nat (length qs)))) as [u [-> Hu]].
  destruct (Hsqrt u) as [r [Hr _]]; [|eauto].
  rewrite Hu. apply Qle_shift_div_l; [exact HN|]. lra.
Qed.

(** A column of identical finite numbers has standard deviation
    [np.sqrt(0)]. *)
Lemma np_std_const (n : nat) (d : Q) :
  (0 < n)%nat -> np_std (map Fin (replicate n d)) = np_sqrt zero.
Proof.
  intros Hn. unfold np_std, vsum, zero. rewrite length_map, length_replicate.
  assert (HN : 0 < inject_Z (Z.of_nat n)) by (apply of_nat_pos, Hn).
  destruct (fold_add_const n d 0) as [s [-> Hs]].
  unfold of_nat. rewrite (div_fin _ _ HN).
  assert (Hm : s / inject_Z (Z.of_nat n) == d).
  { rewrite Hs. field. lra. }
  rewrite !map_map.
  assert (Hz : forall a, a ∈ replicate n d ->
     mul (sub (Fin a) (fin (s / inject_Z (Z.of_nat n))))
         (sub (Fin a) (fin (s / inject_Z (Z.of_nat n)))) = Fin 0).
  { intros a Ha. apply elem_of_replicate in Ha as [-> _].
    unfold fin. rewrite sub_fin.
    assert (Hd : fin (d - Qred (s / inject_Z (Z.of_nat n))) = Fin 0).
    { change (Fin 0) with (fin 0). apply fin_eq. rewrite Qred_correct, Hm. lra. }
    rewrite Hd. reflexivity. }
  rewrite (map_ext_in _ (fun _ => Fin 0))
    by (intros a Ha; apply Hz, list_elem_of_In, Ha).
  assert (Hmap : map (fun _ : Q => Fin 0) (replicate n d)
                 = map Fin (replicate n 0)).
  { clear. induction n; [reflexivity|]. simpl. f_equal. assumption. }
  rewrite Hmap. change (Fin 0) with zero. rewrite fold_add_zeros.
  unfold zero. rewrite (div_fin _ _ HN).
  reflexivity.
Qed.

End Std.

(** ** Matrices of finite numbers *)

Lemma nth_map_fin (qs : list Q) (j : nat) :
  (j < length qs)%nat -> nth j (map Fin qs) NaN = Fin (nth j qs 0).
Proof.
  intros H. rewrite (nth_indep _ NaN (Fin 0)) by (rewrite length_map; exact H).
  apply map_nth.
Qed.

Lemma fin_row_inv (k : nat) (r : vec) :
  length r = k /\ forallb is_fin r = true ->
  exists qs, r = map Fin qs /\ length qs = k.
Proof.
  intros [Hl Hf]. apply forallb_is_fin in Hf as [qs ->].
  exists qs. split; [reflexivity|]. rewrite length_map in Hl. exact Hl.
Qed.

Lemma column_fin (k : nat) (A : matrix) (j : nat) :
  fin_matrix k A -> (j < k)%nat ->
  exists cs, column j A = map Fin cs /\ length cs = length A.
Proof.
  intros HA Hj. induction HA as [|r A Hr _ [cs [Hcs Hlen]]].
  - exists []. auto.
  - apply fin_row_inv in Hr as [qs [-> Hq]].
    exists (nth j qs 0 :: cs). unfold column in *. cbn [map].
    rewrite Hcs, nth_map_fin by lia. split; [reflexivity|simpl; lia].
Qed.

Lemma fin_matrix_map (f : num -> num) (k : nat) (A : matrix) :
  (forall a, exists c, f (Fin a) = Fin c) ->
  fin_matrix k A -> fin_matrix k (map (map f) A).
Proof.
  intros Hf HA. unfold fin_matrix in *. apply Forall_forall. intros r Hr.
  apply list_elem_of_In, in_map_iff in Hr as [r0 [<- Hin]].
  rewrite Forall_forall in HA.
  destruct (fin_row_inv k r0 (HA r0 (proj2 (list_elem_of_In _ _) Hin)))
    as [qs [-> Hq]].
  split; [rewrite !length_map; exact Hq|].
  apply forallb_forall. intros x Hx.
  apply in_map_iff in Hx as [y [<- Hy]].
  apply in_map_iff in Hy as [a [<- _]].
  destruct (Hf a) as [c ->]. reflexivity.
Qed.

Lemma min_axis1_fin (k : nat) (A : matrix) :
  (1 <= k)%nat -> fin_matrix k A ->
  exists ms, min_axis1 A = Ok (map Fin ms) /\ length ms = length A.
Proof.
  intros Hk HA. unfold min_axis1. induction HA as [|r A Hr _ [ms [Hms Hlen]]].
  - exists []. auto.
  - apply fin_row_inv in Hr as [qs [-> Hq]].
    destruct (np_min_fin qs) as [c [Hc _]].
    { destruct qs; [simpl in Hq; lia|congruence]. }
    cbn [rmapM]. rewrite Hc, Hms. cbn [rbind].
    exists (c :: ms). split; [reflexivity|simpl; lia].
Qed.

Lemma fin_matrix_zip (g : num -> num -> num) (k : nat) (A : matrix) (ms : list Q) :
  (forall a m, exists c, g (Fin a) (Fin m) = Fin c) ->
  fin_matrix k A -> length ms = length A ->
  fin_matrix k (zip_with (fun row mn => map (fun x => g x mn) row) A (map Fin ms))
  /\ length (zip_with (fun row mn => map (fun x => g x mn) row) A (map Fin ms))
     = length A.
Proof.
  intros Hg HA. revert ms. induction HA as [|r A Hr _ IH]; intros ms Hlen.
  - split; [constructor|reflexivity].
  - destruct ms as [|m ms]; [discriminate|]. cbn [map zip_with].
    destruct (IH ms) as [IH1 IH2]; [simpl in Hlen; lia|].
    split; [|simpl; lia]. constructor; [|exact IH1].
    apply fin_row_inv in Hr as [qs [-> Hq]].
    split; [rewrite !length_map; exact Hq|].
    apply forallb_forall. intros x Hx.
    apply in_map_iff in Hx as [y [<- Hy]].
    apply in_map_iff in Hy as [a [<- _]].
    destruct (Hg a m) as [c ->]. reflexivity.
Qed.

Lemma clip_max_zero_fin (a : Q) : exists c, clip_max zero (Fin a) = Fin c.
Proof. destruct (minimum_fin a 0) as [c [Hc _]]. exists c. exact Hc. Qed.

Lemma scale_fin (sigma a : Q) : exists c, mul (Fin sigma) (Fin a) = Fin c.
Proof. rewrite mul_fin. eexists. reflexivity. Qed.

Lemma scale_sub_fin (sigma a m : Q) :
  exists c, mul (Fin sigma) (sub (Fin a) (Fin m)) = Fin c.
Proof. rewrite sub_fin. apply scale_fin. Qed.

Section Floor.

Context {E : Env}.

Lemma std_axis0_floor (k : nat) (A : matrix) :
  sqrt_total -> A <> [] -> fin_matrix k A ->
  length (map (clip_min iota) (std_axis0 k A)) = k
  /\ Forall (fun x => leb iota x = true) (map (clip_min iota) (std_axis0 k A)).
Proof.
  intros Hsqrt Hne HA. unfold std_axis0, columns.
  split; [rewrite !length_map, length_seq; reflexivity|].
  apply Forall_forall. intros x Hx.
  apply list_elem_of_In, in_map_iff in Hx as [y [<- Hy]].
  apply in_map_iff in Hy as [c [<- Hc]].
  apply in_map_iff in Hc as [j [<- Hj]].
  apply in_seq in Hj.
  destruct (column_fin k A j HA) as [cs [-> Hlen]]; [lia|].
  destruct (np_std_fin cs Hsqrt) as [r ->].
  { destruct cs; [|congruence]. destruct A; [congruence|discriminate]. }
  apply clip_min_iota. reflexivity.
Qed.

Lemma std_axis0_lookup (k : nat) (A : matrix) (j : nat) :
  (j < k)%nat ->
  map (clip_min iota) (std_axis0 k A) !! j
  = Some (clip_min iota (np_std (column j A))).
Proof.
  intros Hj. unfold std_axis0, columns.
  change (map (clip_min iota) (map np_std (map (fun j0 => column j0 A) (seq 0 k))))
    with (clip_min iota <$> (np_std <$> ((fun j0 => column j0 A) <$> seq 0 k))).
  rewrite !list_lookup_fmap, lookup_seq_lt by exact Hj. reflexivity.
Qed.

(** The terms of [std_b_vec] on well-formed input. *)
Lemma std_b_terms_fin (X : matrix) (ix : list (list nat)) :
  well_formed X ix = true ->
  exists Xs v1 v2 v3,
    resample X ix = Ok Xs /\ length Xs = length ix
    /\ std_b_terms X ix = Ok (m_hat_axis1 Xs, (v1, v2, v3))
    /\ v2 = map (map (mul (np_sqrt (of_nat (nrows X))))) (m_hat_axis1 Xs)
    /\ fin_matrix (length (m_hat X)) (m_hat_axis1 Xs)
    /\ fin_matrix (length (m_hat X)) v1 /\ length v1 = length ix
    /\ fin_matrix (length (m_hat X)) v2 /\ length v2 = length ix
    /\ fin_matrix (length (m_hat X)) v3 /\ length v3 = length ix.
Proof.
  intros Hwf.
  apply well_formed_inv in Hwf as [Hk [_ [Hsq [Xs [HXs [HlenXs Hagg]]]]]].
  apply is_fin_inv in Hsq as [sigma Hsigma].
  set (k := length (m_hat X)) in *.
  assert (Hstar : fin_matrix k (m_hat_axis1 Xs)).
  { unfold fin_matrix, m_hat_axis1. apply Forall_forall. intros r Hr.
    apply list_elem_of_In, in_map_iff in Hr as [X' [<- HX']].
    rewrite Forall_forall in Hagg. apply Hagg, list_elem_of_In, HX'. }
  assert (Hclip : fin_matrix k (map (map (clip_max zero)) (m_hat_axis1 Xs))).
  { apply fin_matrix_map; [apply clip_max_zero_fin|exact Hstar]. }
  destruct (min_axis1_fin k _ Hk Hclip) as [ms [Hms Hlms]].
  rewrite length_map in Hlms.
  assert (HlenS : length (m_hat_axis1 Xs) = length ix).
  { unfold m_hat_axis1. rewrite length_map. exact HlenXs. }
  unfold std_b_terms. rewrite HXs. cbn [rbind]. rewrite Hms. cbn [rbind].
  rewrite Hsigma.
  do 4 eexists. split; [reflexivity|]. split; [exact HlenXs|].
  split; [reflexivity|]. split; [reflexivity|]. split; [exact Hstar|].
  destruct (fin_matrix_zip (fun x mn => mul (Fin sigma) (sub x mn)) k
              (m_hat_axis1 Xs) ms) as [H1 H1l]; auto.
  { intros a m. apply scale_sub_fin. }
  destruct (fin_matrix_zip (fun c mn => mul (Fin sigma) (sub mn c)) k
              (map (map (clip_max zero)) (m_hat_axis1 Xs)) ms) as [H3 H3l]; auto.
  { intros a m. apply scale_sub_fin. }
  { rewrite length_map. exact Hlms. }
  rewrite length_map in H3l.
  repeat split; try assumption; try lia.
  - apply fin_matrix_map; [apply scale_fin|exact Hstar].
  - rewrite length_map. exact HlenS.
Qed.

End Floor.

Section FloorTheorem.

Context {E : Env}.

Lemma width_of_rows (k0 k : nat) (A : matrix) :
  A <> [] -> fin_matrix k A -> width k0 A = k.
Proof.
  intros Hne HA. destruct A as [|r A]; [congruence|].
  apply Forall_cons in HA as [[Hl _] _]. exact Hl.
Qed.

Lemma column_identical (sigma c : Q) (Xs : list matrix) (j : nat) :
  (forall X', X' ∈ Xs -> m_hat X' !! j = Some (Fin c)) ->
  column j (map (map (mul (Fin sigma))) (m_hat_axis1 Xs))
  = map Fin (replicate (length Xs) (Qred (sigma * c))).
Proof.
  intros H. unfold column, m_hat_axis1. rewrite !map_map.
  induction Xs as [|X' Xs IH]; [reflexivity|].
  cbn [map length replicate]. rewrite IH.
  - f_equal. rewrite nth_lookup.
    change (map (mul (Fin sigma)) (m_hat X')) with (mul (Fin sigma) <$> m_hat X').
    rewrite list_lookup_fmap, (H X') by left. reflexivity.
  - intros X'' HX''. apply H. right. exact HX''.
Qed.

(** C7, as amended.  With at least one replication, indices into the data,
    finite aggregates on the data and on every resample and a square root
    that is a number on every non-negative number, [std_b_vec] returns a
    [3 x k] matrix whose entries are all at least [iota]; and where every
    resample gives a column the same aggregate, that column's entry in the
    second row, the scaling of [sqrt(n) * mhat_star], is [iota] itself. *)
Theorem scaling_floor (X : matrix) (ix : list (list nat)) r sd s :
  sqrt_total -> ix <> [] -> well_formed X ix = true ->
  exists M,
    std_b_vec X r sd (Some ix) s = (Ok M, s)
    /\ length M = 3%nat
    /\ Forall (fun row => length row = length (m_hat X)
                          /\ Forall (fun x => leb iota x = true) row) M
    /\ forall Xs j c,
        resample X ix = Ok Xs -> np_sqrt zero = zero ->
        (forall X', X' ∈ Xs -> m_hat X' !! j = Some (Fin c)) ->
        nth 1 M [] !! j = Some iota.
Proof.
  intros Hsqrt Hne Hwf.
  destruct (std_b_terms_fin X ix Hwf)
    as (Xs & v1 & v2 & v3 & HXs & HlenXs & Hterms & Hv2 & Hstar
        & H1 & H1l & H2 & H2l & H3 & H3l).
  pose proof Hwf as Hwf'.
  apply well_formed_inv in Hwf' as [_ [_ [Hsq _]]].
  apply is_fin_inv in Hsq as [sigma Hsigma].
  set (k := length (m_hat X)) in *.
  assert (Hix : (0 < length ix)%nat) by (destruct ix; [congruence|simpl; lia]).
  assert (Hw : width (ncols X) (m_hat_axis1 Xs) = k).
  { apply width_of_rows; [|exact Hstar].
    unfold m_hat_axis1. destruct Xs; [simpl in HlenXs; lia|discriminate]. }
  assert (Hnil : forall v : matrix, length v = length ix -> v <> []).
  { intros v Hv ->. simpl in Hv. lia. }
  rewrite std_b_vec_explicit. unfold std_b_of. rewrite Hterms. cbn [rbind].
  rewrite Hw. eexists. split; [reflexivity|]. split; [reflexivity|].
  split.
  - repeat constructor;
      try (apply std_axis0_floor; auto).
  - intros Xs' j c HXs' Hzero Hsame.
    rewrite HXs in HXs'. injection HXs' as <-.
    assert (Hj : (j < k)%nat).
    { destruct Xs as [|X' Xs]; [simpl in HlenXs; lia|].
      apply Forall_cons in Hstar as [[Hl _] _]. rewrite <- Hl.
      eapply lookup_lt_Some, (Hsame X'). left. }
    cbn [nth]. rewrite std_axis0_lookup by exact Hj. f_equal.
    rewrite Hv2, Hsigma, (column_identical sigma c Xs j Hsame).
    rewrite np_std_const by (rewrite HlenXs; exact Hix).
    rewrite Hzero. reflexivity.
Qed.

End FloorTheorem.

(** ** Sorting *)

Lemma insert_sorted_perm (x : num) (l : vec) : insert_sorted x l ≡ₚ x :: l.
Proof.
  induction l as [|y l IH]; cbn [insert_sorted]; [reflexivity|].
  destruct (leb x y); [reflexivity|].
  rewrite IH. apply Permutation_swap.
Qed.

Lemma sort_perm (l : vec) : sort l ≡ₚ l.
Proof.
  induction l as [|x l IH]; cbn [sort]; [reflexivity|].
  rewrite insert_sorted_perm, IH. reflexivity.
Qed.

Lemma insert_sorted_fin (a : Q) (ss : list Q) :
  StronglySorted Qle ss ->
  exists ss', insert_sorted (Fin a) (map Fin ss) = map Fin ss'
              /\ StronglySorted Qle ss' /\ ss' ≡ₚ a :: ss.
Proof.
  induction 1 as [|b ss Hs IH Hb]; cbn [map insert_sorted].
  - exists [a]. repeat split; repeat constructor.
  - destruct (leb (Fin a) (Fin b)) eqn:Hab.
    + apply leb_fin in Hab. exists (a :: b :: ss). split; [reflexivity|].
      split; [|reflexivity]. constructor; [constructor; assumption|].
      constructor; [exact Hab|].
      eapply Forall_impl; [exact Hb|]. intros c Hc. eapply Qle_trans; eauto.
    + apply leb_fin_false in Hab. destruct IH as [ss' [Hss' [Hsorted Hperm]]].
      exists (b :: ss'). rewrite Hss'. split; [reflexivity|]. split.
      * constructor; [exact Hsorted|].
        rewrite Hperm. constructor; [apply Qlt_le_weak, Hab|exact Hb].
      * rewrite Hperm. apply Permutation_swap.
Qed.

Lemma sort_fin (qs : list Q) :
  exists ss, sort (map Fin qs) = map Fin ss
             /\ StronglySorted Qle ss /\ ss ≡ₚ qs.
Proof.
  induction qs as [|a qs [ss [Hss [Hsorted Hperm]]]]; cbn [map sort].
  - exists []. repeat split; constructor.
  - rewrite Hss. destruct (insert_sorted_fin a ss Hsorted) as [ss' [H1 [H2 H3]]].
    exists ss'. repeat split; try assumption. rewrite H3, Hperm. reflexivity.
Qed.

Lemma sorted_nth (ss : list Q) (i j : nat) :
  StronglySorted Qle ss -> (i <= j)%nat -> (j < length ss)%nat ->
  nth i ss 0 <= nth j ss 0.
Proof.
  intros Hs. revert i j. induction Hs as [|a ss Hs IH Ha]; intros i j Hij Hj.
  - simpl in Hj. lia.
  - destruct i as [|i], j as [|j]; cbn [nth]; try lia.
    + apply Qle_refl.
    + rewrite Forall_forall in Ha. apply Ha, list_elem_of_In, nth_In.
      simpl in Hj. lia.
    + apply IH; simpl in Hj; lia.
Qed.

(** ** Rounding to binary64 *)

(** Read a comparison of two rationals as an order statement. *)
Ltac compare_inv H :=
  first [apply Qeq_alt in H | apply Qlt_alt in H | apply Qgt_alt in H].

Lemma rne_bounds (x : Q) : (Qfloor x <= rne x <= Qfloor x + 1)%Z.
Proof.
  unfold rne. destruct (_ ?= _); [destruct (Z.even _)| |]; lia.
Qed.

Lemma rne_Z (z : Z) : rne (inject_Z z) = z.
Proof.
  unfold rne. rewrite Qfloor_Z.
  assert (H : inject_Z z - inject_Z z == 0) by ring.
  assert (Hc : (inject_Z z - inject_Z z ?= 1 # 2) = Lt).
  { apply Qlt_alt. rewrite H. reflexivity. }
  rewrite Hc. reflexivity.
Qed.

Lemma rne_mono (x y : Q) : x <= y -> (rne x <= rne y)%Z.
Proof.
  intros Hxy. pose proof (Qfloor_resp_le x y Hxy) as Hf.
  pose proof (rne_bounds x) as Hx. pose proof (rne_bounds y) as Hy.
  destruct (Z.eq_dec (Qfloor x) (Qfloor y)) as [He|Hne]; [|lia].
  unfold rne. rewrite <- He.
  assert (Hfr : x - inject_Z (Qfloor x) <= y - inject_Z (Qfloor x)) by lra.
  destruct (x - inject_Z (Qfloor x) ?= 1 # 2) eqn:Hcx;
    destruct (y - inject_Z (Qfloor x) ?= 1 # 2) eqn:Hcy;
    try (destruct (Z.even (Qfloor x))); try lia; exfalso;
    compare_inv Hcx; compare_inv Hcy; lra.
Qed.

Lemma pow2_pos (e : Z) : 0 < 2 ^ e.
Proof. apply Qpower_0_lt. reflexivity. Qed.

Lemma pow2_add (a b : Z) : 2 ^ (a + b) == 2 ^ a * 2 ^ b.
Proof. apply Qpower_plus. discriminate. Qed.

Lemma pow2_le (a b : Z) : (a <= b)%Z -> 2 ^ a <= 2 ^ b.
Proof. intros H. apply Qpower_le_compat_l; [exact H|discriminate]. Qed.

Lemma pow2_lt (a b : Z) : (a < b)%Z -> 2 ^ a < 2 ^ b.
Proof. intros H. apply Qpower_lt_compat_l; [exact H|reflexivity]. Qed.

Lemma pow2_Z (k : Z) : (0 <= k)%Z -> 2 ^ k == inject_Z (2 ^ k).
Proof. intros H. symmetry. apply (Zpower_Qpower 2 k H). Qed.

Lemma pow2_succ (a : Z) : 2 ^ (a + 1) == 2 * 2 ^ a.
Proof. rewrite pow2_add. change (2 ^ 1) with 2. ring. Qed.

Lemma binade_spec (q : Q) :
  0 < q -> 2 ^ binade q <= q /\ q < 2 ^ (binade q + 1).
Proof.
  intros Hq. destruct q as [n d]. unfold binade. cbn [Qnum Qden].
  assert (Hn : (0 < n)%Z).
  { unfold Qlt in Hq. simpl in Hq. lia. }
  set (ln := Z.log2 n). set (ld := Z.log2 (Z.pos d)).
  destruct (Z.log2_spec n Hn) as [Hn1 Hn2]. fold ln in Hn1, Hn2.
  destruct (Z.log2_spec (Z.pos d) (Pos2Z.is_pos d)) as [Hd1 Hd2].
  fold ld in Hd1, Hd2.
  assert (Hln : (0 <= ln)%Z) by apply Z.log2_nonneg.
  assert (Hld : (0 <= ld)%Z) by apply Z.log2_nonneg.
  assert (HA : 2 ^ ln == inject_Z (2 ^ ln)) by (apply pow2_Z; exact Hln).
  assert (HD : 2 ^ ld == inject_Z (2 ^ ld)) by (apply pow2_Z; exact Hld).
  assert (He : 2 ^ (ln - ld) * 2 ^ ld == 2 ^ ln).
  { rewrite <- pow2_add. replace (ln - ld + ld)%Z with ln by lia. reflexivity. }
  pose proof (pow2_pos (ln - ld)) as Hpe.
  pose proof (pow2_pos ld) as Hpd.
  assert (Hq' : n # d == inject_Z n / inject_Z (Z.pos d)) by apply Qmake_Qdiv.
  assert (Hdpos : 0 < inject_Z (Z.pos d)).
  { change 0 with (inject_Z 0). rewrite <- Zlt_Qlt. lia. }
  (* bounds in Q *)
  assert (Bn1 : 2 ^ ln <= inject_Z n) by (rewrite HA, <- Zle_Qle; exact Hn1).
  assert (Bn2 : inject_Z n < 2 * 2 ^ ln).
  { rewrite <- pow2_succ, (pow2_Z (ln + 1)) by lia. rewrite <- Zlt_Qlt.
    replace (ln + 1)%Z with (Z.succ ln) by lia. exact Hn2. }
  assert (Bd1 : 2 ^ ld <= inject_Z (Z.pos d)) by (rewrite HD, <- Zle_Qle; exact Hd1).
  assert (Bd2 : inject_Z (Z.pos d) < 2 * 2 ^ ld).
  { rewrite <- pow2_succ, (pow2_Z (ld + 1)) by lia. rewrite <- Zlt_Qlt.
    replace (ld + 1)%Z with (Z.succ ld) by lia. exact Hd2. }
  set (E := 2 ^ (ln - ld)) in *. set (D := 2 ^ ld) in *. set (A := 2 ^ ln) in *.
  set (N := inject_Z n) in *. set (Dn := inject_Z (Z.pos d)) in *.
  assert (Hqd : (n # d) * Dn == N).
  { rewrite Hq'. field. intros H. rewrite H in Hdpos. discriminate. }
  set (x := n # d) in *.
  assert (Hup : x < 2 * E).
  { apply Qnot_le_lt. intros Hc.
    assert (2 * E * Dn <= x * Dn) by (apply Qmult_le_compat_r; [exact Hc|lra]).
    assert (2 * E * D <= 2 * E * Dn) by (apply Qmult_le_l; lra).
    nra. }
  assert (Hlo : E < 2 * x).
  { apply Qnot_le_lt. intros Hc.
    assert (2 * x * Dn <= E * Dn) by (apply Qmult_le_compat_r; [exact Hc|lra]).
    assert (E * Dn < E * (2 * D)) by (apply Qmult_lt_l; lra).
    nra. }
  destruct (Qle_bool E x) eqn:Hb.
  - apply Qle_bool_iff in Hb. split; [exact Hb|]. rewrite pow2_succ. exact Hup.
  - assert (Hlt : x < E).
    { apply Qnot_le_lt. intros H. apply Qle_bool_iff in H. congruence. }
    replace (ln - ld - 1 + 1)%Z with (ln - ld)%Z by lia. split; [|exact Hlt].
    assert (Hh : 2 * 2 ^ (ln - ld - 1) == E).
    { rewrite <- pow2_succ. replace (ln - ld - 1 + 1)%Z with (ln - ld)%Z by lia.
      reflexivity. }
    lra.
Qed.

Lemma binade_mono (x y : Q) : 0 < x -> x <= y -> (binade x <= binade y)%Z.
Proof.
  intros Hx Hxy.
  destruct (binade_spec x Hx) as [Hx1 _].
  destruct (binade_spec y) as [_ Hy2]; [lra|].
  assert (H : 2 ^ binade x < 2 ^ (binade y + 1)) by lra.
  apply Qpower_lt_compat_l_inv in H; [lia|reflexivity].
Qed.

Lemma binade_unique (x : Q) (e : Z) :
  2 ^ e <= x -> x < 2 ^ (e + 1) -> binade x = e.
Proof.
  intros H1 H2.
  assert (Hx : 0 < x) by (pose proof (pow2_pos e); lra).
  destruct (binade_spec x Hx) as [H3 H4].
  assert (Ha : 2 ^ e < 2 ^ (binade x + 1)) by lra.
  assert (Hb : 2 ^ binade x < 2 ^ (e + 1)) by lra.
  apply Qpower_lt_compat_l_inv in Ha; [|reflexivity].
  apply Qpower_lt_compat_l_inv in Hb; [|reflexivity]. lia.
Qed.

Lemma scale_pow2 (x : Q) (a b : Z) :
  x <= 2 ^ a -> x / 2 ^ b <= 2 ^ (a - b).
Proof.
  intros H. pose proof (pow2_pos b) as Hb.
  apply Qle_shift_div_r; [exact Hb|].
  rewrite <- pow2_add. replace (a - b + b)%Z with a by lia. exact H.
Qed.

Lemma scale_pow2_ge (x : Q) (a b : Z) :
  2 ^ a <= x -> 2 ^ (a - b) <= x / 2 ^ b.
Proof.
  intros H. pose proof (pow2_pos b) as Hb.
  apply Qle_shift_div_l; [exact Hb|].
  rewrite <- pow2_add. replace (a - b + b)%Z with a by lia. exact H.
Qed.

(** A positive number rounds into the closure of its binade. *)
Lemma round64_pos_upper (q : Q) :
  0 < q -> round64_pos q <= 2 ^ (Z.max (binade q) (-1022) + 1).
Proof.
  intros Hq. unfold round64_pos.
  set (E := Z.max (binade q) (-1022)).
  destruct (binade_spec q Hq) as [_ H2].
  assert (Hq2 : q <= 2 ^ (E + 1)).
  { apply Qlt_le_weak. eapply Qlt_le_trans; [exact H2|]. apply pow2_le. lia. }
  apply (scale_pow2 _ _ (E - 52)) in Hq2.
  replace (E + 1 - (E - 52))%Z with 53%Z in Hq2 by lia.
  rewrite (pow2_Z 53) in Hq2 by lia.
  apply rne_mono in Hq2. rewrite rne_Z in Hq2.
  pose proof (pow2_pos (E - 52)) as Hu.
  assert (H : inject_Z (rne (q / 2 ^ (E - 52))) <= inject_Z (2 ^ 53))
    by (rewrite <- Zle_Qle; exact Hq2).
  rewrite <- (pow2_Z 53) in H by lia.
  replace (E + 1)%Z with (53 + (E - 52))%Z by lia. rewrite pow2_add.
  apply Qmult_le_compat_r; [exact H|lra].
Qed.

Lemma round64_pos_lower (q : Q) :
  0 < q -> (-1022 <= binade q)%Z -> 2 ^ binade q <= round64_pos q.
Proof.
  intros Hq HE. unfold round64_pos.
  replace (Z.max (binade q) (-1022)) with (binade q) by lia.
  set (E := binade q) in *.
  destruct (binade_spec q Hq) as [H1 _]. fold E in H1.
  apply (scale_pow2_ge _ _ (E - 52)) in H1.
  replace (E - (E - 52))%Z with 52%Z in H1 by lia.
  rewrite (pow2_Z 52) in H1 by lia.
  apply rne_mono in H1. rewrite rne_Z in H1.
  pose proof (pow2_pos (E - 52)) as Hu.
  assert (H : inject_Z (2 ^ 52) <= inject_Z (rne (q / 2 ^ (E - 52))))
    by (rewrite <- Zle_Qle; exact H1).
  rewrite <- (pow2_Z 52) in H by lia.
  replace E with (52 + (E - 52))%Z at 1 by lia. rewrite pow2_add.
  apply Qmult_le_compat_r; [exact H|lra].
Qed.

Lemma round64_pos_nonneg (q : Q) : 0 < q -> 0 <= round64_pos q.
Proof.
  intros Hq. unfold round64_pos.
  set (u := 2 ^ _). assert (Hu : 0 < u) by apply pow2_pos.
  assert (H0 : 0 <= q / u).
  { apply Qle_shift_div_l; [exact Hu|]. lra. }
  apply rne_mono in H0. change 0 with (inject_Z 0) in H0 at 1.
  rewrite rne_Z in H0.
  assert (H : 0 <= inject_Z (rne (q / u))).
  { change 0 with (inject_Z 0). rewrite <- Zle_Qle. exact H0. }
  apply Qmult_le_0_compat; lra.
Qed.

Lemma round64_pos_mono (x y : Q) :
  0 < x -> x <= y -> round64_pos x <= round64_pos y.
Proof.
  intros Hx Hxy. assert (Hy : 0 < y) by lra.
  pose proof (binade_mono x y Hx Hxy) as Hb.
  set (Ex := Z.max (binade x) (-1022)). set (Ey := Z.max (binade y) (-1022)).
  destruct (Z.eq_dec Ex Ey) as [He|Hne].
  - unfold round64_pos. fold Ex Ey. rewrite He.
    set (u := 2 ^ (Ey - 52)). assert (Hu : 0 < u) by apply pow2_pos.
    assert (Hd : x / u <= y / u).
    { apply Qmult_le_compat_r; [exact Hxy|]. apply Qlt_le_weak, Qinv_lt_0_compat, Hu. }
    apply rne_mono in Hd.
    apply Qmult_le_compat_r; [rewrite <- Zle_Qle; exact Hd|lra].
  - assert (Hlt : (Ex < Ey)%Z) by (unfold Ex, Ey in *; lia).
    assert (Hey : Ey = binade y) by (unfold Ex, Ey in *; lia).
    pose proof (round64_pos_upper x Hx) as H1. fold Ex in H1.
    pose proof (round64_pos_lower y Hy) as H2.
    assert (H3 : 2 ^ (Ex + 1) <= 2 ^ binade y) by (apply pow2_le; lia).
    assert (H4 : 2 ^ binade y <= round64_pos y) by (apply H2; unfold Ey in *; lia).
    lra.
Qed.

Lemma round64_mono (x y : Q) : x <= y -> round64 x <= round64 y.
Proof.
  intros Hxy. unfold round64.
  destruct (0 ?= x) eqn:Hx; destruct (0 ?= y) eqn:Hy;
    compare_inv Hx; compare_inv Hy; try lra.
  - apply round64_pos_nonneg, Hy.
  - apply round64_pos_mono; assumption.
  - pose proof (round64_pos_nonneg (- x)). lra.
  - pose proof (round64_pos_nonneg (- x)). pose proof (round64_pos_nonneg y). lra.
  - assert (H : round64_pos (- y) <= round64_pos (- x))
      by (apply round64_pos_mono; lra).
    lra.
Qed.

#[global] Instance round64_proper : Proper (Qeq ==> Qeq) round64.
Proof.
  intros x y H. apply Qle_antisym; apply round64_mono; rewrite H; apply Qle_refl.
Qed.

(** A number of 53 significant bits is its own rounding. *)
Lemma round64_exact (m k : Z) :
  (2 ^ 52 <= m < 2 ^ 53)%Z -> (-1074 <= k)%Z ->
  round64 (inject_Z m * 2 ^ k) == inject_Z m * 2 ^ k.
Proof.
  intros Hm Hk. pose proof (pow2_pos k) as Hpk.
  assert (Hm0 : 0 < inject_Z m).
  { change 0 with (inject_Z 0). rewrite <- Zlt_Qlt. lia. }
  set (x := inject_Z m * 2 ^ k).
  assert (Hx : 0 < x) by (unfold x; nra).
  unfold round64.
  destruct (0 ?= x) eqn:Hc; [compare_inv Hc; lra| |compare_inv Hc; lra].
  assert (Hb : binade x = (52 + k)%Z).
  { apply binade_unique; unfold x.
    - rewrite pow2_add, (pow2_Z 52) by lia.
      apply Qmult_le_compat_r; [rewrite <- Zle_Qle; lia|lra].
    - replace (52 + k + 1)%Z with (53 + k)%Z by lia.
      rewrite pow2_add, (pow2_Z 53) by lia.
      apply Qmult_lt_compat_r; [exact Hpk|rewrite <- Zlt_Qlt; lia]. }
  unfold round64_pos. rewrite Hb.
  replace (Z.max (52 + k) (-1022) - 52)%Z with k by lia.
  assert (Hd : x / 2 ^ k == inject_Z m).
  { unfold x. field. intros H. rewrite H in Hpk. discriminate. }
  assert (Hr : rne (x / 2 ^ k) = m).
  { rewrite <- (rne_Z m). apply Z.le_antisymm; apply rne_mono; rewrite Hd; apply Qle_refl. }
  rewrite Hr. reflexivity.
Qed.

Lemma round64_0 : round64 0 = 0.
Proof. reflexivity. Qed.

Lemma round64_1 : round64 1 == 1.
Proof. vm_compute. reflexivity. Qed.

(** A natural number below [2^53] is its own rounding. *)
Lemma round64_nat (z : Z) :
  (0 <= z < 2 ^ 53)%Z -> round64 (inject_Z z) == inject_Z z.
Proof.
  intros Hz. destruct (Z.eq_dec z 0%Z) as [->|Hne]; [reflexivity|].
  assert (Hpos : (0 < z)%Z) by lia.
  destruct (Z.log2_spec z Hpos) as [H1 H2]. set (l := Z.log2 z) in *.
  assert (Hl0 : (0 <= l)%Z) by apply Z.log2_nonneg.
  assert (Hl : (l < 53)%Z).
  { apply (Z.pow_lt_mono_r_iff 2); lia. }
  set (m := (z * 2 ^ (52 - l))%Z).
  assert (Hsplit : (2 ^ 52 = 2 ^ l * 2 ^ (52 - l))%Z).
  { rewrite <- Z.pow_add_r by lia. f_equal. lia. }
  assert (Hp : (0 < 2 ^ (52 - l))%Z) by (apply Z.pow_pos_nonneg; lia).
  assert (Hm : (2 ^ 52 <= m < 2 ^ 53)%Z).
  { unfold m. split.
    - rewrite Hsplit. apply Z.mul_le_mono_nonneg_r; lia.
    - replace (2 ^ 53)%Z with (2 ^ Z.succ l * 2 ^ (52 - l))%Z.
      + apply Z.mul_lt_mono_pos_r; lia.
      + rewrite <- Z.pow_add_r by lia. f_equal. lia. }
  assert (Hzm : inject_Z z == inject_Z m * 2 ^ (l - 52)).
  { unfold m. rewrite inject_Z_mult, <- (pow2_Z (52 - l)) by lia.
    rewrite <- Qmult_assoc, <- pow2_add.
    replace (52 - l + (l - 52))%Z with 0%Z by lia. change (2 ^ 0) with 1. ring. }
  rewrite Hzm. apply round64_exact; [exact Hm|lia].
Qed.

(** ** Floor and ceiling of a rank *)

Lemma Qfloor_unique (x : Q) (z : Z) :
  inject_Z z <= x -> x < inject_Z (z + 1) -> Qfloor x = z.
Proof.
  intros H1 H2.
  pose proof (Qfloor_le x) as H3. pose proof (Qlt_floor x) as H4.
  assert (inject_Z z < inject_Z (Qfloor x + 1)) by (eapply Qle_lt_trans; eauto).
  assert (inject_Z (Qfloor x) < inject_Z (z + 1)) by (eapply Qle_lt_trans; eauto).
  rewrite <- Zlt_Qlt in *. lia.
Qed.

Lemma floor_ceiling_gap (x : Q) :
  (Qfloor x <= Qceiling x <= Qfloor x + 1)%Z.
Proof.
  pose proof (Qfloor_le x) as H1. pose proof (Qlt_floor x) as H2.
  pose proof (Qle_ceiling x) as H3. pose proof (Qceiling_lt x) as H4.
  assert (inject_Z (Qfloor x) <= inject_Z (Qceiling x)) by (eapply Qle_trans; eauto).
  assert (inject_Z (Qceiling x - 1) < inject_Z (Qfloor x + 1))
    by (eapply Qlt_trans; eauto).
  rewrite <- Zle_Qle in *. rewrite <- Zlt_Qlt in *. lia.
Qed.

Lemma floor_ceiling_range (N : nat) (p : Q) :
  (0 < N)%nat -> 0 <= p -> p <= 1 ->
  let rank := inject_Z (Z.of_nat N - 1) * p in
  (0 <= Qfloor rank)%Z /\ (Qceiling rank <= Z.of_nat N - 1)%Z.
Proof.
  intros HN Hp0 Hp1 rank.
  assert (HN' : 0 <= inject_Z (Z.of_nat N - 1)).
  { change 0 with (inject_Z 0). rewrite <- Zle_Qle. lia. }
  assert (H0 : 0 <= rank) by (apply Qmult_le_0_compat; assumption).
  assert (H1 : rank <= inject_Z (Z.of_nat N - 1)).
  { unfold rank. nra. }
  split.
  - change 0%Z with (Qfloor 0). apply Qfloor_resp_le, H0.
  - rewrite <- (Qceiling_Z (Z.of_nat N - 1)). apply Qceiling_resp_le, H1.
Qed.

(** ** The midpoint quantile *)

Lemma existsb_nan_fin (qs : list Q) : existsb is_nan (map Fin qs) = false.
Proof. induction qs; simpl; auto. Qed.

Lemma round64_nonneg (q : Q) : 0 <= q -> 0 <= round64 q.
Proof. intros H. apply (round64_mono 0 q), H. Qed.

Lemma float_rank_nonneg (N : nat) (q : Q) :
  (0 < N)%nat -> 0 <= q -> 0 <= float_rank N q.
Proof.
  intros HN Hq. unfold float_rank. apply round64_nonneg.
  apply Qmult_le_0_compat; [|exact Hq].
  apply round64_nonneg. change 0 with (inject_Z 0). rewrite <- Zle_Qle. lia.
Qed.

Lemma float_rank_mono (N : nat) (q q' : Q) :
  (0 < N)%nat -> q' <= q -> float_rank N q' <= float_rank N q.
Proof.
  intros HN Hq. unfold float_rank. apply round64_mono.
  set (A := round64 (inject_Z (Z.of_nat N - 1))).
  assert (HA : 0 <= A).
  { apply round64_nonneg. change 0 with (inject_Z 0). rewrite <- Zle_Qle. lia. }
  nra.
Qed.

Lemma float_rank_proper (N : nat) (q q' : Q) :
  q == q' -> float_rank N q == float_rank N q'.
Proof. intros H. unfold float_rank. rewrite H. reflexivity. Qed.

(** The two positions of a rank that is not negative: the floor and the
    ceiling, neither beyond the last. *)
Lemma rank_positions (N : nat) (r : Q) :
  (0 < N)%nat -> 0 <= r ->
  let last := (Z.of_nat N - 1)%Z in
  (0 <= Z.min (Qfloor r) last)%Z
  /\ (Z.min (Qfloor r) last <= Z.min (Qceiling r) last)%Z
  /\ (Z.min (Qceiling r) last <= last)%Z.
Proof.
  intros HN Hr last.
  assert (Hfl : (0 <= Qfloor r)%Z).
  { change 0%Z with (Qfloor 0). apply Qfloor_resp_le, Hr. }
  pose proof (floor_ceiling_gap r). unfold last. lia.
Qed.

Lemma rank_positions_mono (N : nat) (r r' : Q) :
  r' <= r ->
  let last := (Z.of_nat N - 1)%Z in
  (Z.min (Qfloor r') last <= Z.min (Qfloor r) last)%Z
  /\ (Z.min (Qceiling r') last <= Z.min (Qceiling r) last)%Z.
Proof.
  intros H last.
  pose proof (Qfloor_resp_le _ _ H). pose proof (Qceiling_resp_le _ _ H). lia.
Qed.

Lemma lerp_zero (a b : Q) :
  lerp (Fin a) (Fin b) zero = div (add (Fin a) (Fin a)) two.
Proof.
  unfold lerp. rewrite sub_fin.
  change (geb zero half) with false. cbn iota.
  unfold fin at 1, zero. rewrite mul_fin. unfold fin at 1. rewrite !add_fin.
  unfold two, fin at 2. rewrite div_fin by reflexivity.
  apply fin_eq. rewrite !Qred_correct. field.
Qed.

Lemma lerp_half (a b : Q) :
  lerp (Fin a) (Fin b) half = div (add (Fin a) (Fin b)) two.
Proof.
  unfold lerp. rewrite sub_fin.
  change (geb half half) with true. cbn iota.
  change (sub one half) with (Fin (1 # 2)).
  unfold fin at 1. rewrite mul_fin. unfold fin at 1. rewrite sub_fin, add_fin.
  unfold two, fin at 2. rewrite div_fin by reflexivity.
  apply fin_eq. rewrite !Qred_correct. field.
Qed.

(** What NumPy interpolates, by the shape of the rank: at an integer rank
    the order statistic there, between two integers the average of the
    two order statistics, and at a rank beyond the last position the last
    order statistic. *)
Lemma quantile_lerp (ss : list Q) (r : Q) :
  (0 < length ss)%nat -> 0 <= r ->
  let N := length ss in
  let last := (Z.of_nat N - 1)%Z in
  let vi := (1 # 2) * (inject_Z (Qfloor r) + inject_Z (Qceiling r)) in
  lerp (nth (quantile_indexes N vi).1 (map Fin ss) NaN)
       (nth (quantile_indexes N vi).2 (map Fin ss) NaN)
       (quantile_gamma vi)
  = div (add (Fin (nth (Z.to_nat (Z.min (Qfloor r) last)) ss 0))
             (Fin (nth (Z.to_nat (Z.min (Qceiling r) last)) ss 0)))
        two.
Proof.
  intros HN Hr N last vi.
  set (fl := Qfloor r). set (ce := Qceiling r).
  assert (Hfl : (0 <= fl)%Z).
  { change 0%Z with (Qfloor 0). apply Qfloor_resp_le, Hr. }
  pose proof (floor_ceiling_gap r) as Hgap. fold fl ce in Hgap.
  assert (Hvi : vi == (1 # 2) * (inject_Z fl + inject_Z ce)) by reflexivity.
  assert (Hlast : inject_Z (Z.of_nat N - 1) = inject_Z last) by reflexivity.
  assert (Hcases : ce = fl \/ ce = (fl + 1)%Z) by lia.
  unfold quantile_indexes. rewrite Hlast.
  destruct Hcases as [Heq|Heq].
  - assert (Hvi' : vi == inject_Z fl) by (rewrite Hvi, Heq; field).
    assert (Hfloor : Qfloor vi = fl) by (rewrite Hvi'; apply Qfloor_Z).
    assert (Hg : quantile_gamma vi = zero).
    { unfold quantile_gamma. rewrite Hfloor.
      apply Qeq_bool_iff in Hvi'. rewrite Hvi'. reflexivity. }
    rewrite Hg, Heq.
    destruct (Qle_bool (inject_Z last) vi) eqn:Htop.
    + apply Qle_bool_iff in Htop. rewrite Hvi' in Htop.
      rewrite <- Zle_Qle in Htop. cbn [fst snd].
      replace (Z.min fl last) with last by lia.
      replace (Z.to_nat last) with (N - 1)%nat by (unfold last; lia).
      rewrite !nth_map_fin by (fold N; lia). apply lerp_zero.
    + assert (Hlt : vi < inject_Z last).
      { apply Qnot_le_lt. intros H. apply Qle_bool_iff in H. congruence. }
      rewrite Hvi' in Hlt. rewrite <- Zlt_Qlt in Hlt.
      assert (H0 : Qle_bool 0 vi = true).
      { apply Qle_bool_iff. rewrite Hvi'. change 0 with (inject_Z 0).
        rewrite <- Zle_Qle. exact Hfl. }
      rewrite H0. cbn [negb fst snd]. rewrite Hfloor.
      replace (Z.min fl last) with fl by lia.
      rewrite !nth_map_fin by (fold N; unfold last in Hlt; lia). apply lerp_zero.
  - assert (Hvi' : vi == inject_Z fl + (1 # 2)).
    { rewrite Hvi, Heq, inject_Z_plus. change (inject_Z 1) with 1. field. }
    assert (Hfloor : Qfloor vi = fl).
    { apply Qfloor_unique; rewrite Hvi'; [lra|].
      rewrite inject_Z_plus. change (inject_Z 1) with 1. lra. }
    assert (Hg : quantile_gamma vi = half).
    { unfold quantile_gamma. rewrite Hfloor.
      destruct (Qeq_bool vi (inject_Z fl)) eqn:Hb; [|reflexivity].
      apply Qeq_bool_iff in Hb. rewrite Hvi' in Hb. lra. }
    rewrite Hg.
    destruct (Qle_bool (inject_Z last) vi) eqn:Htop.
    + apply Qle_bool_iff in Htop. rewrite Hvi' in Htop.
      assert (Hle : (last <= fl)%Z).
      { destruct (Z.le_gt_cases last fl) as [H|H]; [exact H|]. exfalso.
        assert (Hc : inject_Z (fl + 1) <= inject_Z last)
          by (rewrite <- Zle_Qle; lia).
        rewrite inject_Z_plus in Hc. change (inject_Z 1) with 1 in Hc. lra. }
      cbn [fst snd].
      replace (Z.min fl last) with last by lia.
      replace (Z.min ce last) with last by lia.
      replace (Z.to_nat last) with (N - 1)%nat by (unfold last; lia).
      rewrite !nth_map_fin by (fold N; lia). apply lerp_half.
    + assert (Hlt : vi < inject_Z last).
      { apply Qnot_le_lt. intros H. apply Qle_bool_iff in H. congruence. }
      rewrite Hvi' in Hlt.
      assert (Hlt' : (fl < last)%Z).
      { destruct (Z.lt_ge_cases fl last) as [H|H]; [exact H|]. exfalso.
        assert (Hc : inject_Z last <= inject_Z fl) by (rewrite <- Zle_Qle; lia).
        lra. }
      assert (H0 : Qle_bool 0 vi = true).
      { apply Qle_bool_iff. rewrite Hvi'.
        assert (0 <= inject_Z fl)
          by (change 0 with (inject_Z 0); rewrite <- Zle_Qle; exact Hfl).
        lra. }
      rewrite H0. cbn [negb fst snd]. rewrite Hfloor.
      replace (Z.min fl last) with fl by lia.
      replace (Z.min ce last) with (fl + 1)%Z by lia.
      rewrite !nth_map_fin by (fold N; unfold last in Hlt'; lia). apply lerp_half.
Qed.

(** The average of the two order statistics of a rank is a number. *)
Lemma midpoint_at_rank_value (qs ss : list Q) (r : Q) :
  sort (map Fin qs) = map Fin ss -> length ss = length qs ->
  (0 < length qs)%nat -> 0 <= r ->
  let last := (Z.of_nat (length qs) - 1)%Z in
  exists c,
    midpoint_at_rank (map Fin qs) r = Fin c
    /\ c == (nth (Z.to_nat (Z.min (Qfloor r) last)) ss 0
             + nth (Z.to_nat (Z.min (Qceiling r) last)) ss 0) / 2.
Proof.
  intros Hss Hlen HN Hr last.
  destruct (rank_positions (length qs) r HN Hr) as [H0 [H1 H2]]. fold last in H0, H1, H2.
  unfold midpoint_at_rank, order_statistic. rewrite length_map. fold last.
  rewrite Hss, !nth_map_fin by (unfold last in *; lia).
  rewrite add_fin. unfold two, fin at 1. rewrite div_fin by reflexivity.
  eexists. split; [reflexivity|]. rewrite !Qred_correct. reflexivity.
Qed.

(** NumPy's midpoint quantile of a non-empty vector of finite numbers is
    the average of the order statistics at the floor and at the ceiling of
    the rank it computes, [(N - 1) * q] rounded. *)
Lemma quantile_midpoint_rank (qs : list Q) (q : Q) :
  qs <> [] -> 0 <= q -> q <= 1 ->
  quantile_midpoint (map Fin qs) (Fin q)
  = Ok (midpoint_at_rank (map Fin qs) (float_rank (length qs) q)).
Proof.
  intros Hne Hq0 Hq1.
  assert (HN : (0 < length qs)%nat) by (destruct qs; [congruence|simpl; lia]).
  unfold quantile_midpoint.
  apply Qle_bool_iff in Hq0 as Hb0. apply Qle_bool_iff in Hq1 as Hb1.
  rewrite Hb0, Hb1. cbn [andb].
  destruct (map Fin qs) as [|x v] eqn:Hv; [destruct qs; [congruence|discriminate]|].
  rewrite <- Hv. clear x v Hv.
  rewrite existsb_nan_fin, length_map.
  destruct (sort_fin qs) as [ss [Hss [Hsorted Hperm]]].
  assert (Hlen : length ss = length qs) by (rewrite Hperm; reflexivity).
  pose proof (float_rank_nonneg (length qs) q HN Hq0) as Hr.
  pose proof (quantile_lerp ss (float_rank (length qs) q)) as Hl.
  rewrite Hlen in Hl. specialize (Hl HN Hr). cbn zeta in Hl.
  unfold virtual_index. rewrite Hss.
  destruct (quantile_indexes _ _) as [previous next]. cbn [fst snd] in Hl.
  rewrite Hl. f_equal.
  destruct (rank_positions (length qs) (float_rank (length qs) q) HN Hr)
    as [H0 [H1 H2]].
  unfold midpoint_at_rank, order_statistic. rewrite length_map, Hss.
  rewrite !nth_map_fin by lia. reflexivity.
Qed.

(** Where the rank is computed without rounding, the average is the one
    of the exact rank. *)
Lemma midpoint_at_exact_rank (v : vec) (r p : Q) :
  (0 < length v)%nat -> 0 <= p -> p <= 1 ->
  r == inject_Z (Z.of_nat (length v) - 1) * p ->
  midpoint_at_rank v r = midpoint_quantile v p.
Proof.
  intros HN Hp0 Hp1 Hr.
  destruct (floor_ceiling_range (length v) p HN Hp0 Hp1) as [Hfl Hce].
  pose proof (floor_ceiling_gap (inject_Z (Z.of_nat (length v) - 1) * p)) as Hgap.
  unfold midpoint_at_rank, midpoint_quantile. rewrite Hr.
  rewrite !Z.min_l by lia. reflexivity.
Qed.

(** ** The bootstrap statistic [sn_star] *)

Lemma sn_entry_eq (x : num) :
  mul minus_one (clip_max zero x) = clip_min zero (neg x).
Proof.
  destruct x as [| |a|]; try reflexivity.
  unfold clip_max, clip_min, neg, zero, minus_one. cbn [minimum maximum leb fin].
  destruct (Qle_bool a 0) eqn:Ha, (Qle_bool (Qred (- a)) 0) eqn:Hn.
  - apply Qle_bool_iff in Ha, Hn. rewrite Qred_correct in Hn.
    rewrite mul_fin. change (Fin 0) with (fin 0). apply fin_eq. lra.
  - rewrite mul_fin. apply fin_eq. ring.
  - reflexivity.
  - exfalso. apply (proj1 (leb_fin_false _ _)) in Ha.
    assert (Hn' : 0 < Qred (- a)) by (apply (proj1 (leb_fin_false _ _)); exact Hn).
    rewrite Qred_correct in Hn'. lra.
Qed.

Lemma sn_star_of_spec (tn_vec : matrix) (an : vec) :
  sn_star_of tn_vec an = sn_star_spec tn_vec an.
Proof.
  unfold sn_star_of, sn_star_spec. f_equal.
  revert an. induction tn_vec as [|row tn IH]; intros [|a an]; cbn [zip_with];
    try reflexivity.
  rewrite IH. f_equal. apply map_ext. intros t. apply sn_entry_eq.
Qed.

Lemma gms_cases (x : num) : gms x = zero \/ gms x = PInf.
Proof. unfold gms. destruct (gtb x one); auto. Qed.

Lemma add_upper (t a : num) :
  fin_or_pinf t = true -> fin_or_pinf a = true -> fin_or_pinf (add t a) = true.
Proof. destruct t, a; simpl; congruence. Qed.

Lemma sn_entry_fin (x : num) :
  fin_or_pinf x = true -> exists c, mul minus_one (clip_max zero x) = Fin c.
Proof.
  destruct x as [| |a|]; try discriminate; intros _.
  - destruct (r_hat_entry_fin a) as [c [Hc _]]. eauto.
  - exists 0. reflexivity.
Qed.

Lemma zip_with_fin (g : num -> num -> num) (qs ms : list Q) :
  (forall a b, exists c, g (Fin a) (Fin b) = Fin c) ->
  exists cs, zip_with g (map Fin qs) (map Fin ms) = map Fin cs
             /\ length cs = Nat.min (length qs) (length ms).
Proof.
  intros Hg. revert ms. induction qs as [|a qs IH]; intros [|b ms];
    cbn [map zip_with]; try (exists []; split; reflexivity).
  destruct (Hg a b) as [c ->]. destruct (IH ms) as [cs [-> Hlen]].
  exists (c :: cs). split; [reflexivity|simpl; lia].
Qed.

Lemma zip_add_upper (cs : list Q) (phi : vec) :
  Forall (fun x => x = zero \/ x = PInf) phi ->
  forallb fin_or_pinf (zip_with add (map Fin cs) phi) = true
  /\ length (zip_with add (map Fin cs) phi) = Nat.min (length cs) (length phi).
Proof.
  intros Hphi. revert cs. induction Hphi as [|x phi Hx _ IH]; intros [|c cs];
    cbn [map zip_with]; try (split; reflexivity).
  destruct (IH cs) as [IH1 IH2]. split; [|simpl; lia].
  cbn [forallb]. rewrite IH1. destruct Hx as [-> | ->]; reflexivity.
Qed.

Lemma sn_star_fin (k : nat) (tn : matrix) (an : vec) :
  (1 <= k)%nat ->
  Forall (fun row => length row = k /\ forallb fin_or_pinf row = true) tn ->
  forallb fin_or_pinf an = true -> length an = length tn ->
  exists qs, sn_star_of tn an = Ok (map Fin qs) /\ length qs = length tn.
Proof.
  intros Hk Htn. unfold sn_star_of, max_axis1. revert an.
  induction Htn as [|row tn [Hl Hrow] _ IH]; intros [|a an] Han Hlen;
    try discriminate.
  - exists []. split; reflexivity.
  - cbn [forallb] in Han. apply andb_prop in Han as [Ha Han].
    destruct (IH an Han) as [qs [Hqs Hlq]]; [simpl in Hlen; lia|].
    cbn [zip_with rmapM]. rewrite Hqs.
    assert (Hcs : exists cs, map (fun t => mul minus_one (clip_max zero (add t a))) row
                             = map Fin cs /\ cs <> []).
    { clear - Hl Hrow Ha Hk. revert k Hl Hk.
      induction row as [|t row IH]; intros k Hl Hk; [simpl in Hl; lia|].
      cbn [forallb] in Hrow. apply andb_prop in Hrow as [Ht Hrow].
      destruct (sn_entry_fin (add t a) (add_upper t a Ht Ha)) as [c Hc].
      destruct row as [|t' row].
      - exists [c]. cbn [map]. rewrite Hc. split; [reflexivity|discriminate].
      - destruct (IH Hrow (length (t' :: row)) eq_refl) as [cs [Hcs _]];
          [simpl; lia|].
        exists (c :: cs). cbn [map] in *. rewrite Hc, Hcs.
        split; [reflexivity|discriminate]. }
    destruct Hcs as [cs [-> Hne]].
    destruct (np_max_fin cs Hne) as [c [-> _]]. cbn [rbind].
    exists (c :: qs). split; [reflexivity|simpl; lia].
Qed.

Section Statistic.

Context {E : Env}.

Lemma tn_star_of_upper (X : matrix) (std_b1 : vec) (kappa_n : num)
    (ix : list (list nat)) :
  well_formed X ix = true -> length std_b1 = length (m_hat X) ->
  exists tn, tn_star_of X std_b1 kappa_n ix = Ok tn
             /\ length tn = length ix
             /\ Forall (fun row => length row = length (m_hat X)
                                   /\ forallb fin_or_pinf row = true) tn.
Proof.
  intros Hwf Hb1.
  apply well_formed_inv in Hwf as [Hk [Hfin [Hsq [Xs [HXs [HlenXs Hagg]]]]]].
  apply is_fin_inv in Hsq as [sigma Hsigma].
  apply forallb_is_fin in Hfin as [m0 Hm0].
  unfold tn_star_of. rewrite Hsigma.
  destruct (np_max_total (r_hat_vec_of (m_hat X))) as [r_hat ->].
  { unfold r_hat_vec_of. apply map_nonempty.
    destruct (m_hat X); [simpl in Hk; lia|congruence]. }
  cbn [rbind]. rewrite HXs. cbn [rbind].
  eexists. split; [reflexivity|]. unfold centred, m_hat_axis1.
  split; [rewrite !length_map; exact HlenXs|].
  apply Forall_forall. intros row Hrow.
  apply list_elem_of_In, in_map_iff in Hrow as [v [<- Hv]].
  apply in_map_iff in Hv as [ms [<- Hms]].
  apply in_map_iff in Hms as [X' [<- HX']].
  rewrite Forall_forall in Hagg.
  destruct (Hagg X' (proj2 (list_elem_of_In _ _) HX')) as [Hl Hf].
  apply forallb_is_fin in Hf as [qs Hqs].
  rewrite Hqs, Hm0 in *. rewrite !length_map in *.
  destruct (zip_with_fin (fun a b => mul (Fin sigma) (sub a b)) qs m0)
    as [cs [-> Hcs]].
  { intros a b. apply scale_sub_fin. }
  destruct (zip_add_upper cs
              (map gms (zip_with
                          (fun m s => div (mul (Fin sigma) (add m r_hat))
                                          (mul s kappa_n))
                          (map Fin m0) std_b1))) as [H1 H2].
  { apply Forall_forall. intros x Hx.
    apply list_elem_of_In, in_map_iff in Hx as [y [<- _]]. apply gms_cases. }
  split; [|exact H1].
  rewrite H2, length_map, length_zip_with, length_map. lia.
Qed.

Lemma sn_star_total (X : matrix) (ix : list (list nat)) (an : vec)
    (kappa_n : num) :
  well_formed X ix = true -> ix <> [] ->
  length an = length ix -> forallb fin_or_pinf an = true ->
  exists b0 tn qs,
    std_b_of X ix = Ok b0
    /\ tn_star_of X (nth 0 b0 []) kappa_n ix = Ok tn
    /\ sn_star_of tn an = Ok (map Fin qs)
    /\ length qs = length ix.
Proof.
  intros Hwf Hne Han Hup.
  destruct (std_b_terms_fin X ix Hwf)
    as (Xs & v1 & v2 & v3 & HXs & HlenXs & Hterms & _ & Hstar & _).
  assert (Hw : width (ncols X) (m_hat_axis1 Xs) = length (m_hat X)).
  { apply width_of_rows; [|exact Hstar].
    unfold m_hat_axis1. destruct Xs; [|discriminate].
    destruct ix; [congruence|discriminate]. }
  unfold std_b_of. rewrite Hterms. cbn [rbind]. rewrite Hw.
  eexists. cbn [nth].
  destruct (tn_star_of_upper X
              (map (clip_min iota) (std_axis0 (length (m_hat X)) v1)) kappa_n ix Hwf)
    as [tn [Htn [Hltn Hrows]]].
  { unfold std_axis0, columns. rewrite !length_map, length_seq. reflexivity. }
  pose proof Hwf as Hwf'. apply well_formed_inv in Hwf' as [Hk _].
  destruct (sn_star_fin _ tn an Hk Hrows Hup) as [qs [Hqs Hlq]]; [lia|].
  exists tn, qs. split; [reflexivity|]. split; [exact Htn|].
  split; [exact Hqs|lia].
Qed.

End Statistic.

Lemma avg_mono (x y x' y' : Q) :
  x' <= x -> y' <= y -> (x' + y') / 2 <= (x + y) / 2.
Proof.
  intros Hx Hy. unfold Qdiv. apply Qmult_le_compat_r; [lra|discriminate].
Qed.

Lemma one_minus_fin (a : Q) : sub one (Fin a) = Fin (Qred (1 - a)).
Proof. unfold one. rewrite sub_fin. reflexivity. Qed.

(** ** The level [1 - alpha] *)

Lemma level_complement_fin (a : Q) :
  level_complement (Fin a) = Fin (Qred (round64 (Qred (1 - a)))).
Proof. unfold level_complement. rewrite one_minus_fin. reflexivity. Qed.

Lemma level_value (a : Q) : Qred (round64 (Qred (1 - a))) == round64 (1 - a).
Proof. rewrite Qred_correct. apply round64_proper, Qred_correct. Qed.

(** A level in [0, 1] has its complement in [0, 1]. *)
Lemma level_in_range (a : Q) :
  0 <= a -> a <= 1 -> 0 <= round64 (1 - a) /\ round64 (1 - a) <= 1.
Proof.
  intros H0 H1. split.
  - apply round64_nonneg. lra.
  - assert (H : round64 (1 - a) <= round64 1) by (apply round64_mono; lra).
    pose proof round64_1. lra.
Qed.

Section CriticalValue.

Context {E : Env}.

(** In every bootstrap configuration [cvalue_SPUR1] ends in the quantile of
    the statistic as the specification words it. *)
Lemma cvalue_of_wording (alpha : num) (an : vec) (tn_vec : matrix) :
  cvalue_of alpha an tn_vec
  = rbind (sn_star_spec tn_vec an)
          (fun sn_star_vec =>
             quantile_midpoint sn_star_vec (level_complement alpha)).
Proof. unfold cvalue_of. rewrite sn_star_of_spec. reflexivity. Qed.

Lemma cvalue_on_value (X : matrix) (a : Q) (an : vec) (ix : list (list nat)) :
  0 <= a -> a <= 1 -> ix <> [] -> well_formed X ix = true ->
  length an = length ix -> forallb fin_or_pinf an = true ->
  exists std_b0 tn_vec qs,
    std_b_of X ix = Ok std_b0
    /\ tn_star_of X (nth 0 std_b0 []) (np_sqrt (np_log (of_nat (nrows X)))) ix
       = Ok tn_vec
    /\ sn_star_of tn_vec an = Ok (map Fin qs)
    /\ length qs = length ix
    /\ cvalue_on X (Fin a) an ix
       = Ok (midpoint_at_rank (map Fin qs)
               (float_rank (length ix) (round64 (1 - a)))).
Proof.
  intros Ha0 Ha1 Hne Hwf Han Hup.
  destruct (sn_star_total X ix an (np_sqrt (np_log (of_nat (nrows X))))
              Hwf Hne Han Hup) as (b0 & tn & qs & Hb0 & Htn & Hsn & Hlen).
  exists b0, tn, qs. repeat (split; [assumption|]).
  destruct (level_in_range a Ha0 Ha1) as [Hq0 Hq1].
  unfold cvalue_on. rewrite Hb0. cbn [rbind]. rewrite Htn. cbn [rbind].
  unfold cvalue_of. rewrite Hsn. cbn [rbind].
  rewrite level_complement_fin, quantile_midpoint_rank.
  - f_equal. unfold midpoint_at_rank.
    rewrite (float_rank_proper _ _ _ (level_value a)), Hlen. reflexivity.
  - destruct qs; [|congruence]. destruct ix; [congruence|discriminate].
  - rewrite level_value. exact Hq0.
  - rewrite level_value. exact Hq1.
Qed.

(** C4, as amended.  On well-formed input with an explicit index matrix of
    at least one row, the vector whose entry for a replication is the
    maximum over the moments of [-(tn_star + An)] clipped below at 0 has one
    finite entry per replication, and [cvalue_SPUR1] returns the average of
    its two order statistics at the floor and at the ceiling of the rank
    as the code computes it: [1 - alpha] rounded to a float, times [B - 1],
    rounded again.  Where neither rounding changes the number, this is the
    average at the floor and the ceiling of [(B - 1) * (1 - alpha)]. *)
Theorem critical_value_midpoint_quantile
    (X : matrix) (a : Q) (an : vec) (ix : list (list nat)) r sd s :
  0 <= a -> a <= 1 -> ix <> [] -> well_formed X ix = true ->
  length an = length ix -> forallb fin_or_pinf an = true ->
  exists std_b0 tn_vec sn_star_vec,
    std_b_of X ix = Ok std_b0
    /\ tn_star_of X (nth 0 std_b0 [])
                  (np_sqrt (np_log (of_nat (nrows X)))) ix = Ok tn_vec
    /\ sn_star_spec tn_vec an = Ok sn_star_vec
    /\ length sn_star_vec = length ix
    /\ forallb is_fin sn_star_vec = true
    /\ cvalue_SPUR1 X (Fin a) an r sd (Some ix) s
       = (Ok (midpoint_at_rank sn_star_vec
                (float_rank (length ix) (round64 (1 - a)))), s)
    /\ (float_rank (length ix) (round64 (1 - a))
        == inject_Z (Z.of_nat (length ix) - 1) * (1 - a) ->
        cvalue_SPUR1 X (Fin a) an r sd (Some ix) s
        = (Ok (midpoint_quantile sn_star_vec (1 - a)), s)).
Proof.
  intros Ha0 Ha1 Hne Hwf Han Hup.
  destruct (cvalue_on_value X a an ix Ha0 Ha1 Hne Hwf Han Hup)
    as (b0 & tn & qs & Hb0 & Htn & Hsn & Hlen & Hc).
  exists b0, tn, (map Fin qs). split; [exact Hb0|]. split; [exact Htn|].
  split; [rewrite <- sn_star_of_spec; exact Hsn|].
  split; [rewrite length_map; exact Hlen|].
  split; [apply forallb_is_fin; eauto|].
  rewrite cvalue_explicit, Hc. split; [reflexivity|].
  intros Hexact. do 2 f_equal.
  apply midpoint_at_exact_rank.
  - rewrite length_map, Hlen. destruct ix; [congruence|simpl; lia].
  - lra.
  - lra.
  - rewrite length_map, Hlen. exact Hexact.
Qed.

(** C8.  For a fixed well-formed [X_data], a penalty vector with one entry
    per replication, none of them NaN or [-inf], and an explicit index
    matrix of at least one row, [cvalue_SPUR1] returns a number at every
    level in (0, 1), and the number at [alpha] is at least the number at
    any larger level [alpha']. *)
Theorem critical_value_antitone
    (X : matrix) (a a' : Q) (an : vec) (ix : list (list nat)) r sd s :
  0 < a -> a < a' -> a' < 1 ->
  ix <> [] -> well_formed X ix = true ->
  length an = length ix -> forallb fin_or_pinf an = true ->
  exists c c',
    cvalue_SPUR1 X (Fin a) an r sd (Some ix) s = (Ok (Fin c), s)
    /\ cvalue_SPUR1 X (Fin a') an r sd (Some ix) s = (Ok (Fin c'), s)
    /\ geb (Fin c) (Fin c') = true.
Proof.
  intros Ha Haa Ha' Hne Hwf Han Hup.
  destruct (cvalue_on_value X a an ix) as (b0 & tn & qs & Hb0 & Htn & Hsn & Hlen & Hc);
    try assumption; try lra.
  destruct (cvalue_on_value X a' an ix)
    as (b0' & tn' & qs' & Hb0' & Htn' & Hsn' & _ & Hc');
    try assumption; try lra.
  rewrite Hb0 in Hb0'. injection Hb0' as <-.
  rewrite Htn in Htn'. injection Htn' as <-.
  rewrite Hsn in Hsn'. injection Hsn' as Hqs.
  rewrite <- Hqs in Hc'. clear qs' Hqs.
  destruct (sort_fin qs) as [ss [Hss [Hsorted Hperm]]].
  assert (Hls : length ss = length qs) by (rewrite Hperm; reflexivity).
  assert (HN : (0 < length qs)%nat).
  { rewrite Hlen. destruct ix; [congruence|simpl; lia]. }
  assert (HB : (0 < length ix)%nat) by (rewrite <- Hlen; exact HN).
  set (rk := float_rank (length ix) (round64 (1 - a))) in *.
  set (rk' := float_rank (length ix) (round64 (1 - a'))) in *.
  assert (Hr : 0 <= rk).
  { apply float_rank_nonneg; [exact HB|]. apply round64_nonneg. lra. }
  assert (Hr' : 0 <= rk').
  { apply float_rank_nonneg; [exact HB|]. apply round64_nonneg. lra. }
  assert (Hrr : rk' <= rk).
  { apply float_rank_mono; [exact HB|]. apply round64_mono. lra. }
  destruct (midpoint_at_rank_value qs ss rk Hss Hls HN Hr) as [c [Hmc Hcv]].
  destruct (midpoint_at_rank_value qs ss rk' Hss Hls HN Hr') as [c' [Hmc' Hcv']].
  exists c, c'. rewrite !cvalue_explicit, Hc, Hc', Hmc, Hmc'.
  split; [reflexivity|]. split; [reflexivity|].
  unfold geb. apply leb_fin. rewrite Hcv, Hcv'.
  destruct (rank_positions (length qs) rk HN Hr) as [P0 [P1 P2]].
  destruct (rank_positions (length qs) rk' HN Hr') as [P0' [P1' P2']].
  destruct (rank_positions_mono (length qs) rk rk' Hrr) as [M1 M2].
  apply avg_mono; apply sorted_nth; try exact Hsorted; lia.
Qed.

End CriticalValue.

(** * Further properties

    What the code shows beyond the statements of the specification: the
    errors and the edge cases of each function, the invariants of what it
    returns, its effect on the generator, and how the functions compose. *)

(** ** The observed statistic [rhat] *)

(** A violation [-1 * clip(x, max=0)] of a finite number: 0 where the
    number is not negative, its negation where it is not positive. *)
Lemma violation_fin (a : Q) :
  exists c, mul minus_one (clip_max zero (Fin a)) = Fin c
            /\ ((0 <= a /\ c == 0) \/ (a <= 0 /\ c == - a)).
Proof.
  unfold clip_max, zero, minus_one. cbn [minimum leb].
  destruct (Qle_bool a 0) eqn:Ha.
  - apply Qle_bool_iff in Ha. rewrite mul_fin.
    destruct (fin_red (-1 * a)) as [c [-> Hc]]. exists c.
    split; [reflexivity|]. right. split; [exact Ha|]. rewrite Hc. ring.
  - apply (proj1 (leb_fin_false _ _)) in Ha. exists 0.
    split; [reflexivity|]. left. split; [lra|reflexivity].
Qed.

Lemma violation_add_zero (x : num) :
  mul minus_one (clip_max zero (add x zero))
  = mul minus_one (clip_max zero x).
Proof.
  destruct x as [| |a|]; try reflexivity.
  unfold zero. rewrite add_fin. unfold fin, clip_max, minus_one.
  cbn [minimum leb].
  destruct (Qle_bool (Qred (a + 0)) 0) eqn:H1, (Qle_bool a 0) eqn:H2.
  - rewrite !mul_fin. apply fin_eq. rewrite Qred_correct. ring.
  - apply Qle_bool_iff in H1. apply (proj1 (leb_fin_false _ _)) in H2.
    rewrite Qred_correct in H1. lra.
  - apply Qle_bool_iff in H2. apply (proj1 (leb_fin_false _ _)) in H1.
    rewrite Qred_correct in H1. lra.
  - reflexivity.
Qed.

Lemma violations_fin (vs : list Q) :
  exists cs, map (fun x => mul minus_one (clip_max zero x)) (map Fin vs) = map Fin cs
             /\ Forall2 (fun v c => (0 <= v /\ c == 0) \/ (v <= 0 /\ c == - v)) vs cs.
Proof.
  induction vs as [|v vs [cs [Hcs Hrel]]].
  - exists []. split; [reflexivity|constructor].
  - destruct (violation_fin v) as [c [Hc Hv]]. exists (c :: cs).
    cbn [map]. rewrite Hc. cbn [map] in Hcs. rewrite Hcs.
    split; [reflexivity|constructor; assumption].
Qed.

Section Observed.

Context {E : Env}.

Variable m_function_all :
  matrix -> matrix -> vec -> matrix -> num -> option matrix -> matrix.

Lemma rhat_of_value (X : matrix) (adjust : vec) (vs : list Q) :
  broadcast_add (m_hat X) adjust = Ok (map Fin vs) -> vs <> [] ->
  exists c,
    rhat_of X adjust = Ok (Fin c)
    /\ 0 <= c
    /\ Forall (fun v => - v <= c) vs
    /\ (c == 0 \/ exists v, v ∈ vs /\ c == - v)
    /\ (c == 0 <-> Forall (fun v => 0 <= v) vs).
Proof.
  intros Hb Hne. unfold rhat_of. rewrite Hb. cbn [rbind].
  destruct (violations_fin vs) as [cs [-> Hrel]].
  assert (Hcne : cs <> []).
  { intros ->. inversion Hrel. congruence. }
  destruct (np_max_fin cs Hcne) as [c [-> [Hin Hall]]].
  exists c. split; [reflexivity|].
  apply list_elem_of_lookup in Hin as [i Hi].
  destruct (Forall2_lookup_r _ _ _ _ _ Hrel Hi) as [v [Hv Hvc]].
  assert (Hc0 : 0 <= c) by (destruct Hvc as [[_ ->]|[H ->]]; lra).
  split; [exact Hc0|]. split; [|split].
  - apply Forall_forall. intros w Hw.
    apply list_elem_of_lookup in Hw as [j Hj].
    destruct (Forall2_lookup_l _ _ _ _ _ Hrel Hj) as [d [Hd Hwd]].
    rewrite Forall_forall in Hall.
    specialize (Hall d (list_elem_of_lookup_2 _ _ _ Hd)).
    destruct Hwd as [[Hw0 Hd0]|[Hw0 Hd0]]; lra.
  - destruct Hvc as [[_ H]|[_ H]]; [left; exact H|].
    right. exists v. split; [eapply list_elem_of_lookup_2, Hv|exact H].
  - split.
    + intros Hz. apply Forall_forall. intros w Hw.
      apply list_elem_of_lookup in Hw as [j Hj].
      destruct (Forall2_lookup_l _ _ _ _ _ Hrel Hj) as [d [Hd Hwd]].
      rewrite Forall_forall in Hall.
      specialize (Hall d (list_elem_of_lookup_2 _ _ _ Hd)).
      destruct Hwd as [[Hw0 Hd0]|[Hw0 Hd0]]; lra.
    + intros Hpos. rewrite Forall_forall in Hpos.
      specialize (Hpos v (list_elem_of_lookup_2 _ _ _ Hv)).
      destruct Hvc as [[_ H]|[H1 H]]; [exact H|]. rewrite H. lra.
Qed.

(** X1.  When the adjusted aggregates [m_hat0 + adjust] are finite and at
    least one in number, [rhat] returns a number that is not negative, is
    at least the negation of every adjusted aggregate, and is 0 or the
    negation of one of them: the largest one-sided violation. *)
Theorem rhat_largest_violation W A theta J0 V IV g (adjust : vec) (vs : list Q) :
  broadcast_add (m_hat (moments_at m_function_all W A theta J0 V IV g)) adjust
  = Ok (map Fin vs) ->
  vs <> [] ->
  exists c,
    rhat m_function_all W A theta J0 V IV g adjust = Ok (Fin c)
    /\ 0 <= c
    /\ Forall (fun v => - v <= c) vs
    /\ (c == 0 \/ exists v, v ∈ vs /\ c == - v).
Proof.
  intros Hb Hne. unfold rhat.
  destruct (rhat_of_value _ adjust vs Hb Hne) as [c [Hc [H0 [H1 [H2 _]]]]].
  exists c. auto.
Qed.

(** X2.  Under the same conditions [rhat] is 0 exactly when no adjusted
    aggregate is negative. *)
Theorem rhat_zero_iff_no_violation W A theta J0 V IV g (adjust : vec) (vs : list Q) :
  broadcast_add (m_hat (moments_at m_function_all W A theta J0 V IV g)) adjust
  = Ok (map Fin vs) ->
  vs <> [] ->
  exists c,
    rhat m_function_all W A theta J0 V IV g adjust = Ok (Fin c)
    /\ (c == 0 <-> Forall (fun v => 0 <= v) vs).
Proof.
  intros Hb Hne. unfold rhat.
  destruct (rhat_of_value _ adjust vs Hb Hne) as [c [Hc [_ [_ [_ H]]]]].
  exists c. auto.
Qed.

Lemma broadcast_add_default (m : vec) :
  broadcast_add m adjust_default = Ok (map (fun x => add x zero) m).
Proof.
  unfold broadcast_add, adjust_default.
  destruct m as [|x [|y m]]; reflexivity.
Qed.

Lemma broadcast_add_zeros (m : vec) :
  broadcast_add m (replicate (length m) zero) = Ok (map (fun x => add x zero) m).
Proof.
  unfold broadcast_add. rewrite length_replicate, Nat.eqb_refl. f_equal.
  induction m as [|x m IH]; [reflexivity|]. cbn [length replicate zip_with map].
  rewrite IH. reflexivity.
Qed.

(** X3.  With [adjust] left at its default, and with a vector of zeros of
    full length, [rhat] is the largest violation [r_hat] that [tn_star] and
    [an_star] compute from the aggregates: [np.max] of [r_hat_vec]. *)
Theorem rhat_default_adjust W A theta J0 V IV g :
  let X_data := moments_at m_function_all W A theta J0 V IV g in
  rhat m_function_all W A theta J0 V IV g adjust_default
  = np_max (r_hat_vec_of (m_hat X_data))
  /\ rhat m_function_all W A theta J0 V IV g
          (replicate (length (m_hat X_data)) zero)
     = np_max (r_hat_vec_of (m_hat X_data)).
Proof.
  intros X_data. unfold rhat, rhat_of. fold X_data.
  rewrite broadcast_add_default, broadcast_add_zeros. cbn [rbind].
  rewrite map_map.
  rewrite (map_ext _ (fun x => mul minus_one (clip_max zero x)))
    by (intros; apply violation_add_zero).
  split; reflexivity.
Qed.

Lemma broadcast_add_mono (ms adj adj' : list Q) :
  ms <> [] -> adj <> [] ->
  length adj = length ms \/ length adj = 1%nat \/ length ms = 1%nat ->
  Forall2 Qle adj adj' ->
  exists vs vs',
    broadcast_add (map Fin ms) (map Fin adj) = Ok (map Fin vs)
    /\ broadcast_add (map Fin ms) (map Fin adj') = Ok (map Fin vs')
    /\ Forall2 Qle vs vs' /\ vs <> [].
Proof.
  intros Hms Hadj Hlen Hle.
  pose proof (Forall2_length _ _ _ Hle) as Hl'.
  assert (Hzip : forall ms0 a0 a0', Forall2 Qle a0 a0' -> length ms0 = length a0 ->
            exists vs vs',
              zip_with add (map Fin ms0) (map Fin a0) = map Fin vs
              /\ zip_with add (map Fin ms0) (map Fin a0') = map Fin vs'
              /\ Forall2 Qle vs vs' /\ length vs = length ms0).
  { intros ms0 a0 a0' H. revert ms0.
    induction H as [|y y' a0 a0' Hy _ IH]; intros [|m ms0] Hl; try discriminate.
    - exists [], []. repeat apply conj; try reflexivity; constructor.
    - injection Hl as Hl. destruct (IH ms0 Hl) as [vs [vs' [H1 [H2 [H3 H4]]]]].
      exists (Qred (m + y) :: vs), (Qred (m + y') :: vs').
      cbn [map zip_with]. rewrite H1, H2, !add_fin. unfold fin.
      repeat apply conj; try reflexivity.
      + constructor; [|exact H3]. rewrite !Qred_correct. lra.
      + simpl. rewrite H4. reflexivity. }
  assert (Hl : forall m a0 a0', Forall2 Qle a0 a0' ->
            exists vs vs',
              map (add (Fin m)) (map Fin a0) = map Fin vs
              /\ map (add (Fin m)) (map Fin a0') = map Fin vs'
              /\ Forall2 Qle vs vs' /\ length vs = length a0).
  { intros m a0 a0' H.
    induction H as [|y y' a0 a0' Hy _ [vs [vs' [H1 [H2 [H3 H4]]]]]].
    - exists [], []. repeat apply conj; try reflexivity; constructor.
    - exists (Qred (m + y) :: vs), (Qred (m + y') :: vs').
      cbn [map]. rewrite H1, H2, !add_fin. unfold fin.
      repeat apply conj; try reflexivity.
      + constructor; [|exact H3]. rewrite !Qred_correct. lra.
      + simpl. rewrite H4. reflexivity. }
  assert (Hr : forall y y' ms0, y <= y' ->
            exists vs vs',
              map (fun x => add x (Fin y)) (map Fin ms0) = map Fin vs
              /\ map (fun x => add x (Fin y')) (map Fin ms0) = map Fin vs'
              /\ Forall2 Qle vs vs' /\ length vs = length ms0).
  { intros y y' ms0 Hy.
    induction ms0 as [|m ms0 [vs [vs' [H1 [H2 [H3 H4]]]]]].
    - exists [], []. repeat apply conj; try reflexivity; constructor.
    - exists (Qred (m + y) :: vs), (Qred (m + y') :: vs').
      cbn [map]. rewrite H1, H2, !add_fin. unfold fin.
      repeat apply conj; try reflexivity.
      + constructor; [|exact H3]. rewrite !Qred_correct. lra.
      + simpl. rewrite H4. reflexivity. }
  assert (Hnil : forall (l : list Q) n, length l = n -> (0 < n)%nat -> l <> []).
  { intros l n <- H ->. simpl in H. lia. }
  assert (Hpos : (0 < length ms)%nat) by (destruct ms; [congruence|simpl; lia]).
  assert (Hpos' : (0 < length adj)%nat) by (destruct adj; [congruence|simpl; lia]).
  unfold broadcast_add. rewrite !length_map, <- Hl'.
  destruct (length ms =? length adj)%nat eqn:He.
  - apply Nat.eqb_eq in He.
    destruct (Hzip ms adj adj' Hle He) as [vs [vs' [H1 [H2 [H3 H4]]]]].
    exists vs, vs'. rewrite H1, H2. repeat apply conj; try reflexivity; eauto.
  - apply Nat.eqb_neq in He.
    destruct Hlen as [H|[H|H]]; [congruence| |].
    + destruct Hle as [|y y' a0 a0' Hy Ha0]; [discriminate|].
      destruct Ha0; [|discriminate].
      destruct (Hr y y' ms Hy) as [vs [vs' [H1 [H2 [H3 H4]]]]].
      exists vs, vs'. cbn [map].
      destruct ms as [|m [|m' ms]]; [congruence|simpl in He; congruence|].
      cbn [map] in *. rewrite H1, H2.
      repeat apply conj; try reflexivity; eauto.
    + destruct ms as [|m [|m' ms]]; try discriminate.
      destruct (Hl m adj adj' Hle) as [vs [vs' [H1 [H2 [H3 H4]]]]].
      exists vs, vs'. cbn [map]. rewrite H1, H2.
      repeat apply conj; try reflexivity; eauto.
Qed.

(** X4.  [rhat] is antitone in [adjust]: for finite aggregates and two
    finite adjustments of the same admissible shape, the second at least
    the first entry by entry, the statistic under the second is at most the
    statistic under the first. *)
Theorem rhat_antitone_in_adjust W A theta J0 V IV g (ms adj adj' : list Q) :
  m_hat (moments_at m_function_all W A theta J0 V IV g) = map Fin ms ->
  ms <> [] -> adj <> [] ->
  length adj = length ms \/ length adj = 1%nat \/ length ms = 1%nat ->
  Forall2 Qle adj adj' ->
  exists c c',
    rhat m_function_all W A theta J0 V IV g (map Fin adj) = Ok (Fin c)
    /\ rhat m_function_all W A theta J0 V IV g (map Fin adj') = Ok (Fin c')
    /\ c' <= c.
Proof.
  intros Hm Hms Hadj Hlen Hle. unfold rhat.
  destruct (broadcast_add_mono ms adj adj' Hms Hadj Hlen Hle)
    as [vs [vs' [H1 [H2 [H3 H4]]]]].
  rewrite <- Hm in H1, H2.
  assert (H4' : vs' <> []).
  { intros ->. inversion H3. congruence. }
  destruct (rhat_of_value _ _ vs H1 H4) as [c [Hc [Hc0 [Hall _]]]].
  destruct (rhat_of_value _ _ vs' H2 H4') as [c' [Hc' [_ [_ [Hatt _]]]]].
  exists c, c'. repeat apply conj; try assumption.
  destruct Hatt as [Hz|[v' [Hv' Hz]]]; [rewrite Hz; exact Hc0|].
  apply list_elem_of_lookup in Hv' as [i Hi].
  destruct (Forall2_lookup_r _ _ _ _ _ H3 Hi) as [v [Hv Hvv]].
  rewrite Forall_forall in Hall.
  specialize (Hall v (list_elem_of_lookup_2 _ _ _ Hv)). rewrite Hz. lra.
Qed.

(** The three outcomes of [np.max(-1 * (a + b).clip(max=0))] by the lengths
    of [a] and [b]. *)
Lemma violation_max_cases (a b : vec) :
  let r := rbind (broadcast_add a b) (fun adjusted =>
           np_max (map (fun x => mul minus_one (clip_max zero x)) adjusted)) in
  (r = Err ShapeError
   /\ length a <> length b /\ length a <> 1%nat /\ length b <> 1%nat)
  \/ (r = Err ReductionError
      /\ ((a = [] /\ (length b <= 1)%nat) \/ (b = [] /\ length a = 1%nat)))
  \/ ((exists c, r = Ok c)
      /\ (length a = length b \/ length a = 1%nat \/ length b = 1%nat)
      /\ a <> [] /\ b <> []).
Proof.
  unfold broadcast_add.
  destruct a as [|x [|x' a]], b as [|y [|y' b]];
    cbn [length Nat.eqb rbind map zip_with np_max].
  all: try (left; repeat apply conj; [reflexivity|simpl; lia..]).
  all: try (right; left; split; [reflexivity|];
         ((left; split; [reflexivity|simpl; lia])
          || (right; split; [reflexivity|simpl; lia]))).
  all: try (right; right; repeat apply conj;
         [eexists; reflexivity|simpl; lia|discriminate|discriminate]).
  destruct (length a =? length b)%nat eqn:Hlen; cbn [rbind map zip_with np_max].
  - apply Nat.eqb_eq in Hlen. right. right.
    split; [eexists; reflexivity|].
    split; [left; simpl; lia|]. split; discriminate.
  - apply Nat.eqb_neq in Hlen. left.
    split; [reflexivity|]. simpl. lia.
Qed.

(** X5.  The outcome of [rhat] is decided by the lengths of the aggregates
    and of [adjust].  It fails with a broadcast error exactly when they
    differ in length and neither has length one; it fails with a reduction
    error exactly when they can be added and the sum is empty; and it
    returns a value exactly in the remaining case: the lengths agree or one
    of them is one, and neither vector is empty. *)
Theorem rhat_errors W A theta J0 V IV g (adjust : vec) :
  let m_hat0 := m_hat (moments_at m_function_all W A theta J0 V IV g) in
  (rhat m_function_all W A theta J0 V IV g adjust = Err ShapeError
   <-> length m_hat0 <> length adjust
       /\ length m_hat0 <> 1%nat /\ length adjust <> 1%nat)
  /\ (rhat m_function_all W A theta J0 V IV g adjust = Err ReductionError
      <-> (m_hat0 = [] /\ (length adjust <= 1)%nat)
          \/ (adjust = [] /\ length m_hat0 = 1%nat))
  /\ ((exists c, rhat m_function_all W A theta J0 V IV g adjust = Ok c)
      <-> (length m_hat0 = length adjust
           \/ length m_hat0 = 1%nat \/ length adjust = 1%nat)
          /\ m_hat0 <> [] /\ adjust <> []).
Proof.
  intros m_hat0. unfold rhat, rhat_of. fold m_hat0.
  assert (Em : m_hat0 = [] <-> length m_hat0 = 0%nat).
  { destruct m_hat0; simpl; split; intros H0; try discriminate; reflexivity. }
  assert (Ea : adjust = [] <-> length adjust = 0%nat).
  { destruct adjust; simpl; split; intros H0; try discriminate; reflexivity. }
  destruct (violation_max_cases m_hat0 adjust)
    as [[-> [H1 [H2 H3]]]|[[-> H]|[[c ->] [H1 [H2 H3]]]]].
  - split; [|split]; split; try discriminate.
    + intros _. auto.
    + intros _. reflexivity.
    + rewrite Em, Ea. lia.
    + intros [c Hc]. discriminate.
    + lia.
  - rewrite Em, Ea in H. split; [|split]; split; try discriminate.
    + lia.
    + intros _. rewrite Em, Ea. exact H.
    + intros _. reflexivity.
    + intros [c Hc]. discriminate.
    + rewrite Em, Ea. lia.
  - rewrite Em in H2. rewrite Ea in H3. split; [|split]; split; try discriminate.
    + lia.
    + rewrite Em, Ea. lia.
    + intros _. rewrite Em, Ea. auto.
    + intros _. eauto.
Qed.

End Observed.

(** ** The scaling factors [std_b_vec] *)

Lemma rmapM_err {A B : Type} (f : A -> result B) (l : list A) (e : exn) :
  rmapM f l = Err e -> exists x, x ∈ l /\ f x = Err e.
Proof.
  induction l as [|x l IH]; cbn [rmapM rbind]; [discriminate|].
  destruct (f x) as [y|e'] eqn:Hx; cbn [rbind].
  - destruct (rmapM f l) as [ys|e'']; cbn [rbind]; [discriminate|].
    intros H. injection H as ->. destruct (IH eq_refl) as [x' [Hin Hx']].
    exists x'. split; [right; exact Hin|exact Hx'].
  - intros H. injection H as ->. exists x. split; [left|exact Hx].
Qed.

Lemma rmapM_ok_all {A B : Type} (f : A -> result B) (l : list A) (ys : list B) :
  rmapM f l = Ok ys -> Forall (fun x => exists y, f x = Ok y) l.
Proof.
  intros H. apply rmapM_Forall2 in H.
  induction H; constructor; eauto.
Qed.


Lemma take_rows_err (X : matrix) (row : list nat) (e : exn) :
  take_rows X row = Err e -> e = IndexError /\ Exists (fun i => (nrows X <= i)%nat) row.
Proof.
  intros H. apply rmapM_err in H as [i [Hin Hi]].
  destruct (X !! i) as [r|] eqn:Hl; [discriminate|].
  injection Hi as <-. split; [reflexivity|].
  apply Exists_exists. exists i. split; [exact Hin|].
  apply lookup_ge_None in Hl. exact Hl.
Qed.

Lemma take_rows_ok (X : matrix) (row : list nat) (X' : matrix) :
  take_rows X row = Ok X' -> Forall (fun i => (i < nrows X)%nat) row.
Proof.
  intros H. apply rmapM_ok_all in H.
  eapply Forall_impl; [exact H|]. intros i [y Hy]. cbn beta in Hy.
  destruct (X !! i) as [r|] eqn:Hl; [|discriminate].
  apply lookup_lt_Some in Hl. exact Hl.
Qed.

Lemma resample_err (X : matrix) (ix : list (list nat)) (e : exn) :
  resample X ix = Err e ->
  e = IndexError /\ Exists (Exists (fun i => (nrows X <= i)%nat)) ix.
Proof.
  intros H. apply rmapM_err in H as [row [Hin Hrow]].
  apply take_rows_err in Hrow as [-> Hex]. split; [reflexivity|].
  apply Exists_exists. exists row. split; assumption.
Qed.

Lemma resample_ok (X : matrix) (ix : list (list nat)) (Xs : list matrix) :
  resample X ix = Ok Xs ->
  ~ Exists (Exists (fun i => (nrows X <= i)%nat)) ix.
Proof.
  intros H Hex. apply rmapM_ok_all in H.
  apply Exists_exists in Hex as [row [Hin Hrow]].
  rewrite Forall_forall in H. destruct (H row Hin) as [X' HX'].
  apply take_rows_ok in HX'.
  apply Exists_exists in Hrow as [i [Hi Hge]].
  rewrite Forall_forall in HX'. specialize (HX' i Hi). cbn beta in HX'. lia.
Qed.

Lemma max_axis1_err (A : matrix) (e : exn) :
  max_axis1 A = Err e -> e = ReductionError.
Proof.
  intros H. apply rmapM_err in H as [r [_ Hr]].
  destruct r; [injection Hr as <-; reflexivity|discriminate].
Qed.

Lemma min_axis1_err (A : matrix) (e : exn) :
  min_axis1 A = Err e -> e = ReductionError.
Proof.
  intros H. apply rmapM_err in H as [r [_ Hr]].
  destruct r; [injection Hr as <-; reflexivity|discriminate].
Qed.

Lemma an_loop_err (H : matrix) (phi : vec) (js : list nat) (hb : vec) (e : exn) :
  an_loop H phi js hb = Err e -> e = ReductionError.
Proof.
  revert hb. induction js as [|j js IH]; intros hb; cbn [an_loop]; [discriminate|].
  destruct (max_axis1 _) as [col|e'] eqn:Hm; cbn [rbind].
  - destruct (an_loop H phi js _) as [cols|e''] eqn:Hl; cbn [rbind]; [discriminate|].
    intros He. injection He as <-. eapply IH, Hl.
  - intros He. injection He as <-. eapply max_axis1_err, Hm.
Qed.

Lemma min_over_columns_err (B : nat) (cols : list vec) (e : exn) :
  min_over_columns B cols = Err e -> e = ReductionError.
Proof.
  unfold min_over_columns. destruct cols.
  - intros H. injection H as <-. reflexivity.
  - apply min_axis1_err.
Qed.

Lemma min_over_columns_length (B : nat) (cols : list vec) (v : vec) :
  min_over_columns B cols = Ok v -> length v = B.
Proof.
  unfold min_over_columns. destruct cols; [discriminate|].
  intros H. apply rmapM_length in H. rewrite H, length_map, length_seq. reflexivity.
Qed.

Section Scaling.

Context {E : Env}.

Lemma std_b_of_err_index (X : matrix) (ix : list (list nat)) :
  std_b_of X ix = Err IndexError
  <-> Exists (Exists (fun i => (nrows X <= i)%nat)) ix.
Proof.
  unfold std_b_of, std_b_terms.
  destruct (resample X ix) as [Xs|e] eqn:HXs; cbn [rbind].
  - pose proof (resample_ok _ _ _ HXs) as Hno.
    destruct (min_axis1 _) as [mn|e] eqn:Hmn; cbn [rbind].
    + split; [discriminate|tauto].
    + apply min_axis1_err in Hmn as ->. split; [discriminate|tauto].
  - apply resample_err in HXs as [-> Hex]. tauto.
Qed.

Lemma tn_star_of_err_index (X : matrix) (b : vec) (k : num) (ix : list (list nat)) :
  m_hat X <> [] ->
  (tn_star_of X b k ix = Err IndexError
   <-> Exists (Exists (fun i => (nrows X <= i)%nat)) ix).
Proof.
  intros Hne. unfold tn_star_of.
  destruct (np_max_total (r_hat_vec_of (m_hat X))) as [r ->].
  { unfold r_hat_vec_of. apply map_nonempty, Hne. }
  cbn [rbind].
  destruct (resample X ix) as [Xs|e] eqn:HXs; cbn [rbind].
  - pose proof (resample_ok _ _ _ HXs) as Hno. split; [discriminate|tauto].
  - apply resample_err in HXs as [-> Hex]. tauto.
Qed.

Lemma an_star_of_err_index (X : matrix) (b2 b3 : vec) (k h : num)
    (ix : list (list nat)) :
  m_hat X <> [] ->
  (an_star_of X b2 b3 k h ix = Err IndexError
   <-> Exists (Exists (fun i => (nrows X <= i)%nat)) ix).
Proof.
  intros Hne. unfold an_star_of.
  destruct (np_max_total (r_hat_vec_of (m_hat X))) as [r ->].
  { unfold r_hat_vec_of. apply map_nonempty, Hne. }
  cbn [rbind].
  destruct (resample X ix) as [Xs|e] eqn:HXs; cbn [rbind].
  - pose proof (resample_ok _ _ _ HXs) as Hno.
    destruct (an_loop _ _ _ _) as [cols|e] eqn:Hl; cbn [rbind].
    + destruct (min_over_columns _ _) as [v|e] eqn:Hm.
      * split; [discriminate|tauto].
      * apply min_over_columns_err in Hm as ->. split; [discriminate|tauto].
    + apply an_loop_err in Hl as ->. split; [discriminate|tauto].
  - apply resample_err in HXs as [-> Hex]. tauto.
Qed.

(** X6.  With an explicit index matrix (of indices that are not negative),
    at least one aggregate, and scaling vectors of one entry per moment,
    [std_b_vec], [tn_star] and [an_star] fail with an index error exactly
    when some index is not below the number of rows of the data; the
    generator is left as it was. *)
Theorem index_error_iff_out_of_range
    (X : matrix) (std_b1 std_b2 std_b3 : vec) (kappa_n hat_r_inf : num)
    (ix : list (list nat)) r sd s :
  m_hat X <> [] ->
  length std_b1 = length (m_hat X) ->
  length std_b2 = length (m_hat X) ->
  length std_b3 = length (m_hat X) ->
  let out_of_range := Exists (Exists (fun i => (nrows X <= i)%nat)) ix in
  (std_b_vec X r sd (Some ix) s = (Err IndexError, s) <-> out_of_range)
  /\ (tn_star X std_b1 kappa_n r sd (Some ix) s = (Err IndexError, s)
      <-> out_of_range)
  /\ (an_star X std_b2 std_b3 kappa_n hat_r_inf r sd (Some ix) s
      = (Err IndexError, s) <-> out_of_range).
Proof.
  intros Hne _ _ _ out_of_range.
  rewrite std_b_vec_explicit, tn_star_explicit, an_star_explicit.
  pose proof (std_b_of_err_index X ix) as H1.
  pose proof (tn_star_of_err_index X std_b1 kappa_n ix Hne) as H2.
  pose proof (an_star_of_err_index X std_b2 std_b3 kappa_n hat_r_inf ix Hne) as H3.
  repeat apply conj; intros H;
    try (injection H as H); try (f_equal); tauto.
Qed.

Lemma clip_min_iota_cases (x : num) :
  is_nan (clip_min iota x) = true \/ leb iota (clip_min iota x) = true.
Proof.
  destruct (is_nan x) eqn:Hx.
  - left. destruct x; try discriminate. reflexivity.
  - right. apply clip_min_iota, Hx.
Qed.

Lemma std_axis0_clip (k : nat) (A : matrix) :
  length (map (clip_min iota) (std_axis0 k A)) = k
  /\ Forall (fun x => is_nan x = true \/ leb iota x = true)
            (map (clip_min iota) (std_axis0 k A)).
Proof.
  split.
  - unfold std_axis0, columns. rewrite !length_map, length_seq. reflexivity.
  - apply Forall_forall. intros x Hx.
    apply list_elem_of_In, in_map_iff in Hx as [y [<- _]].
    apply clip_min_iota_cases.
Qed.

(** X7.  Whatever the data and the bootstrap configuration, a matrix that
    [std_b_vec] returns has three rows of one common length, and each of
    its entries is NaN or at least [iota]: the floor never lets a number
    below [iota] through. *)
Theorem std_b_vec_floor_or_nan (X : matrix) r sd bi s (M : matrix) :
  (std_b_vec X r sd bi s).1 = Ok M ->
  exists k,
    length M = 3%nat
    /\ Forall (fun row => length row = k
                 /\ Forall (fun x => is_nan x = true \/ leb iota x = true) row) M.
Proof.
  unfold std_b_vec. rewrite drawn_then_pure.
  destruct (bootstrap_draw _ _ _ _ _) as [[ix|e] s']; cbn [fst]; [|discriminate].
  unfold std_b_of.
  destruct (std_b_terms X ix) as [[ms [[v1 v2] v3]]|e]; cbn [rbind]; [|discriminate].
  intros H. injection H as <-.
  exists (width (ncols X) ms). split; [reflexivity|].
  repeat constructor; apply std_axis0_clip.
Qed.

Lemma single_row_column (k : nat) (A : matrix) (j : nat) :
  fin_matrix k A -> length A = 1%nat -> (j < k)%nat ->
  exists d, column j A = map Fin (replicate 1 d).
Proof.
  intros HA Hl Hj. destruct (column_fin k A j HA Hj) as [cs [Hcs Hlen]].
  rewrite Hl in Hlen. destruct cs as [|d [|d' cs]]; try discriminate.
  exists d. exact Hcs.
Qed.

Lemma single_row_floor (k : nat) (A : matrix) :
  leb (np_sqrt zero) iota = true ->
  fin_matrix k A -> length A = 1%nat ->
  map (clip_min iota) (std_axis0 k A) = replicate k iota.
Proof.
  intros Hz HA Hl. apply list_eq. intros j.
  destruct (decide (j < k)%nat) as [Hj|Hj].
  - rewrite std_axis0_lookup by exact Hj.
    rewrite lookup_replicate_2 by exact Hj. f_equal.
    destruct (single_row_column k A j HA Hl Hj) as [d ->].
    rewrite np_std_const by lia. apply clip_min_iota_small, Hz.
  - rewrite !lookup_ge_None_2; [reflexivity| |].
    + rewrite length_replicate. lia.
    + unfold std_axis0, columns. rewrite !length_map, length_seq. lia.
Qed.

(** X8.  With a single bootstrap replication on well-formed data every
    column has standard deviation [np.sqrt(0)]; where that is at most
    [iota], [std_b_vec] returns the [3 x k] matrix whose entries are all
    [iota]. *)
Theorem std_b_vec_single_replication (X : matrix) (row : list nat) r sd s :
  well_formed X [row] = true ->
  leb (np_sqrt zero) iota = true ->
  std_b_vec X r sd (Some [row]) s
  = (Ok (replicate 3 (replicate (length (m_hat X)) iota)), s).
Proof.
  intros Hwf Hz.
  destruct (std_b_terms_fin X [row] Hwf)
    as (Xs & v1 & v2 & v3 & HXs & HlenXs & Hterms & Hv2 & Hstar
        & H1 & H1l & H2 & H2l & H3 & H3l).
  assert (Hw : width (ncols X) (m_hat_axis1 Xs) = length (m_hat X)).
  { apply width_of_rows; [|exact Hstar].
    unfold m_hat_axis1. destruct Xs; [discriminate|discriminate]. }
  rewrite std_b_vec_explicit. unfold std_b_of. rewrite Hterms. cbn [rbind].
  rewrite Hw, !single_row_floor by assumption. reflexivity.
Qed.

End Scaling.

(** ** The bootstrap statistic [tn_star] *)

Lemma add_zero_fin (q : Q) : add (fin q) zero = fin q.
Proof.
  unfold fin, zero. rewrite add_fin. unfold fin. f_equal.
  apply Qred_complete. rewrite Qred_correct. ring.
Qed.

Lemma fin_zero (q : Q) : q == 0 -> fin q = zero.
Proof. intros H. unfold fin, zero. f_equal. apply (Qred_complete _ 0), H. Qed.

(** A statistic that is 0 before the division is never above 1 after it. *)
Lemma zero_over_not_above_one (sigma q : Q) (y : num) :
  q == 0 -> gtb (div (mul (Fin sigma) (Fin q)) y) one = false.
Proof.
  intros Hq. rewrite mul_fin, fin_zero by (rewrite Hq; ring).
  destruct y as [| |b|]; try reflexivity.
  unfold zero. cbn [div]. destruct (qsign b); reflexivity.
Qed.

Lemma lookup_map_fin (qs : list Q) (j : nat) (a : Q) :
  map Fin qs !! j = Some (Fin a) -> qs !! j = Some a.
Proof.
  change (map Fin qs) with (Fin <$> qs). rewrite list_lookup_fmap.
  destruct (qs !! j) as [q|]; cbn; [|discriminate].
  intros H. injection H as ->. reflexivity.
Qed.

(** The largest violation of a vector whose smallest entry [a] is not
    positive is [-a]. *)
Lemma np_max_r_hat_least (ms : list Q) (j : nat) (a : Q) :
  ms !! j = Some a -> a <= 0 -> Forall (fun v => a <= v) ms ->
  exists c, np_max (r_hat_vec_of (map Fin ms)) = Ok (Fin c) /\ c == - a.
Proof.
  intros Hj Ha Hleast. unfold r_hat_vec_of.
  destruct (violations_fin ms) as [cs [-> Hrel]].
  assert (Hne : cs <> []).
  { intros ->. inversion Hrel. subst. discriminate. }
  destruct (np_max_fin cs Hne) as [c [-> [Hin Hall]]].
  exists c. split; [reflexivity|].
  destruct (Forall2_lookup_l _ _ _ _ _ Hrel Hj) as [cj [Hcj Hrj]].
  rewrite Forall_forall in Hall.
  specialize (Hall cj (list_elem_of_lookup_2 _ _ _ Hcj)).
  apply list_elem_of_lookup in Hin as [i Hi].
  destruct (Forall2_lookup_r _ _ _ _ _ Hrel Hi) as [v [Hv Hrv]].
  rewrite Forall_forall in Hleast.
  specialize (Hleast v (list_elem_of_lookup_2 _ _ _ Hv)). cbn beta in *.
  apply Qle_antisym.
  - destruct Hrv as [[_ ->]|[_ ->]]; lra.
  - destruct Hrj as [[H0 Hc]|[_ Hc]]; rewrite Hc in Hall; lra.
Qed.

Section Penalty.

Context {E : Env}.

Lemma tn_star_of_entry (X : matrix) (std_b1 : vec) (kappa_n : num)
    (ix : list (list nat)) :
  well_formed X ix = true ->
  length std_b1 = length (m_hat X) ->
  exists r_hat Xs tn,
    np_max (r_hat_vec_of (m_hat X)) = Ok r_hat
    /\ resample X ix = Ok Xs
    /\ tn_star_of X std_b1 kappa_n ix = Ok tn
    /\ length tn = length Xs /\ length Xs = length ix
    /\ Forall (fun row => length row = length (m_hat X)) tn
    /\ forall b j X' m s1 m',
        Xs !! b = Some X' -> m_hat X !! j = Some m -> std_b1 !! j = Some s1 ->
        m_hat X' !! j = Some m' ->
        exists row,
          tn !! b = Some row
          /\ row !! j
             = Some (if gtb (div (mul (np_sqrt (of_nat (nrows X))) (add m r_hat))
                                 (mul s1 kappa_n)) one
                     then PInf
                     else mul (np_sqrt (of_nat (nrows X))) (sub m' m)).
Proof.
  intros Hwf Hlen1.
  apply well_formed_inv in Hwf as [Hk [Hfin [Hsq [Xs [HXs [HlenXs Hagg]]]]]].
  apply is_fin_inv in Hsq as [sigma Hsigma].
  destruct (np_max_total (r_hat_vec_of (m_hat X))) as [r_hat Hr].
  { unfold r_hat_vec_of. apply map_nonempty. destruct (m_hat X); [simpl in Hk; lia|congruence]. }
  unfold tn_star_of. rewrite Hr, HXs. cbn [rbind].
  exists r_hat, Xs. eexists. split; [reflexivity|]. split; [reflexivity|].
  split; [reflexivity|]. split.
  { unfold centred, m_hat_axis1. rewrite !length_map. reflexivity. }
  split; [exact HlenXs|]. split.
  { apply Forall_forall. intros row Hrow.
    unfold centred, m_hat_axis1 in Hrow. rewrite !map_map in Hrow.
    apply list_elem_of_fmap in Hrow as [X' [-> HX']].
    rewrite Forall_forall in Hagg. destruct (Hagg X' HX') as [Hl' _].
    rewrite !length_zip_with, length_map, length_zip_with. lia. }
  intros b j X' m s1 m' Hb Hm Hs1 Hm'.
  unfold centred, m_hat_axis1. rewrite !map_map.
  eexists. split.
  { change (map ?f Xs) with (f <$> Xs). rewrite list_lookup_fmap, Hb. reflexivity. }
  rewrite !lookup_zip_with, Hm', Hm. cbn.
  change (map gms ?l) with (gms <$> l).
  rewrite list_lookup_fmap, lookup_zip_with, Hm, Hs1. cbn.
  f_equal. rewrite Hsigma.
  apply forallb_is_fin in Hfin as [ms Hms].
  assert (Ha : exists a, m = Fin a).
  { rewrite Hms in Hm. change (map Fin ms) with (Fin <$> ms) in Hm.
    rewrite list_lookup_fmap in Hm. destruct (ms !! j); [|discriminate].
    injection Hm as <-. eauto. }
  destruct Ha as [a ->].
  assert (Ha' : exists a', m' = Fin a').
  { rewrite Forall_forall in Hagg.
    destruct (Hagg X' (list_elem_of_lookup_2 _ _ _ Hb)) as [_ Hf].
    apply forallb_is_fin in Hf as [ms' Hms'].
    rewrite Hms' in Hm'. change (map Fin ms') with (Fin <$> ms') in Hm'.
    rewrite list_lookup_fmap in Hm'. destruct (ms' !! j); [|discriminate].
    injection Hm' as <-. eauto. }
  destruct Ha' as [a' ->].
  unfold gms. destruct (gtb _ one).
  - rewrite sub_fin. unfold fin. rewrite mul_fin. reflexivity.
  - rewrite sub_fin. unfold fin. rewrite mul_fin. apply add_zero_fin.
Qed.

(** X9.  On well-formed data and for a scaling vector [std_b1] of one
    entry per moment, [tn_star] returns one row per replication, each of
    one entry per moment, and a column is all of one kind: where [xi_n] of
    the moment is above 1 the entry is [+inf] in every replication, and
    elsewhere it is the centred bootstrap aggregate
    [sqrt(n) * (mhat_star - m_hat0)], the penalty 0 leaving it as it is. *)
Theorem tn_star_columns (X : matrix) (std_b1 : vec) (kappa_n : num)
    (ix : list (list nat)) r sd s :
  well_formed X ix = true ->
  length std_b1 = length (m_hat X) ->
  exists r_hat Xs tn,
    np_max (r_hat_vec_of (m_hat X)) = Ok r_hat
    /\ resample X ix = Ok Xs
    /\ tn_star X std_b1 kappa_n r sd (Some ix) s = (Ok tn, s)
    /\ length tn = length ix
    /\ Forall (fun row => length row = length (m_hat X)) tn
    /\ forall b j X' m s1 m',
        Xs !! b = Some X' -> m_hat X !! j = Some m -> std_b1 !! j = Some s1 ->
        m_hat X' !! j = Some m' ->
        exists row,
          tn !! b = Some row
          /\ row !! j
             = Some (if gtb (div (mul (np_sqrt (of_nat (nrows X))) (add m r_hat))
                                 (mul s1 kappa_n)) one
                     then PInf
                     else mul (np_sqrt (of_nat (nrows X))) (sub m' m)).
Proof.
  intros Hwf Hlen. rewrite tn_star_explicit.
  destruct (tn_star_of_entry X std_b1 kappa_n ix Hwf Hlen)
    as (r_hat & Xs & tn & H1 & H2 & H3 & H4 & H5 & H7 & H6).
  exists r_hat, Xs, tn. rewrite H3.
  repeat apply conj; try assumption; try reflexivity. lia.
Qed.

(** X10.  The most violated moment is never penalised: on well-formed
    data, if the smallest aggregate [a] is not positive, then for every
    scaling [std_b1] of full length and every [kappa_n] the entry of
    [tn_star] at that moment is a number in every replication. *)
Theorem tn_star_most_violated_finite (X : matrix) (std_b1 : vec) (kappa_n : num)
    (ix : list (list nat)) r sd s (j : nat) (a : Q) :
  well_formed X ix = true ->
  length std_b1 = length (m_hat X) ->
  m_hat X !! j = Some (Fin a) -> a <= 0 ->
  Forall (fun x => leb (Fin a) x = true) (m_hat X) ->
  exists tn,
    tn_star X std_b1 kappa_n r sd (Some ix) s = (Ok tn, s)
    /\ length tn = length ix
    /\ Forall (fun row => exists c, row !! j = Some (Fin c)) tn.
Proof.
  intros Hwf Hlen Hj Ha Hleast. rewrite tn_star_explicit.
  destruct (tn_star_of_entry X std_b1 kappa_n ix Hwf Hlen)
    as (r_hat & Xs & tn & H1 & H2 & H3 & H4 & H5 & _ & H6).
  exists tn. rewrite H3. split; [reflexivity|]. split; [lia|].
  pose proof Hwf as Hwf'.
  apply well_formed_inv in Hwf' as [Hk [Hfin [Hsq [Xs' [HXs' [_ Hagg]]]]]].
  rewrite H2 in HXs'. injection HXs' as <-.
  apply is_fin_inv in Hsq as [sigma Hsigma].
  apply forallb_is_fin in Hfin as [ms Hms].
  assert (Hja : ms !! j = Some a).
  { apply lookup_map_fin. rewrite <- Hms. exact Hj. }
  assert (Hleast' : Forall (fun v => a <= v) ms).
  { rewrite Hms in Hleast. apply Forall_forall. intros v Hv.
    rewrite Forall_forall in Hleast. apply leb_fin, Hleast.
    apply list_elem_of_fmap. exists v. split; [reflexivity|exact Hv]. }
  destruct (np_max_r_hat_least ms j a Hja Ha Hleast') as [c [Hc Hca]].
  rewrite <- Hms, H1 in Hc. injection Hc as ->.
  destruct (lookup_lt_is_Some_2 std_b1 j) as [s1 Hs1].
  { rewrite Hlen. eapply lookup_lt_Some, Hj. }
  apply Forall_forall. intros row Hrow.
  apply list_elem_of_lookup in Hrow as [b Hb].
  destruct (lookup_lt_is_Some_2 Xs b) as [X' HX'].
  { rewrite <- H4. eapply lookup_lt_Some, Hb. }
  rewrite Forall_forall in Hagg.
  destruct (Hagg X' (list_elem_of_lookup_2 _ _ _ HX')) as [Hl' Hf'].
  apply forallb_is_fin in Hf' as [ms' Hms'].
  destruct (lookup_lt_is_Some_2 ms' j) as [a' Ha'].
  { apply (f_equal length) in Hms'. rewrite length_map in Hms'.
    rewrite <- Hms', Hl'. eapply lookup_lt_Some, Hj. }
  assert (Hm' : m_hat X' !! j = Some (Fin a')).
  { rewrite Hms'. change (map Fin ms') with (Fin <$> ms').
    rewrite list_lookup_fmap, Ha'. reflexivity. }
  destruct (H6 b j X' (Fin a) s1 (Fin a') HX' Hj Hs1 Hm') as [row' [Hb' Hrow']].
  rewrite Hb in Hb'. injection Hb' as <-.
  rewrite Hrow', Hsigma, add_fin. unfold fin at 1.
  rewrite zero_over_not_above_one
    by (rewrite Qred_correct, Hca; ring).
  rewrite sub_fin. unfold fin. rewrite mul_fin. eexists. reflexivity.
Qed.

End Penalty.

(** ** The alternatives of [an_star] *)

Lemma rmapM_map {A B C : Type} (f : B -> result C) (g : A -> B) (l : list A) :
  rmapM f (map g l) = rmapM (fun x => f (g x)) l.
Proof.
  induction l as [|x l IH]; [reflexivity|]. cbn [map rmapM]. rewrite IH. reflexivity.
Qed.

Lemma nonzero_from_sorted (i : nat) (mask : list bool) :
  StronglySorted lt (nonzero_from i mask)
  /\ Forall (fun j => (i <= j)%nat) (nonzero_from i mask).
Proof.
  revert i. induction mask as [|b mask IH]; intros i; cbn [nonzero_from].
  - split; constructor.
  - destruct (IH (S i)) as [Hs Hge]. destruct b.
    + split.
      * constructor; [exact Hs|].
        eapply Forall_impl; [exact Hge|]. intros j Hj. cbn beta in Hj. lia.
      * constructor; [lia|].
        eapply Forall_impl; [exact Hge|]. intros j Hj. cbn beta in Hj. lia.
    + split; [exact Hs|].
      eapply Forall_impl; [exact Hge|]. intros j Hj. cbn beta in Hj. lia.
Qed.

(** X11.  The loop of [an_star] accumulates its writes: the alternative
    for the [i]-th near-binding index is taken from [hat_b] with the
    entries at the first [i + 1] near-binding indices all replaced by
    their [phi_n] values, not from [hat_b] with that one entry replaced. *)
Theorem an_loop_accumulates (hat_hi_star : matrix) (phi_n : vec)
    (hat_j_r : list nat) (hat_b : vec) :
  an_loop hat_hi_star phi_n hat_j_r hat_b
  = rmapM (fun i =>
             let written :=
               fold_left (fun b j => <[j := nth j phi_n NaN]> b)
                         (take (S i) hat_j_r) hat_b in
             max_axis1 (map (fun h => zip_with add written h) hat_hi_star))
          (seq 0 (length hat_j_r)).
Proof.
  revert hat_b. induction hat_j_r as [|j js IH]; intros hat_b; [reflexivity|].
  cbn [an_loop length seq rmapM take fold_left].
  destruct (max_axis1 _) as [col|e]; cbn [rbind]; [|reflexivity].
  rewrite IH, <- seq_shift, rmapM_map. reflexivity.
Qed.

(** X12.  The near-binding indices come in strictly increasing order, and
    each of them addresses an entry of [hat_b] and of [phi_n]: the write
    [hat_bnew[j] = phi_n[j]] is never out of bounds and no index is
    visited twice. *)
Theorem near_binding_indices_in_range (sq kappa_n hat_r_inf r_hat0 : num)
    (r_hat_vec std_b3 : vec) :
  StronglySorted lt (hat_j_r_of sq kappa_n r_hat0 r_hat_vec std_b3)
  /\ Forall (fun j =>
               is_Some (hat_b_of sq kappa_n hat_r_inf r_hat_vec std_b3 !! j)
               /\ is_Some (map gms (xi_a_of sq kappa_n hat_r_inf r_hat_vec std_b3)
                           !! j))
            (hat_j_r_of sq kappa_n r_hat0 r_hat_vec std_b3).
Proof.
  split; [apply nonzero_from_sorted|].
  apply Forall_forall. intros j Hj. unfold hat_j_r_of in Hj.
  apply elem_of_nonzero, lookup_lt_Some in Hj.
  rewrite length_zip_with in Hj.
  split; apply lookup_lt_is_Some_2.
  - unfold hat_b_of. rewrite length_zip_with. exact Hj.
  - unfold xi_a_of. rewrite length_map, length_zip_with. exact Hj.
Qed.

(** ** The penalty search [an_vec] *)

Lemma min_single_column (v : vec) :
  min_over_columns (length v) [v] = Ok v.
Proof.
  unfold min_over_columns, min_axis1. rewrite rmapM_map. cbn [map np_min fold_left].
  assert (Hgen : forall (pre l : vec),
             rmapM (fun b => Ok (nth b (pre ++ l) NaN)) (seq (length pre) (length l))
             = Ok l).
  { intros pre l. revert pre. induction l as [|x l IH]; intros pre; [reflexivity|].
    cbn [length seq rmapM rbind].
    rewrite app_nth2, Nat.sub_diag by lia. cbn [nth].
    replace (pre ++ x :: l) with ((pre ++ [x]) ++ l) by (rewrite <- app_assoc; reflexivity).
    replace (S (length pre)) with (length (pre ++ [x]))
      by (rewrite length_app; simpl; lia).
    rewrite IH. reflexivity. }
  exact (Hgen [] v).
Qed.

Section GridSearch.

Context {E : Env}.

Lemma an_star_of_length (X : matrix) (b2 b3 : vec) (k h : num)
    (ix : list (list nat)) (v : vec) :
  an_star_of X b2 b3 k h ix = Ok v -> length v = length ix.
Proof.
  unfold an_star_of.
  destruct (np_max _) as [r0|e]; cbn [rbind]; [|discriminate].
  destruct (resample X ix) as [Xs|e] eqn:HXs; cbn [rbind]; [|discriminate].
  destruct (an_loop _ _ _ _) as [cols|e]; cbn [rbind]; [|discriminate].
  intros H. apply min_over_columns_length in H. rewrite H.
  unfold centred, m_hat_axis1. rewrite !length_map.
  eapply rmapM_length, HXs.
Qed.

Lemma an_point_on_length h W A J0 V IV g (ix : list (list nat)) k t (v : vec) :
  an_point_on h W A J0 V IV g (fun _ => ix) k t = Ok v -> length v = length ix.
Proof.
  unfold an_point_on.
  destruct (the_theta_of g t) as [th|e]; cbn [rbind]; [|discriminate].
  destruct (std_b_of _ ix) as [b0|e]; cbn [rbind]; [|discriminate].
  apply an_star_of_length.
Qed.

(** With an explicit index matrix the columns of [an_mat] are computed
    without the generator. *)
Lemma an_columns_explicit h W A J0 V IV g r sd ix k B ts s :
  an_columns h W A J0 V IV g r sd (Some ix) k B ts s
  = (rmapM (fun t => rbind (an_point_on h W A J0 V IV g (fun _ => ix) k t)
                           (assign_column B)) ts, s).
Proof.
  induction ts as [|t ts IH]; [reflexivity|].
  cbn [an_columns rmapM]. unfold bind at 1. rewrite an_point_explicit.
  destruct (an_point_on _ _ _ _ _ _ _ _ _ _) as [v|e]; cbn [rbind]; [|reflexivity].
  rewrite bind_lift.
  destruct (assign_column B v) as [col|e]; cbn [rbind]; [|reflexivity].
  unfold bind. rewrite IH.
  destruct (rmapM _ ts) as [cols|e]; reflexivity.
Qed.

Lemma an_search_explicit h W A J0 V IV g r sd ix ts s :
  an_search h W A J0 V IV g r sd (Some ix) ts s
  = (rbind (rmapM (fun t =>
                     rbind (an_point_on h W A J0 V IV g (fun _ => ix)
                              (np_sqrt (np_log (of_nat (nrows A)))) t)
                           (assign_column (length ix))) ts)
           (min_over_columns (length ix)), s).
Proof.
  unfold an_search. rewrite bind_lift. cbn [np_zeros_rows].
  unfold bind. rewrite an_columns_explicit.
  destruct (rmapM _ ts) as [cols|e]; reflexivity.
Qed.

(** X13.  With an explicit index matrix and a single retained grid point,
    [an_vec] is one pass of its loop: it returns what [an_star] returns at
    that point for the scaling factors of [std_b_vec], or fails as that
    pass fails, and it leaves the generator as it was. *)
Theorem an_vec_single_point h W A J0 V IV g r sd ix (aux grid : vec) (t : num) s :
  mask_select grid (boole_of_interest A aux) = Ok [t] ->
  an_vec h W A J0 V IV g r sd (Some ix) aux grid s
  = (an_point_on h W A J0 V IV g (fun _ => ix)
       (np_sqrt (np_log (of_nat (nrows A)))) t, s).
Proof.
  intros Hm. unfold an_vec. rewrite bind_lift, Hm, an_search_explicit.
  cbn [rmapM].
  destruct (an_point_on _ _ _ _ _ _ _ _ _ _) as [v|e] eqn:Hv; cbn [rbind];
    [|reflexivity].
  apply an_point_on_length in Hv.
  unfold assign_column. rewrite Hv, Nat.eqb_refl. cbn [rbind].
  rewrite <- Hv, min_single_column. reflexivity.
Qed.

(** X14.  A direction [grid0] outside -1, 0, 1, 2 makes [an_vec] fail
    with an index error at the first retained grid point, in every
    bootstrap configuration that supplies a count or a matrix, before
    anything is drawn. *)
Theorem an_vec_direction_out_of_range
    h W A J0 V IV g r sd bi (aux grid : vec) (t : num) (ts : vec) (B : nat) s :
  (g < -1 \/ 2 < g)%Z ->
  mask_select grid (boole_of_interest A aux) = Ok (t :: ts) ->
  match bi with None => r | Some ix => Some (length ix) end = Some B ->
  an_vec h W A J0 V IV g r sd bi aux grid s = (Err IndexError, s).
Proof.
  intros Hg Hm HB. unfold an_vec. rewrite bind_lift, Hm.
  unfold an_search. rewrite HB, bind_lift. cbn [np_zeros_rows].
  unfold bind at 1. cbn [an_columns]. unfold bind at 1.
  unfold an_point. rewrite bind_lift.
  assert (Hth : the_theta_of g t = Err IndexError).
  { unfold the_theta_of.
    replace ((g - 1 =? 0) || (g - 1 =? -2))%Z with false by lia.
    replace ((g - 1 =? 1) || (g - 1 =? -1))%Z with false by lia.
    reflexivity. }
  rewrite Hth. reflexivity.
Qed.

End GridSearch.

Section Passes.

Context {E : Env}.

Lemma std_axis0_fin (k : nat) (A : matrix) :
  sqrt_total -> A <> [] -> fin_matrix k A ->
  exists qs, map (clip_min iota) (std_axis0 k A) = map Fin qs
             /\ length qs = k /\ Forall (fun q => 0 <= q) qs.
Proof.
  intros Hsqrt Hne HA.
  destruct (std_axis0_floor k A Hsqrt Hne HA) as [Hlen Hfloor].
  assert (Hfin : forallb is_fin (map (clip_min iota) (std_axis0 k A)) = true).
  { apply forallb_forall. intros x Hx.
    unfold std_axis0, columns in Hx.
    apply in_map_iff in Hx as [y [<- Hy]].
    apply in_map_iff in Hy as [c [<- Hc]].
    apply in_map_iff in Hc as [j [<- Hj]].
    apply in_seq in Hj.
    destruct (column_fin k A j HA) as [cs [-> Hl]]; [lia|].
    destruct (np_std_fin cs Hsqrt) as [r ->].
    { destruct cs; [|congruence]. destruct A; [congruence|discriminate]. }
    unfold clip_min, iota. destruct (maximum_fin r (1 # 1000000)) as [c [-> _]].
    reflexivity. }
  apply forallb_is_fin in Hfin as [qs Hqs]. exists qs.
  split; [exact Hqs|]. split.
  - rewrite Hqs, length_map in Hlen. exact Hlen.
  - rewrite Hqs in Hfloor. apply Forall_forall. intros q Hq.
    rewrite Forall_forall in Hfloor.
    assert (H : leb iota (Fin q) = true).
    { apply Hfloor. apply list_elem_of_fmap. exists q. split; [reflexivity|exact Hq]. }
    apply leb_fin in H. lra.
Qed.

(** On well-formed data with at least one replication the three rows of
    [std_b_vec] are numbers, one per moment, none of them negative. *)
Lemma std_b_of_fin (X : matrix) (ix : list (list nat)) :
  sqrt_total -> ix <> [] -> well_formed X ix = true ->
  exists b1 b2 b3 : list Q,
    std_b_of X ix = Ok [map Fin b1; map Fin b2; map Fin b3]
    /\ (length b1 = length (m_hat X) /\ Forall (fun q => 0 <= q) b1)
    /\ (length b2 = length (m_hat X) /\ Forall (fun q => 0 <= q) b2)
    /\ (length b3 = length (m_hat X) /\ Forall (fun q => 0 <= q) b3).
Proof.
  intros Hsqrt Hne Hwf.
  destruct (std_b_terms_fin X ix Hwf)
    as (Xs & v1 & v2 & v3 & HXs & HlenXs & Hterms & Hv2 & Hstar
        & H1 & H1l & H2 & H2l & H3 & H3l).
  assert (Hix : (0 < length ix)%nat) by (destruct ix; [congruence|simpl; lia]).
  assert (Hw : width (ncols X) (m_hat_axis1 Xs) = length (m_hat X)).
  { apply width_of_rows; [|exact Hstar].
    unfold m_hat_axis1. destruct Xs; [simpl in HlenXs; lia|discriminate]. }
  assert (Hnil : forall v : matrix, length v = length ix -> v <> []).
  { intros v Hv ->. simpl in Hv. lia. }
  unfold std_b_of. rewrite Hterms. cbn [rbind]. rewrite Hw.
  destruct (std_axis0_fin _ v1 Hsqrt (Hnil _ H1l) H1) as [b1 [-> Hb1]].
  destruct (std_axis0_fin _ v2 Hsqrt (Hnil _ H2l) H2) as [b2 [-> Hb2]].
  destruct (std_axis0_fin _ v3 Hsqrt (Hnil _ H3l) H3) as [b3 [-> Hb3]].
  exists b1, b2, b3. auto.
Qed.

Lemma forallb_fin_nonneg (qs : list Q) :
  Forall (fun q => 0 <= q) qs ->
  forallb (fun s => is_fin s && leb zero s) (map Fin qs) = true.
Proof.
  intros H. apply forallb_forall. intros x Hx.
  apply in_map_iff in Hx as [q [<- Hq]].
  rewrite Forall_forall in H. cbn [is_fin andb]. apply leb_fin, H, list_elem_of_In, Hq.
Qed.

Lemma an_point_on_total h W A J0 V IV g (ix : list (list nat)) (k t : num) :
  sqrt_total -> ix <> [] ->
  is_fin k && leb zero k = true ->
  pass_well_formed W A J0 V IV g ix t = true ->
  exists v, an_point_on h W A J0 V IV g (fun _ => ix) k t = Ok v
            /\ length v = length ix.
Proof.
  intros Hsqrt Hne Hk Hpass. unfold pass_well_formed in Hpass.
  unfold an_point_on.
  destruct (the_theta_of g t) as [th|e]; [|discriminate]. cbn [rbind].
  set (X := map (map (mul minus_one)) (m_function W A th J0 V IV g)) in *.
  apply andb_prop in Hpass as [Hwf Hsq].
  destruct (std_b_of_fin X ix Hsqrt Hne Hwf)
    as (b1 & b2 & b3 & -> & _ & [Hl2 _] & [Hl3 Hb3]).
  cbn [rbind nth].
  pose proof Hwf as Hwf'.
  apply well_formed_inv in Hwf' as [Hk1 [Hfin _]].
  assert (Hm0 : m_hat X <> []) by (destruct (m_hat X); simpl in *; [lia|congruence]).
  destruct (near_binding_contains_max (m_hat X) (map Fin b3) k
              (np_sqrt (of_nat (nrows X)))) as [r_hat0 [j [Hmax [_ Hj]]]];
    auto.
  { rewrite length_map. exact Hl3. }
  { apply forallb_fin_nonneg, Hb3. }
  apply (an_star_of_total X (map Fin b2) (map Fin b3) k h ix r_hat0 j); auto.
  - apply map_nonempty. intros ->. simpl in Hl2. destruct (m_hat X); [congruence|discriminate].
  - apply map_nonempty. intros ->. simpl in Hl3. destruct (m_hat X); [congruence|discriminate].
Qed.

(** X15.  With an explicit index matrix of at least one row, a tuning
    parameter [kappa_n] that is a number and not negative, and every
    retained grid point on well-formed data, every pass of the loop of
    [an_vec] succeeds (the scaling factors are numbers, so the
    near-binding set of [an_star] holds the most violated moment) and
    [an_vec] returns one value per replication, leaving the generator as it
    was. *)
Theorem an_vec_returns h W A J0 V IV g r sd (ix : list (list nat))
    (aux grid ts : vec) s :
  sqrt_total -> ix <> [] ->
  is_fin (np_sqrt (np_log (of_nat (nrows A))))
  && leb zero (np_sqrt (np_log (of_nat (nrows A)))) = true ->
  mask_select grid (boole_of_interest A aux) = Ok ts -> ts <> [] ->
  forallb (pass_well_formed W A J0 V IV g ix) ts = true ->
  exists v, an_vec h W A J0 V IV g r sd (Some ix) aux grid s = (Ok v, s)
            /\ length v = length ix.
Proof.
  intros Hsqrt Hne Hk Hm Hts Hpass.
  unfold an_vec. rewrite bind_lift, Hm, an_search_explicit.
  destruct (rmapM_total
              (fun t => rbind (an_point_on h W A J0 V IV g (fun _ => ix)
                                 (np_sqrt (np_log (of_nat (nrows A)))) t)
                              (assign_column (length ix))) ts)
    as [cols [-> Hlen]].
  { apply Forall_forall. intros t Ht.
    rewrite forallb_forall in Hpass.
    destruct (an_point_on_total h W A J0 V IV g ix _ t Hsqrt Hne Hk
                (Hpass t (proj1 (list_elem_of_In _ _) Ht))) as [v [-> Hv]].
    cbn [rbind]. unfold assign_column. rewrite Hv, Nat.eqb_refl. eauto. }
  cbn [rbind].
  destruct (min_over_columns_total (length ix) cols) as [v [-> Hv]].
  { intros ->. simpl in Hlen. destruct ts; [congruence|discriminate]. }
  exists v. auto.
Qed.

End Passes.

(** ** The critical value [cvalue_SPUR1] *)

Lemma fold_maximum_elem (l : vec) (a : num) :
  is_nan (fold_left maximum l a) = true \/ fold_left maximum l a ∈ a :: l.
Proof.
  revert a. induction l as [|x l IH]; intros a; cbn [fold_left].
  - right. left.
  - destruct (IH (maximum a x)) as [H|H]; [left; exact H|].
    apply elem_of_cons in H as [H|H].
    + rewrite H. unfold maximum.
      destruct a, x; try (left; reflexivity);
        try (destruct (leb _ _); right; [right; left|left]).
    + right. right. right. exact H.
Qed.

Lemma np_max_elem (v : vec) (x : num) :
  np_max v = Ok x -> is_nan x = true \/ x ∈ v.
Proof.
  destruct v as [|a l]; [discriminate|]. cbn [np_max].
  intros H. injection H as <-. apply fold_maximum_elem.
Qed.

Lemma violation_nonneg (y : num) (c : Q) :
  mul minus_one (clip_max zero y) = Fin c -> 0 <= c.
Proof.
  destruct y as [| |a|]; try discriminate.
  - destruct (r_hat_entry_fin a) as [c' [-> Hc']]. intros H. injection H as <-. exact Hc'.
  - intros H. vm_compute in H. injection H as <-. discriminate.
Qed.

Lemma sn_star_entries (tn : matrix) (an : vec) (qs : list Q) (q : Q) :
  sn_star_of tn an = Ok (map Fin qs) -> q ∈ qs ->
  exists t a, a ∈ an /\ Fin q = mul minus_one (clip_max zero (add t a)).
Proof.
  intros H Hq. unfold sn_star_of, max_axis1 in H.
  apply rmapM_Forall2 in H.
  apply list_elem_of_lookup in Hq as [i Hi].
  assert (Hi' : map Fin qs !! i = Some (Fin q)).
  { change (map Fin qs) with (Fin <$> qs). rewrite list_lookup_fmap, Hi. reflexivity. }
  destruct (Forall2_lookup_r _ _ _ _ _ H Hi') as [row [Hrow Hmax]].
  apply lookup_zip_with_Some in Hrow as [row0 [a [-> [_ Ha]]]].
  apply np_max_elem in Hmax as [Hn|Hin]; [discriminate|].
  apply list_elem_of_fmap in Hin as [t [Ht _]].
  exists t, a. split; [eapply list_elem_of_lookup_2, Ha|exact Ht].
Qed.

Lemma sn_star_nonneg (tn : matrix) (an : vec) (qs : list Q) :
  sn_star_of tn an = Ok (map Fin qs) -> Forall (fun q => 0 <= q) qs.
Proof.
  intros H. apply Forall_forall. intros q Hq.
  destruct (sn_star_entries tn an qs q H Hq) as [t [a [_ Heq]]].
  eapply violation_nonneg. symmetry. exact Heq.
Qed.

(** Against a penalty of [+inf] no violation is left. *)
Lemma sn_star_inf (tn : matrix) (n : nat) (qs : list Q) :
  sn_star_of tn (replicate n PInf) = Ok (map Fin qs) ->
  Forall (fun q => q == 0) qs.
Proof.
  intros H. apply Forall_forall. intros q Hq.
  destruct (sn_star_entries tn _ qs q H Hq) as [t [a [Ha Heq]]].
  apply elem_of_replicate in Ha as [-> _].
  destruct t; try discriminate; vm_compute in Heq; injection Heq as ->; reflexivity.
Qed.

Lemma nth_elem_of (ss : list Q) (i : nat) :
  (i < length ss)%nat -> nth i ss 0 ∈ ss.
Proof. intros H. apply list_elem_of_In, nth_In, H. Qed.

Lemma avg_same (x : Q) : (x + x) / 2 == x.
Proof. field. Qed.

(** The average of the two order statistics of a rank lies between two of
    the entries. *)
Lemma midpoint_between (qs : list Q) (r : Q) :
  qs <> [] -> 0 <= r ->
  exists c lo hi,
    midpoint_at_rank (map Fin qs) r = Fin c
    /\ lo ∈ qs /\ hi ∈ qs /\ lo <= c /\ c <= hi.
Proof.
  intros Hne Hr.
  assert (HN : (0 < length qs)%nat) by (destruct qs; [congruence|simpl; lia]).
  destruct (sort_fin qs) as [ss [Hss [Hsorted Hperm]]].
  assert (Hls : length ss = length qs) by (rewrite Hperm; reflexivity).
  destruct (midpoint_at_rank_value qs ss r Hss Hls HN Hr) as [c [Hc Hcv]].
  destruct (rank_positions (length qs) r HN Hr) as [P0 [P1 P2]].
  set (last := (Z.of_nat (length qs) - 1)%Z) in *.
  set (lo := nth (Z.to_nat (Z.min (Qfloor r) last)) ss 0) in *.
  set (hi := nth (Z.to_nat (Z.min (Qceiling r) last)) ss 0) in *.
  assert (Hlh : lo <= hi) by (apply sorted_nth; [exact Hsorted|lia|lia]).
  exists c, lo, hi. split; [exact Hc|].
  split; [rewrite <- Hperm; apply nth_elem_of; lia|].
  split; [rewrite <- Hperm; apply nth_elem_of; lia|].
  rewrite Hcv. split.
  - rewrite <- (avg_same lo) at 1. apply avg_mono; [lra|exact Hlh].
  - rewrite <- (avg_same hi) at 2. apply avg_mono; [exact Hlh|lra].
Qed.

Lemma rne_above_half (x : Q) (m : Z) :
  inject_Z m + (1 # 2) < x -> (m + 1 <= rne x)%Z.
Proof.
  intros H. pose proof (rne_bounds x) as Hb.
  assert (Hf : (m <= Qfloor x)%Z).
  { rewrite <- (Qfloor_Z m). apply Qfloor_resp_le. lra. }
  destruct (Z.eq_dec (Qfloor x) m) as [He|Hne]; [|lia].
  unfold rne. rewrite He.
  destruct (x - inject_Z m ?= 1 # 2) eqn:Hc; compare_inv Hc; [lra|lra|lia].
Qed.

(** A difference above [1 + 2^-53] rounds above 1. *)
Lemma round64_above_one (x : Q) :
  1 + (1 # 9007199254740992) < x -> 1 < round64 x.
Proof.
  intros Hx. destruct (Qlt_le_dec x 2) as [H2|H2].
  - assert (Hb : binade x = 0%Z).
    { apply binade_unique; [change (2 ^ 0) with 1; lra|change (2 ^ (0 + 1)) with 2; exact H2]. }
    unfold round64.
    destruct (0 ?= x) eqn:Hc; compare_inv Hc; [lra| |lra].
    unfold round64_pos. rewrite Hb.
    change (Z.max 0 (-1022) - 52)%Z with (-52)%Z.
    assert (Hs : inject_Z (2 ^ 52) + (1 # 2) < x / 2 ^ (-52)).
    { change (2 ^ (-52)) with (1 # 4503599627370496).
      change (inject_Z (2 ^ 52)) with 4503599627370496.
      apply Qlt_shift_div_l; [reflexivity|]. lra. }
    apply rne_above_half in Hs.
    assert (Hq : inject_Z (2 ^ 52 + 1) <= inject_Z (rne (x / 2 ^ (-52))))
      by (rewrite <- Zle_Qle; exact Hs).
    change (inject_Z (2 ^ 52 + 1)) with 4503599627370497 in Hq.
    change (2 ^ (-52)) with (1 # 4503599627370496) in *.
    lra.
  - assert (H : round64 2 <= round64 x) by (apply round64_mono, H2).
    assert (H' : round64 2 == 2) by (vm_compute; reflexivity).
    lra.
Qed.

Lemma level_out_of_range (v : vec) (alpha : num) :
  level_refused alpha ->
  quantile_midpoint v (level_complement alpha) = Err QuantileError.
Proof.
  intros H. destruct alpha as [| |a|]; try reflexivity.
  rewrite level_complement_fin. unfold quantile_midpoint.
  replace (Qle_bool 0 (Qred (round64 (Qred (1 - a))))
           && Qle_bool (Qred (round64 (Qred (1 - a)))) 1) with false;
    [reflexivity|].
  symmetry. apply andb_false_iff. cbn [level_refused] in H.
  destruct H as [H|H].
  - right. apply not_true_is_false. intros Hc. apply Qle_bool_iff in Hc.
    rewrite level_value in Hc.
    assert (Hx : 1 < round64 (1 - a)) by (apply round64_above_one; lra).
    lra.
  - left. apply not_true_is_false. intros Hc. apply Qle_bool_iff in Hc.
    rewrite level_value in Hc.
    assert (Hx : round64 (1 - a) <= round64 (- (1 # 4503599627370496)))
      by (apply round64_mono; lra).
    assert (Hv : round64 (- (1 # 4503599627370496)) == - (1 # 4503599627370496))
      by (vm_compute; reflexivity).
    lra.
Qed.

(** A level in [[-2^-53, 0]] is taken for the level 0. *)
Lemma level_rounds_to_one (a : Q) :
  - (1 # 9007199254740992) <= a -> a <= 0 ->
  level_complement (Fin a) = level_complement zero.
Proof.
  intros H1 H2. unfold zero. rewrite !level_complement_fin. f_equal.
  apply Qred_complete. rewrite !Qred_correct.
  assert (Hlo : round64 1 <= round64 (1 - a)) by (apply round64_mono; lra).
  assert (Hhi : round64 (1 - a) <= round64 (1 + (1 # 9007199254740992)))
    by (apply round64_mono; lra).
  assert (Hv : round64 (1 + (1 # 9007199254740992)) == 1) by (vm_compute; reflexivity).
  assert (Hw : round64 (1 - 0) == 1) by (vm_compute; reflexivity).
  pose proof round64_1. lra.
Qed.

Section Level.

Context {E : Env}.

(** X16.  On well-formed input the critical value is a number that is not
    negative and lies between two entries of the bootstrap statistic
    [sn_star_vec], whose entries are themselves not negative. *)
Theorem cvalue_within_statistics
    (X : matrix) (a : Q) (an : vec) (ix : list (list nat)) r sd s :
  0 <= a -> a <= 1 -> ix <> [] -> well_formed X ix = true ->
  length an = length ix -> forallb fin_or_pinf an = true ->
  exists (c : Q) (sn : list Q) std_b0 tn_vec,
    std_b_of X ix = Ok std_b0
    /\ tn_star_of X (nth 0 std_b0 []) (np_sqrt (np_log (of_nat (nrows X)))) ix
       = Ok tn_vec
    /\ sn_star_of tn_vec an = Ok (map Fin sn)
    /\ cvalue_SPUR1 X (Fin a) an r sd (Some ix) s = (Ok (Fin c), s)
    /\ Forall (fun q => 0 <= q) sn
    /\ 0 <= c
    /\ exists lo hi, lo ∈ sn /\ hi ∈ sn /\ lo <= c /\ c <= hi.
Proof.
  intros Ha0 Ha1 Hne Hwf Han Hup.
  destruct (cvalue_on_value X a an ix Ha0 Ha1 Hne Hwf Han Hup)
    as (b0 & tn & qs & Hb0 & Htn & Hsn & Hlen & Hc).
  assert (Hqs : qs <> []).
  { intros ->. destruct ix; [congruence|discriminate]. }
  assert (HB : (0 < length ix)%nat) by (destruct ix; [congruence|simpl; lia]).
  destruct (midpoint_between qs (float_rank (length ix) (round64 (1 - a))) Hqs)
    as (c & lo & hi & Hm & Hlo & Hhi & H1 & H2).
  { apply float_rank_nonneg; [exact HB|]. apply round64_nonneg. lra. }
  pose proof (sn_star_nonneg tn an qs Hsn) as Hpos.
  exists c, qs, b0, tn. rewrite cvalue_explicit, Hc, Hm.
  repeat apply conj; try assumption; try reflexivity.
  - rewrite Forall_forall in Hpos. specialize (Hpos lo Hlo). cbn beta in Hpos. lra.
  - exists lo, hi. auto.
Qed.

(** X17.  A penalty that is [+inf] in every replication leaves no
    violation: on well-formed data the critical value is 0 at every level. *)
Theorem cvalue_infinite_penalty
    (X : matrix) (a : Q) (ix : list (list nat)) r sd s :
  0 <= a -> a <= 1 -> ix <> [] -> well_formed X ix = true ->
  exists c,
    cvalue_SPUR1 X (Fin a) (replicate (length ix) PInf) r sd (Some ix) s
    = (Ok (Fin c), s)
    /\ c == 0.
Proof.
  intros Ha0 Ha1 Hne Hwf.
  destruct (cvalue_on_value X a (replicate (length ix) PInf) ix Ha0 Ha1 Hne Hwf)
    as (b0 & tn & qs & Hb0 & Htn & Hsn & Hlen & Hc).
  { apply length_replicate. }
  { apply forallb_forall. intros x Hx.
    apply list_elem_of_In, elem_of_replicate in Hx as [-> _]. reflexivity. }
  assert (Hqs : qs <> []).
  { intros ->. destruct ix; [congruence|discriminate]. }
  assert (HB : (0 < length ix)%nat) by (destruct ix; [congruence|simpl; lia]).
  destruct (midpoint_between qs (float_rank (length ix) (round64 (1 - a))) Hqs)
    as (c & lo & hi & Hm & Hlo & Hhi & H1 & H2).
  { apply float_rank_nonneg; [exact HB|]. apply round64_nonneg. lra. }
  pose proof (sn_star_inf tn _ qs Hsn) as Hz.
  rewrite Forall_forall in Hz.
  pose proof (Hz lo Hlo) as Hlo0. pose proof (Hz hi Hhi) as Hhi0. cbn beta in *.
  exists c. rewrite cvalue_explicit, Hc, Hm. split; [reflexivity|]. lra.
Qed.

(** X18.  The level is tested after [1 - alpha] has been rounded to a
    float.  A level that is not a number, is below [-2^-53] or is at least
    [1 + 2^-52] (every float outside [[-2^-53, 1]]) never gives a critical
    value; on well-formed input the scaling step and the statistic
    bootstrap run first, and the call fails in the quantile.  A level in
    [[-2^-53, 0]] is not turned away: [1 - alpha] rounds to 1, and the call
    does what it does at level 0. *)
Theorem cvalue_level_out_of_range (X : matrix) (alpha : num) (an : vec) :
  level_refused alpha ->
  (forall r sd bi s c, (cvalue_SPUR1 X alpha an r sd bi s).1 <> Ok c)
  /\ (forall (ix : list (list nat)) r sd s,
        ix <> [] -> well_formed X ix = true ->
        length an = length ix -> forallb fin_or_pinf an = true ->
        cvalue_SPUR1 X alpha an r sd (Some ix) s = (Err QuantileError, s))
  /\ (forall (a : Q) r sd bi s,
        - (1 # 9007199254740992) <= a -> a <= 0 ->
        cvalue_SPUR1 X (Fin a) an r sd bi s = cvalue_SPUR1 X zero an r sd bi s).
Proof.
  intros Hlevel. repeat apply conj.
  - intros r sd bi s c. unfold cvalue_SPUR1, bind.
    destruct (std_b_vec X r sd bi s) as [[b0|e] s1]; [|discriminate].
    destruct (tn_star X _ _ r sd bi s1) as [[tn|e] s2]; [|discriminate].
    unfold lift, cvalue_of. cbn [fst].
    destruct (sn_star_of tn an) as [sn|e]; cbn [rbind]; [|discriminate].
    rewrite level_out_of_range by exact Hlevel. discriminate.
  - intros ix r sd s Hne Hwf Han Hup.
    destruct (sn_star_total X ix an (np_sqrt (np_log (of_nat (nrows X))))
                Hwf Hne Han Hup) as (b0 & tn & qs & Hb0 & Htn & Hsn & Hlen).
    rewrite cvalue_explicit. unfold cvalue_on. rewrite Hb0. cbn [rbind].
    rewrite Htn. cbn [rbind]. unfold cvalue_of. rewrite Hsn. cbn [rbind].
    rewrite level_out_of_range by exact Hlevel. reflexivity.
  - intros a r sd bi s H1 H2. unfold cvalue_SPUR1, cvalue_of.
    rewrite (level_rounds_to_one a H1 H2). reflexivity.
Qed.

End Level.

(** ** The generator *)

Section Generator.

Context {E : Env}.

Lemma std_b_vec_unseeded X B s :
  std_b_vec X (Some B) None None s =
  (std_b_of X (np_randint (nrows X) B (nrows X) s).1,
   (np_randint (nrows X) B (nrows X) s).2).
Proof. unfold std_b_vec. rewrite drawn_then_pure, draw_unseeded. reflexivity. Qed.

Lemma tn_star_unseeded X b k B s :
  tn_star X b k (Some B) None None s =
  (tn_star_of X b k (np_randint (nrows X) B (nrows X) s).1,
   (np_randint (nrows X) B (nrows X) s).2).
Proof. unfold tn_star. rewrite drawn_then_pure, draw_unseeded. reflexivity. Qed.

Lemma an_columns_seeded h W A J0 V IV g B z k B' ts s :
  (an_columns h W A J0 V IV g (Some B) (Some z) None k B' ts s).1
  = rmapM (fun t => rbind (an_point_on h W A J0 V IV g
                             (fun n => generated n B z) k t)
                          (assign_column B')) ts.
Proof.
  revert s. induction ts as [|t ts IH]; intros s; [reflexivity|].
  cbn [an_columns rmapM]. unfold bind at 1.
  pose proof (an_point_seeded h W A J0 V IV g B z k t s) as Hp.
  destruct (an_point h W A J0 V IV g (Some B) (Some z) None k t s) as [[v|e] s1];
    cbn [fst] in Hp; rewrite <- Hp; cbn [rbind]; [|reflexivity].
  rewrite bind_lift.
  destruct (assign_column B' v) as [col|e]; cbn [rbind]; [|reflexivity].
  unfold bind. specialize (IH s1).
  destruct (an_columns h W A J0 V IV g (Some B) (Some z) None k B' ts s1)
    as [[cols|e] s2]; cbn [fst] in IH; rewrite <- IH; reflexivity.
Qed.

(** X19.  What the bootstrap configuration does to the global generator.
    With an explicit index matrix [cvalue_SPUR1] and [an_vec] leave it as it
    was, whatever they return; with a count and a seed [cvalue_SPUR1]
    leaves it in the state that seeding and one draw give, whatever the
    state before; and without a count and a matrix [cvalue_SPUR1] fails
    with the configuration error of [std_b_vec], the generator untouched. *)
Theorem generator_effects :
  (forall X alpha an r sd ix s,
      (cvalue_SPUR1 X alpha an r sd (Some ix) s).2 = s)
  /\ (forall h W A J0 V IV g r sd ix aux grid s,
      (an_vec h W A J0 V IV g r sd (Some ix) aux grid s).2 = s)
  /\ (forall X alpha an B z s,
      (cvalue_SPUR1 X alpha an (Some B) (Some z) None s).2
      = (np_randint (nrows X) B (nrows X) (np_seed z)).2)
  /\ (forall X alpha an sd s,
      cvalue_SPUR1 X alpha an None sd None s = (Err ConfigError, s)).
Proof.
  repeat apply conj.
  - intros. rewrite cvalue_explicit. reflexivity.
  - intros. unfold an_vec. rewrite bind_lift.
    destruct (mask_select grid _) as [ts|e]; [|reflexivity].
    rewrite an_search_explicit. reflexivity.
  - intros. unfold cvalue_SPUR1, bind. rewrite std_b_vec_seeded.
    destruct (std_b_of X _) as [b0|e]; [|reflexivity].
    rewrite tn_star_seeded.
    destruct (tn_star_of X _ _ _); reflexivity.
  - intros. reflexivity.
Qed.

(** X20.  With a replication count and no seed [cvalue_SPUR1] draws twice:
    the scaling factors come from the first matrix drawn, the statistic
    bootstrap resamples with a second matrix drawn from the generator as
    the first draw left it, and the generator ends after the second draw
    (after the first, if the scaling step fails). *)
Theorem cvalue_unseeded_draws_twice (X : matrix) (alpha : num) (an : vec)
    (B : nat) s :
  let n := nrows X in
  let first := np_randint n B n s in
  let second := np_randint n B n first.2 in
  cvalue_SPUR1 X alpha an (Some B) None None s
  = match std_b_of X first.1 with
    | Ok std_b0 =>
        (rbind (tn_star_of X (nth 0 std_b0 [])
                  (np_sqrt (np_log (of_nat n))) second.1)
               (cvalue_of alpha an),
         second.2)
    | Err e => (Err e, first.2)
    end.
Proof.
  intros n first second. unfold cvalue_SPUR1, bind.
  rewrite std_b_vec_unseeded. fold n first.
  destruct (std_b_of X first.1) as [b0|e]; [|reflexivity].
  rewrite tn_star_unseeded. fold n second.
  destruct (tn_star_of X _ _ second.1); reflexivity.
Qed.

(** X21.  With a replication count and a seed every pass of the loop of
    [an_vec], and both components within a pass, resample with the matrix
    that the seed generates for the pass's data: [an_vec] returns the
    minimum over the retained grid points of [an_star] on those matrices. *)
Theorem an_vec_seeded h W A J0 V IV g (B : nat) (z : Z) (aux grid : vec) s :
  (an_vec h W A J0 V IV g (Some B) (Some z) None aux grid s).1
  = rbind (mask_select grid (boole_of_interest A aux)) (fun theta_of_interest =>
    rbind (rmapM (fun t =>
                    rbind (an_point_on h W A J0 V IV g
                             (fun n => generated n B z)
                             (np_sqrt (np_log (of_nat (nrows A)))) t)
                          (assign_column B))
                 theta_of_interest)
          (min_over_columns B)).
Proof.
  unfold an_vec. rewrite bind_lift.
  destruct (mask_select grid _) as [ts|e]; [|reflexivity]. cbn [rbind].
  unfold an_search. rewrite bind_lift. cbn [np_zeros_rows]. unfold bind.
  pose proof (an_columns_seeded h W A J0 V IV g B z
                (np_sqrt (np_log (of_nat (nrows A)))) B ts s) as Hc.
  destruct (an_columns _ _ _ _ _ _ _ _ _ _ _ _ _ _) as [[cols|e] s1];
    cbn [fst] in Hc; rewrite <- Hc; reflexivity.
Qed.

End Generator.

(** ** The grid restriction *)

Lemma mask_select_mismatch {A : Type} (a : list A) (mask : list bool) :
  mask_select a mask = Err IndexError <-> length a <> length mask.
Proof.
  revert mask. induction a as [|x a IH]; intros [|b mask]; cbn [mask_select length].
  - split; [discriminate|congruence].
  - split; [discriminate|reflexivity].
  - split; [discriminate|reflexivity].
  - specialize (IH mask).
    destruct (mask_select a mask) as [r|e]; cbn [rbind].
    + split; [discriminate|]. intros H. exfalso.
      assert (Hne : length a <> length mask) by congruence.
      apply IH in Hne. discriminate.
    + split.
      * intros H. injection H as ->. intros Hl. injection Hl as Hl.
        apply (proj1 IH); [reflexivity|exact Hl].
      * intros Hl. f_equal.
        assert (Hne : length a <> length mask) by congruence.
        apply IH in Hne. injection Hne as ->. reflexivity.
Qed.

Section Restriction.

Context {E : Env}.

(** X22.  When [theta_grid] and [aux1_var] differ in length, [an_vec]
    fails with an index error in the boolean selection, in every bootstrap
    configuration and before the configuration is looked at; the generator
    is left as it was. *)
Theorem an_vec_grid_length_mismatch
    h W A J0 V IV g r sd bi (aux grid : vec) s :
  length grid <> length aux ->
  an_vec h W A J0 V IV g r sd bi aux grid s = (Err IndexError, s).
Proof.
  intros Hl. unfold an_vec. rewrite bind_lift.
  assert (H : mask_select grid (boole_of_interest A aux) = Err IndexError).
  { apply mask_select_mismatch. unfold boole_of_interest.
    rewrite length_map. exact Hl. }
  rewrite H. reflexivity.
Qed.

End Restriction.

(** * Instances on explicit inputs *)

(** ** The bootstrap configuration *)

(** C2 as stated fails for a replication count without a seed: in one
    invocation of [cvalue_SPUR1] the scaling step draws its index matrix
    from the generator as it finds it, and the statistic bootstrap draws
    another from the generator as the scaling step left it. *)
Lemma unseeded_components_draw_apart :
  let s0 := 42%Z in
  let s1 := (@std_b_vec Demo.env Ex.X4 (Some 2%nat) None None s0).2 in
  let ix1 := [[1; 1; 1; 1]; [0; 1; 1; 0]]%nat in
  let ix2 := [[1; 1; 0; 2]; [2; 0; 1; 0]]%nat in
  (@std_b_vec Demo.env Ex.X4 (Some 2%nat) None None s0).1
  = @std_b_of Demo.env Ex.X4 ix1
  /\ (forall b k,
        (@tn_star Demo.env Ex.X4 b k (Some 2%nat) None None s1).1
        = @tn_star_of Demo.env Ex.X4 b k ix2)
  /\ ix1 <> ix2.
Proof.
  repeat apply conj.
  - reflexivity.
  - intros b k. unfold tn_star. rewrite drawn_then_pure, draw_unseeded.
    reflexivity.
  - discriminate.
Qed.

(** ** The restriction of the grid *)

(** C3 as stated fails on a negative statistic: with one observation the
    threshold [sqrt(log 1) / sqrt(1)] is 0; the entry [-5] is at distance 5
    from 0 and is not 1, yet its grid point is retained. *)
Lemma negative_statistic_retained :
  @tau_over_sqrt_n Demo.env Ex.A1 = zero
  /\ @boole_of_interest Demo.env Ex.A1 [Ex.z (-5)] = [true]
  /\ @within_of_interest Demo.env Ex.A1 [Ex.z (-5)] = [false]
  /\ mask_select [Ex.z 7] (@boole_of_interest Demo.env Ex.A1 [Ex.z (-5)])
     = Ok [Ex.z 7].
Proof. repeat apply conj; reflexivity. Qed.

(** Of the grid [(7, 8)] with statistics [(-5, 2)] the point 7 is retained. *)
Lemma retained_grid_points_witness :
  mask_select [Ex.z 7; Ex.z 8] (@boole_of_interest Demo.env Ex.A1 [Ex.z (-5); Ex.z 2])
  = Ok [Ex.z 7].
Proof.
  apply (proj1 (@retained_grid_points Demo.env zero [] Ex.A1 [] zero None 1%Z
                  (Some 2%nat) None None [Ex.z (-5); Ex.z 2] [Ex.z 7; Ex.z 8]
                  42%Z eq_refl)).
Defined.

(** C9 as stated fails when neither a replication count nor an index matrix
    is given: the statistic [2] is above the threshold and is not 1, so no
    grid point is retained, and [an_vec] stops in the allocation of
    [an_mat], before the minimum is reached. *)
Lemma nothing_retained_type_error :
  forallb negb (@boole_of_interest Demo.env Ex.A1 [Ex.z 2]) = true
  /\ @an_vec Demo.env zero [] Ex.A1 [] zero None 1%Z None None None
             [Ex.z 2] [Ex.z 0] 42%Z = (Err TypeError, 42%Z)
  /\ (@an_vec Demo.env zero [] Ex.A1 [] zero None 1%Z None None None
              [Ex.z 2] [Ex.z 0] 42%Z).1 <> Err ReductionError.
Proof. repeat apply conj; try reflexivity. discriminate. Qed.

(** The same input with a replication count of 2. *)
Lemma nothing_retained_reduction_error_witness :
  @an_vec Demo.env zero [] Ex.A1 [] zero None 1%Z (Some 2%nat) None None
          [Ex.z 2] [Ex.z 0] 42%Z = (Err ReductionError, 42%Z).
Proof.
  apply (@nothing_retained_reduction_error Demo.env zero [] Ex.A1 [] zero None
           1%Z (Some 2%nat) None None [Ex.z 2] [Ex.z 0] 2%nat 42%Z);
    reflexivity.
Defined.

(** ** The near-binding alternatives *)

(** The environment of the examples meets the conditions of C1: its
    aggregate of [Ex.X4] is [(-1, -1)] and its square root of 4 is 2. *)
Lemma an_star_writes_into_hat_b_witness :
  @an_star_of Demo.env Ex.X4 [Ex.z 1; Ex.z 1] [Ex.z 1; Ex.z 4] (Ex.z 1) (Ex.z 0)
              Ex.ident4 = Ok [PInf]
  /\ @an_star_spec Demo.env Ex.X4 [Ex.z 1; Ex.z 1] [Ex.z 1; Ex.z 4] (Ex.z 1)
                   (Ex.z 0) Ex.ident4 = Ok [Ex.z 1].
Proof.
  apply (@an_star_writes_into_hat_b Demo.env); reflexivity.
Defined.

(** The near-binding set on [Ex.X4] with [std_b3 = (1, 4)] and
    [kappa_n = 1]. *)
Lemma near_binding_set_inhabited_witness :
  exists (r_hat0 : num) (j : nat),
    np_max (r_hat_vec_of (@m_hat Demo.env Ex.X4)) = Ok r_hat0
    /\ r_hat_vec_of (@m_hat Demo.env Ex.X4) !! j = Some r_hat0
    /\ j ∈ @hat_j_r_of (Demo.sqrt (of_nat 4)) (Ex.z 1) r_hat0
             (r_hat_vec_of (@m_hat Demo.env Ex.X4)) [Ex.z 1; Ex.z 4]
    /\ forall (std_b2 : vec) (hat_r_inf : num) (ix : list (list nat)) r sd s,
        @well_formed Demo.env Ex.X4 ix = true ->
        length std_b2 = length (@m_hat Demo.env Ex.X4) ->
        exists v, @an_star Demo.env Ex.X4 std_b2 [Ex.z 1; Ex.z 4] (Ex.z 1)
                           hat_r_inf r sd (Some ix) s = (Ok v, s)
                  /\ length v = length ix.
Proof.
  apply (@near_binding_set_inhabited Demo.env Ex.X4 [Ex.z 1; Ex.z 4] (Ex.z 1));
    try (vm_compute; reflexivity); vm_compute; discriminate.
Defined.

(** C10 as stated fails where a product is not a number.  With
    [kappa_n = +inf], which is not negative, and [std_b3 = (0, 0)], whose
    entries are not negative, [std_b3 * kappa_n] is NaN, every comparison
    with the threshold is false, the near-binding set is empty, and
    [an_star] fails in its final minimum, a reduction over no alternative. *)
Lemma near_binding_set_empty :
  leb zero PInf = true
  /\ forallb (leb zero) [zero; zero] = true
  /\ np_max (r_hat_vec_of (@m_hat Demo.env Ex.X4)) = Ok (Ex.z 1)
  /\ @hat_j_r_of (Demo.sqrt (of_nat 4)) PInf (Ex.z 1)
        (r_hat_vec_of (@m_hat Demo.env Ex.X4)) [zero; zero] = []
  /\ @an_star Demo.env Ex.X4 [Ex.z 1; Ex.z 1] [zero; zero] PInf (Ex.z 0)
               None None (Some Ex.ident4) 42%Z = (Err ReductionError, 42%Z).
Proof. repeat apply conj; reflexivity. Qed.

(** ** The scaling matrix *)

(** The square root of the examples is a number on non-negative numbers. *)
Lemma Demo_sqrt_total : @sqrt_total Demo.env.
Proof.
  intros a Ha. exists (Qred (Demo.sqrt_q a)). split.
  - cbn [np_sqrt Demo.env Demo.sqrt].
    apply Qle_bool_iff in Ha. rewrite Ha. reflexivity.
  - rewrite Qred_correct. unfold Demo.sqrt_q.
    destruct (Demo.is_square _ && Demo.is_square _);
      unfold Qle; simpl; rewrite Z.mul_1_r; apply Z.sqrt_nonneg.
Qed.

(** C7 as stated fails without replications: an index matrix of no rows
    (or a replication count of 0) leaves every column empty, the standard
    deviation of an empty column is NaN, the floor keeps NaN, and NaN is
    not at least [iota]. *)
Lemma scaling_without_replications :
  @std_b_vec Demo.env Ex.X4 None None (Some []) 42%Z
  = (Ok [[NaN; NaN]; [NaN; NaN]; [NaN; NaN]], 42%Z)
  /\ (@std_b_vec Demo.env Ex.X4 (Some 0%nat) None None 42%Z).1
     = Ok [[NaN; NaN]; [NaN; NaN]; [NaN; NaN]]
  /\ leb iota NaN = false.
Proof. repeat apply conj; reflexivity. Qed.

(** The scaling matrix of [Ex.X4] on two replications. *)
Lemma scaling_floor_witness :
  exists M,
    @std_b_vec Demo.env Ex.X4 None None (Some [[0; 1; 2; 3]; [0; 0; 1; 1]]%nat) 42%Z
    = (Ok M, 42%Z)
    /\ length M = 3%nat
    /\ Forall (fun row => length row = length (@m_hat Demo.env Ex.X4)
                          /\ Forall (fun x => leb iota x = true) row) M
    /\ forall Xs j c,
        resample Ex.X4 [[0; 1; 2; 3]; [0; 0; 1; 1]]%nat = Ok Xs ->
        @np_sqrt Demo.env zero = zero ->
        (forall X', X' ∈ Xs -> @m_hat Demo.env X' !! j = Some (Fin c)) ->
        nth 1 M [] !! j = Some iota.
Proof.
  apply (@scaling_floor Demo.env Ex.X4 [[0; 1; 2; 3]; [0; 0; 1; 1]]%nat
           None None 42%Z);
    [apply Demo_sqrt_total|discriminate|reflexivity].
Defined.

(** The first column of [Ex.Xc] has the aggregate 1 in every resample.  Its
    entry is [iota] in the second row; in the first and third rows, which
    subtract the minimum over the moments of each replication, it is 3. *)
Lemma identical_column_other_rows :
  @std_b_of Demo.env Ex.Xc [[0; 0; 0; 0]; [3; 3; 3; 3]]%nat
  = Ok [[Ex.z 3; iota]; [iota; Ex.z 3]; [Ex.z 3; iota]].
Proof. reflexivity. Qed.

(** ** The critical value *)

(** C4 as stated fails where the rank is rounded onto an integer.  At the
    level 0.3 (the float nearest to it) and eleven replications with the
    statistics 0, 1, ..., 10, the rank [10 * (1 - alpha)] is a little above
    7, so that the order statistics that straddle it are 7 and 8, with
    average 7.5; the code computes [1 - alpha] and the product in floats,
    gets the rank 7 and returns 7. *)
Lemma exact_rank_reading_differs :
  (exists std_b0 tn_vec,
      @std_b_of Demo.env Ex.X4 ExRank.ix11 = Ok std_b0
      /\ @tn_star_of Demo.env Ex.X4 (nth 0 std_b0 [])
           (@np_sqrt Demo.env (@np_log Demo.env (of_nat (nrows Ex.X4))))
           ExRank.ix11 = Ok tn_vec
      /\ sn_star_spec tn_vec ExRank.an11 = Ok ExRank.sn11)
  /\ @cvalue_SPUR1 Demo.env Ex.X4 (Fin ExRank.alpha) ExRank.an11
        None None (Some ExRank.ix11) 42%Z = (Ok (Ex.z 7), 42%Z)
  /\ midpoint_quantile ExRank.sn11 (1 - ExRank.alpha) = Fin (15 # 2)
  /\ 7 < inject_Z (Z.of_nat (length ExRank.sn11) - 1) * (1 - ExRank.alpha)
  /\ float_rank (length ExRank.sn11) (round64 (1 - ExRank.alpha)) == 7.
Proof.
  repeat apply conj; try (vm_compute; reflexivity).
  do 2 eexists. repeat apply conj; vm_compute; reflexivity.
Qed.

(** The critical value of [Ex.X4] on three replications at level 1/4,
    where the rank 1.5 is computed without rounding. *)
Lemma critical_value_midpoint_quantile_witness :
  exists std_b0 tn_vec sn_star_vec,
    @std_b_of Demo.env Ex.X4 ExGrid.ix3 = Ok std_b0
    /\ @tn_star_of Demo.env Ex.X4 (nth 0 std_b0 [])
         (@np_sqrt Demo.env (@np_log Demo.env (of_nat (nrows Ex.X4))))
         ExGrid.ix3 = Ok tn_vec
    /\ sn_star_spec tn_vec [Ex.z 0; Ex.z (-1); PInf] = Ok sn_star_vec
    /\ length sn_star_vec = length ExGrid.ix3
    /\ forallb is_fin sn_star_vec = true
    /\ @cvalue_SPUR1 Demo.env Ex.X4 (Fin (1 # 4)) [Ex.z 0; Ex.z (-1); PInf]
         None None (Some ExGrid.ix3) 42%Z
       = (Ok (midpoint_at_rank sn_star_vec
                (float_rank (length ExGrid.ix3) (round64 (1 - (1 # 4))))), 42%Z)
    /\ float_rank (length ExGrid.ix3) (round64 (1 - (1 # 4)))
       == inject_Z (Z.of_nat (length ExGrid.ix3) - 1) * (1 - (1 # 4))
    /\ @cvalue_SPUR1 Demo.env Ex.X4 (Fin (1 # 4)) [Ex.z 0; Ex.z (-1); PInf]
         None None (Some ExGrid.ix3) 42%Z
       = (Ok (midpoint_quantile sn_star_vec (1 - (1 # 4))), 42%Z).
Proof.
  destruct (@critical_value_midpoint_quantile Demo.env Ex.X4 (1 # 4)
              [Ex.z 0; Ex.z (-1); PInf] ExGrid.ix3 None None 42%Z)
    as (b0 & tn & sn & H1 & H2 & H3 & H4 & H5 & H6 & H7);
    [discriminate|discriminate|discriminate|reflexivity|reflexivity
    |reflexivity|].
  exists b0, tn, sn.
  split; [exact H1|]. split; [exact H2|]. split; [exact H3|].
  split; [exact H4|]. split; [exact H5|]. split; [exact H6|].
  split; [vm_compute; reflexivity|].
  apply H7. vm_compute. reflexivity.
Defined.

(** The critical values of [Ex.X4] at the levels 1/20 and 1/2. *)
Lemma critical_value_antitone_witness :
  exists c c',
    @cvalue_SPUR1 Demo.env Ex.X4 (Fin (1 # 20)) [Ex.z 0; Ex.z (-1); PInf]
      None None (Some [[0; 1; 2; 3]; [0; 0; 1; 1]; [2; 3; 3; 1]]%nat) 42%Z
    = (Ok (Fin c), 42%Z)
    /\ @cvalue_SPUR1 Demo.env Ex.X4 (Fin (1 # 2)) [Ex.z 0; Ex.z (-1); PInf]
         None None (Some [[0; 1; 2; 3]; [0; 0; 1; 1]; [2; 3; 3; 1]]%nat) 42%Z
       = (Ok (Fin c'), 42%Z)
    /\ geb (Fin c) (Fin c') = true.
Proof.
  apply (@critical_value_antitone Demo.env Ex.X4 (1 # 20) (1 # 2)
           [Ex.z 0; Ex.z (-1); PInf]
           [[0; 1; 2; 3]; [0; 0; 1; 1]; [2; 3; 3; 1]]%nat None None 42%Z);
    try reflexivity; try discriminate.
Defined.

(** ** Instances of the further properties *)

(** [rhat] on [Demo]: the aggregates of the negated data are (1, 1); with
    [adjust = -3] the adjusted aggregates are (-2, -2). *)
Lemma rhat_largest_violation_witness :
  exists c,
    @rhat Demo.env ExGrid.m_function_all [] Ex.X4 [Ex.z 0; Ex.z 0] [] zero None
          AllDirections [Ex.z (-3)] = Ok (Fin c)
    /\ 0 <= c
    /\ Forall (fun v => - v <= c) [-2; -2]
    /\ (c == 0 \/ exists v, v ∈ [-2; -2] /\ c == - v).
Proof.
  apply (@rhat_largest_violation Demo.env ExGrid.m_function_all [] Ex.X4
           [Ex.z 0; Ex.z 0] [] zero None AllDirections [Ex.z (-3)] [-2; -2]);
    [reflexivity|discriminate].
Defined.

Lemma rhat_zero_iff_no_violation_witness :
  exists c,
    @rhat Demo.env ExGrid.m_function_all [] Ex.X4 [Ex.z 0; Ex.z 0] [] zero None
          (Direction 1) [Ex.z (-3); Ex.z 2] = Ok (Fin c)
    /\ (c == 0 <-> Forall (fun v => 0 <= v) [-2; 3]).
Proof.
  apply (@rhat_zero_iff_no_violation Demo.env ExGrid.m_function_all [] Ex.X4
           [Ex.z 0; Ex.z 0] [] zero None (Direction 1) [Ex.z (-3); Ex.z 2] [-2; 3]);
    [reflexivity|discriminate].
Defined.

Lemma rhat_antitone_in_adjust_witness :
  exists c c',
    @rhat Demo.env ExGrid.m_function_all [] Ex.X4 [Ex.z 0; Ex.z 0] [] zero None
          AllDirections (map Fin [-3]) = Ok (Fin c)
    /\ @rhat Demo.env ExGrid.m_function_all [] Ex.X4 [Ex.z 0; Ex.z 0] [] zero None
             AllDirections (map Fin [-2]) = Ok (Fin c')
    /\ c' <= c.
Proof.
  apply (@rhat_antitone_in_adjust Demo.env ExGrid.m_function_all [] Ex.X4
           [Ex.z 0; Ex.z 0] [] zero None AllDirections [1; 1] [-3] [-2]);
    [reflexivity|discriminate|discriminate|right; left; reflexivity
    |repeat constructor; discriminate].
Defined.

Lemma index_error_iff_out_of_range_witness :
  (@std_b_vec Demo.env Ex.X4 None None (Some [[0; 7]]%nat) 42%Z
   = (Err IndexError, 42%Z)
   <-> Exists (Exists (fun i => (nrows Ex.X4 <= i)%nat)) [[0; 7]]%nat)
  /\ (@tn_star Demo.env Ex.X4 [one; one] one None None (Some [[0; 7]]%nat) 42%Z
      = (Err IndexError, 42%Z)
      <-> Exists (Exists (fun i => (nrows Ex.X4 <= i)%nat)) [[0; 7]]%nat)
  /\ (@an_star Demo.env Ex.X4 [one; one] [one; one] one zero None None
               (Some [[0; 7]]%nat) 42%Z = (Err IndexError, 42%Z)
      <-> Exists (Exists (fun i => (nrows Ex.X4 <= i)%nat)) [[0; 7]]%nat).
Proof.
  apply (@index_error_iff_out_of_range Demo.env Ex.X4 [one; one] [one; one]
           [one; one] one zero [[0; 7]]%nat None None 42%Z);
    [discriminate|reflexivity|reflexivity|reflexivity].
Defined.

Lemma std_b_vec_floor_or_nan_witness :
  exists k,
    length [[iota; iota]; [Ex.z 1; Ex.z 1]; [iota; iota]] = 3%nat
    /\ Forall (fun row => length row = k
                 /\ Forall (fun x => is_nan x = true \/ leb iota x = true) row)
              [[iota; iota]; [Ex.z 1; Ex.z 1]; [iota; iota]].
Proof.
  apply (@std_b_vec_floor_or_nan Demo.env Ex.X4 (Some 2%nat) (Some 7%Z) None 42%Z).
  vm_compute. reflexivity.
Defined.

Lemma std_b_vec_single_replication_witness :
  @std_b_vec Demo.env Ex.X4 None None (Some [[0; 1; 1; 3]]%nat) 42%Z
  = (Ok (replicate 3 (replicate (length (@m_hat Demo.env Ex.X4)) iota)), 42%Z).
Proof.
  apply (@std_b_vec_single_replication Demo.env Ex.X4 [0; 1; 1; 3]%nat
           None None 42%Z); reflexivity.
Defined.

Lemma tn_star_columns_witness :
  exists r_hat Xs tn,
    np_max (r_hat_vec_of (@m_hat Demo.env Ex.Xc)) = Ok r_hat
    /\ resample Ex.Xc ExGrid.ix2 = Ok Xs
    /\ @tn_star Demo.env Ex.Xc [one; one] one None None (Some ExGrid.ix2) 42%Z
       = (Ok tn, 42%Z)
    /\ length tn = length ExGrid.ix2
    /\ Forall (fun row => length row = length (@m_hat Demo.env Ex.Xc)) tn
    /\ forall b j X' m s1 m',
        Xs !! b = Some X' -> @m_hat Demo.env Ex.Xc !! j = Some m ->
        [one; one] !! j = Some s1 -> @m_hat Demo.env X' !! j = Some m' ->
        exists row,
          tn !! b = Some row
          /\ row !! j
             = Some (if gtb (div (mul (@np_sqrt Demo.env (of_nat (nrows Ex.Xc)))
                                      (add m r_hat))
                                 (mul s1 one)) one
                     then PInf
                     else mul (@np_sqrt Demo.env (of_nat (nrows Ex.Xc))) (sub m' m)).
Proof.
  apply (@tn_star_columns Demo.env Ex.Xc [one; one] one ExGrid.ix2 None None 42%Z);
    reflexivity.
Defined.

Lemma tn_star_most_violated_finite_witness :
  exists tn,
    @tn_star Demo.env Ex.Xc [one; one] one None None (Some ExGrid.ix2) 42%Z
    = (Ok tn, 42%Z)
    /\ length tn = length ExGrid.ix2
    /\ Forall (fun row => exists c, row !! 1%nat = Some (Fin c)) tn.
Proof.
  apply (@tn_star_most_violated_finite Demo.env Ex.Xc [one; one] one ExGrid.ix2
           None None 42%Z 1%nat (-5 # 2));
    [reflexivity|reflexivity|reflexivity|discriminate
    |repeat constructor].
Defined.

Lemma an_vec_single_point_witness :
  @an_vec Demo.env zero [] Ex.X4 [] zero None 1%Z None None (Some ExGrid.ix2)
          [Ex.z 0; Ex.z 2] [Ex.z 0; Ex.z 5] 42%Z
  = (@an_point_on Demo.env zero [] Ex.X4 [] zero None 1%Z (fun _ => ExGrid.ix2)
       (@np_sqrt Demo.env (@np_log Demo.env (of_nat (nrows Ex.X4)))) (Ex.z 0),
     42%Z).
Proof.
  apply (@an_vec_single_point Demo.env zero [] Ex.X4 [] zero None 1%Z None None
           ExGrid.ix2 [Ex.z 0; Ex.z 2] [Ex.z 0; Ex.z 5] (Ex.z 0) 42%Z).
  vm_compute. reflexivity.
Defined.

Lemma an_vec_direction_out_of_range_witness :
  @an_vec Demo.env zero [] Ex.X4 [] zero None 3%Z (Some 2%nat) None None
          [Ex.z 0] [Ex.z 0] 42%Z = (Err IndexError, 42%Z).
Proof.
  apply (@an_vec_direction_out_of_range Demo.env zero [] Ex.X4 [] zero None 3%Z
           (Some 2%nat) None None [Ex.z 0] [Ex.z 0] (Ex.z 0) [] 2%nat 42%Z);
    [right; lia|vm_compute; reflexivity|reflexivity].
Defined.

Lemma an_vec_returns_witness :
  exists v,
    @an_vec Demo.env zero [] Ex.X4 [] zero None 1%Z None None (Some ExGrid.ix2)
            [Ex.z 0; Ex.z 0] [Ex.z 0; Ex.z 1] 42%Z = (Ok v, 42%Z)
    /\ length v = length ExGrid.ix2.
Proof.
  apply (@an_vec_returns Demo.env zero [] Ex.X4 [] zero None 1%Z None None
           ExGrid.ix2 [Ex.z 0; Ex.z 0] [Ex.z 0; Ex.z 1] [Ex.z 0; Ex.z 1] 42%Z);
    [apply Demo_sqrt_total|discriminate|vm_compute; reflexivity
    |vm_compute; reflexivity|discriminate|vm_compute; reflexivity].
Defined.

Lemma cvalue_within_statistics_witness :
  exists (c : Q) (sn : list Q) std_b0 tn_vec,
    @std_b_of Demo.env Ex.X4 ExGrid.ix3 = Ok std_b0
    /\ @tn_star_of Demo.env Ex.X4 (nth 0 std_b0 [])
         (@np_sqrt Demo.env (@np_log Demo.env (of_nat (nrows Ex.X4)))) ExGrid.ix3
       = Ok tn_vec
    /\ sn_star_of tn_vec [Ex.z 0; Ex.z (-1); PInf] = Ok (map Fin sn)
    /\ @cvalue_SPUR1 Demo.env Ex.X4 (Fin (1 # 4)) [Ex.z 0; Ex.z (-1); PInf]
         None None (Some ExGrid.ix3) 42%Z = (Ok (Fin c), 42%Z)
    /\ Forall (fun q => 0 <= q) sn
    /\ 0 <= c
    /\ exists lo hi, lo ∈ sn /\ hi ∈ sn /\ lo <= c /\ c <= hi.
Proof.
  apply (@cvalue_within_statistics Demo.env Ex.X4 (1 # 4)
           [Ex.z 0; Ex.z (-1); PInf] ExGrid.ix3 None None 42%Z);
    try reflexivity; discriminate.
Defined.

Lemma cvalue_infinite_penalty_witness :
  exists c,
    @cvalue_SPUR1 Demo.env Ex.X4 (Fin (1 # 4))
       (replicate (length ExGrid.ix3) PInf) None None (Some ExGrid.ix3) 42%Z
    = (Ok (Fin c), 42%Z)
    /\ c == 0.
Proof.
  apply (@cvalue_infinite_penalty Demo.env Ex.X4 (1 # 4) ExGrid.ix3 None None 42%Z);
    try reflexivity; discriminate.
Defined.

Lemma cvalue_level_out_of_range_witness :
  (forall r sd bi s c,
      (@cvalue_SPUR1 Demo.env Ex.X4 (Fin (3 # 2)) [Ex.z 0; Ex.z (-1); PInf]
         r sd bi s).1 <> Ok c)
  /\ (forall (ix : list (list nat)) r sd s,
        ix <> [] -> @well_formed Demo.env Ex.X4 ix = true ->
        length [Ex.z 0; Ex.z (-1); PInf] = length ix ->
        forallb fin_or_pinf [Ex.z 0; Ex.z (-1); PInf] = true ->
        @cvalue_SPUR1 Demo.env Ex.X4 (Fin (3 # 2)) [Ex.z 0; Ex.z (-1); PInf]
          r sd (Some ix) s = (Err QuantileError, s))
  /\ (forall (a : Q) r sd bi s,
        - (1 # 9007199254740992) <= a -> a <= 0 ->
        @cvalue_SPUR1 Demo.env Ex.X4 (Fin a) [Ex.z 0; Ex.z (-1); PInf] r sd bi s
        = @cvalue_SPUR1 Demo.env Ex.X4 zero [Ex.z 0; Ex.z (-1); PInf] r sd bi s).
Proof.
  apply (@cvalue_level_out_of_range Demo.env Ex.X4 (Fin (3 # 2))
           [Ex.z 0; Ex.z (-1); PInf]).
  right. discriminate.
Defined.

Lemma an_vec_grid_length_mismatch_witness :
  @an_vec Demo.env zero [] Ex.X4 [] zero None 1%Z None None None
          [Ex.z 0] [Ex.z 0; Ex.z 1] 42%Z = (Err IndexError, 42%Z).
Proof.
  apply (@an_vec_grid_length_mismatch Demo.env zero [] Ex.X4 [] zero None 1%Z
           None None None [Ex.z 0] [Ex.z 0; Ex.z 1] 42%Z).
  discriminate.
Defined.
